(** * Verification of the label-image utilities of [images.py]

    A shallow embedding of the type classifier, the renumbering engine
    ([consecutively_number], [_conv_type]), the connected-component
    validator ([relabel]), the histogram matcher ([histeq]) and the small
    image helpers ([bw], [get_foreground_area], [crop], [pad]).

    Arrays are flat row-major buffers with a shape.  Integer and boolean
    elements are [Z], the channels of an RGB record are [N] (bytes).  The
    floating-point elements of an [ndarray] are canonical rationals [Qc]
    (finite values); where NaN and the infinities change what the code does
    ([_get_min_max], [bw]) pixels are values of [fval], which has them. *)

From Stdlib Require Import String.
From Stdlib Require Import List ZArith NArith QArith Qcanon Bool Lia.
From Stdlib Require Import Sorted.
Import ListNotations.

Local Open Scope Z_scope.

(** ** Element types *)

Module Dtypes.

(** The integer element types of [_integer_types] (lines 18-32). *)
Inductive int_dtype : Set :=
| IM_BIT
| IM_BYTE | IM_USHORT | IM_USHORT_BE | IM_UINT | IM_UINT_BE | IM_ULONG | IM_ULONG_BE
| IM_SBYTE | IM_SHORT | IM_SHORT_BE | IM_INT | IM_INT_BE | IM_LONG | IM_LONG_BE.

Inductive float_dtype : Set := IM_FLOAT | IM_DOUBLE.

(** Any element type an array can carry; [DOther] stands for every numpy
    element type the module does not know about. *)
Inductive dtype : Set :=
| DInt (i : int_dtype)
| DFloat (f : float_dtype)
| IM_RGB24_STRUCT
| DOther.

Definition int_dtype_eqb (a b : int_dtype) : bool :=
  match a, b with
  | IM_BIT, IM_BIT | IM_BYTE, IM_BYTE | IM_USHORT, IM_USHORT
  | IM_USHORT_BE, IM_USHORT_BE | IM_UINT, IM_UINT | IM_UINT_BE, IM_UINT_BE
  | IM_ULONG, IM_ULONG | IM_ULONG_BE, IM_ULONG_BE | IM_SBYTE, IM_SBYTE
  | IM_SHORT, IM_SHORT | IM_SHORT_BE, IM_SHORT_BE | IM_INT, IM_INT
  | IM_INT_BE, IM_INT_BE | IM_LONG, IM_LONG | IM_LONG_BE, IM_LONG_BE => true
  | _, _ => false
  end.

Definition float_dtype_eqb (a b : float_dtype) : bool :=
  match a, b with
  | IM_FLOAT, IM_FLOAT | IM_DOUBLE, IM_DOUBLE => true
  | _, _ => false
  end.

Definition dtype_eqb (a b : dtype) : bool :=
  match a, b with
  | DInt i, DInt j => int_dtype_eqb i j
  | DFloat f, DFloat g => float_dtype_eqb f g
  | IM_RGB24_STRUCT, IM_RGB24_STRUCT => true
  | DOther, DOther => true
  | _, _ => false
  end.

(** numpy's [dtype.kind]: boolean, unsigned integer, signed integer. *)
Inductive kind : Set := KBool | KUnsigned | KSigned.

Definition dtype_kind (d : int_dtype) : kind :=
  match d with
  | IM_BIT => KBool
  | IM_BYTE | IM_USHORT | IM_USHORT_BE | IM_UINT | IM_UINT_BE
  | IM_ULONG | IM_ULONG_BE => KUnsigned
  | _ => KSigned
  end.

(** Width in bits of one element. *)
Definition bits (d : int_dtype) : Z :=
  match d with
  | IM_BIT | IM_BYTE | IM_SBYTE => 8
  | IM_USHORT | IM_USHORT_BE | IM_SHORT | IM_SHORT_BE => 16
  | IM_UINT | IM_UINT_BE | IM_INT | IM_INT_BE => 32
  | IM_ULONG | IM_ULONG_BE | IM_LONG | IM_LONG_BE => 64
  end.

(** [_signed2unsigned] (lines 38-41), a dictionary: [None] is a missing key. *)
Definition _signed2unsigned (d : int_dtype) : option int_dtype :=
  match d with
  | IM_SBYTE => Some IM_BYTE
  | IM_SHORT => Some IM_USHORT
  | IM_SHORT_BE => Some IM_USHORT_BE
  | IM_INT => Some IM_UINT
  | IM_INT_BE => Some IM_UINT_BE
  | IM_LONG => Some IM_ULONG
  | IM_LONG_BE => Some IM_ULONG_BE
  | _ => None
  end.

(** [_unsigned_types] (line 42), in the order of the tuple. *)
Definition _unsigned_types : list int_dtype :=
  [IM_BIT; IM_BYTE; IM_USHORT; IM_UINT; IM_ULONG].

(** [_integer_types] (lines 44-46). *)
Definition _integer_types : list int_dtype :=
  [IM_BIT;
   IM_BYTE; IM_USHORT; IM_USHORT_BE; IM_UINT; IM_UINT_BE; IM_ULONG; IM_ULONG_BE;
   IM_SBYTE; IM_SHORT; IM_SHORT_BE; IM_INT; IM_INT_BE; IM_LONG; IM_LONG_BE].

(** [_min_max_values] restricted to the integer types (lines 47-48):
    [iinfo(dt).min], [iinfo(dt).max], and [(False, True)] for [IM_BIT]. *)
Definition _min_max_values (d : int_dtype) : Z * Z :=
  match dtype_kind d with
  | KBool => (0, 1)
  | KUnsigned => (0, 2 ^ bits d - 1)
  | KSigned => (- 2 ^ (bits d - 1), 2 ^ (bits d - 1) - 1)
  end.

(** [_get_min_max] on an integer element type or an integer array
    (lines 53 and 58). *)
Definition _get_min_max (d : int_dtype) : Z * Z := _min_max_values d.

Definition in_dtypes (d : int_dtype) (l : list int_dtype) : bool :=
  existsb (int_dtype_eqb d) l.

End Dtypes.
Export Dtypes.

(** ** Errors *)

(** The Python exceptions the modelled code can raise. *)
Inductive exn : Set :=
| ValueError (msg : string)
| OverflowError
| IndexError
| ZeroDivisionError.

Inductive result (A : Type) : Type :=
| Ok (a : A)
| Raise (e : exn).
Arguments Ok {A} a.
Arguments Raise {A} e.

Definition bind {A B} (r : result A) (k : A -> result B) : result B :=
  match r with
  | Ok a => k a
  | Raise e => Raise e
  end.

Notation "x <- c ;; k" := (bind c (fun x => k))
  (at level 61, c at next level, right associativity).
Notation "' p <- c ;; k" := (bind c (fun p => k))
  (at level 61, p pattern, c at next level, right associativity).

(** ** Arrays *)

Definition rgb : Set := (N * N * N)%type.

(** An integer (or boolean) array: what [astype], [searchsorted] and
    [label] produce and what [relabel] mutates. *)
Record intarray : Set := mkInt {
  ia_dtype : int_dtype;
  ia_shape : list nat;
  ia_data : list Z
}.

Inductive ndarray : Type :=
| IntArray (a : intarray)
| FloatArray (dt : float_dtype) (shape : list nat) (data : list Qc)
| RGBArray (shape : list nat) (data : list rgb)
| OtherArray (shape : list nat).

Definition dtype_of (im : ndarray) : dtype :=
  match im with
  | IntArray a => DInt (ia_dtype a)
  | FloatArray dt _ _ => DFloat dt
  | RGBArray _ _ => IM_RGB24_STRUCT
  | OtherArray _ => DOther
  end.

Definition shape_of (im : ndarray) : list nat :=
  match im with
  | IntArray a => ia_shape a
  | FloatArray _ s _ => s
  | RGBArray s _ => s
  | OtherArray s => s
  end.

Definition ndim (im : ndarray) : nat := length (shape_of im).

(** ** Type classifier (lines 59-61) *)

Definition is_rgb24 (im : ndarray) : bool :=
  (Nat.eqb (ndim im) 2 && dtype_eqb (dtype_of im) IM_RGB24_STRUCT)
  || (Nat.eqb (ndim im) 3 && Nat.eqb (nth 2 (shape_of im) 0%nat) 3
      && dtype_eqb (dtype_of im) (DInt IM_BYTE)).

Definition is_image_besides_rgb24 (im : ndarray) : bool :=
  Nat.eqb (ndim im) 2
  && (match dtype_of im with
      | DInt d => in_dtypes d _integer_types
      | _ => false
      end
      || (dtype_eqb (dtype_of im) (DFloat IM_FLOAT)
          || dtype_eqb (dtype_of im) (DFloat IM_DOUBLE))).

Definition is_image (im : ndarray) : bool :=
  is_rgb24 im || is_image_besides_rgb24 im.

(** ** Type narrowing (lines 270-274) *)

(** [ndarray.astype] from an integer array to one of [_unsigned_types]:
    to boolean every nonzero value is [True]; to an unsigned type the value
    wraps modulo [2 ^ bits]. *)
Definition cast (d : int_dtype) (v : Z) : Z :=
  match dtype_kind d with
  | KBool => if v =? 0 then 0 else 1
  | KUnsigned => v mod 2 ^ bits d
  | KSigned => (v + 2 ^ (bits d - 1)) mod 2 ^ bits d - 2 ^ (bits d - 1)
  end.

Definition astype (a : intarray) (d : int_dtype) : intarray :=
  mkInt d (ia_shape a) (map (cast d) (ia_data a)).

(** The [for] loop of [_conv_type] over a tuple of element types. *)
Fixpoint _conv_type_from (types : list int_dtype) (im : intarray) (n : Z)
  : result (intarray * Z) :=
  match types with
  | [] => Raise OverflowError
  | dtype :: rest =>
      if n <=? snd (_get_min_max dtype) then Ok (astype im dtype, n)
      else _conv_type_from rest im n
  end.

Definition _conv_type (im : intarray) (n : Z) : result (intarray * Z) :=
  _conv_type_from _unsigned_types im n.

(** ** Sorting and ranking ([numpy.unique], [numpy.searchsorted]) *)

Section RankingDefs.

Context {V : Type}.
Variable ltb : V -> V -> bool.

(** Insertion of [x] in a sorted duplicate-free list, keeping it so. *)
Fixpoint uinsert (x : V) (l : list V) : list V :=
  match l with
  | [] => [x]
  | y :: ys =>
      if ltb x y then x :: l
      else if ltb y x then y :: uinsert x ys
      else l
  end.

(** [numpy.unique]: the sorted distinct elements of the flattened array. *)
Definition unique (l : list V) : list V := fold_right uinsert [] l.

(** [numpy.insert(values, 0, v)]. *)
Definition insert0 (values : list V) (v : V) : list V := v :: values.

(** [numpy.searchsorted(values, x)] (side left): the first index [i] with
    [x <= values[i]], that is the number of leading elements below [x]. *)
Fixpoint searchsorted (values : list V) (x : V) : nat :=
  match values with
  | [] => 0%nat
  | y :: ys => if ltb y x then S (searchsorted ys x) else 0%nat
  end.

Definition lt (a b : V) : Prop := ltb a b = true.

End RankingDefs.

Record strict_total {V} (ltb : V -> V -> bool) : Prop := {
  st_irrefl : forall a, ltb a a = false;
  st_trans : forall a b c, lt ltb a b -> lt ltb b c -> lt ltb a c;
  st_total : forall a b, ltb a b = false -> ltb b a = false -> a = b
}.

(** ** The three orders on pixel values *)

(** Order of finite floating-point values. *)
Definition Qcltb (a b : Qc) : bool :=
  match Qccompare a b with
  | Lt => true
  | _ => false
  end.

(** Order of [IM_RGB24_STRUCT] records: by field, [R] then [G] then [B]. *)
Definition rgb_ltb (a b : rgb) : bool :=
  let '(r1, g1, b1) := a in
  let '(r2, g2, b2) := b in
  ((r1 <? r2) || ((r1 =? r2) && ((g1 <? g2) || ((g1 =? g2) && (b1 <? b2)))))%N.

Definition rgb_eqb (a b : rgb) : bool :=
  let '(r1, g1, b1) := a in
  let '(r2, g2, b2) := b in
  ((r1 =? r2) && (g1 =? g2) && (b1 =? b2))%N.

Definition rgb_zero : rgb := (0, 0, 0)%N.

(** ** Renumbering engine (lines 240-268) *)

(** [im.view(dtype=IM_RGB24_STRUCT)] on a [(h, w, 3)] byte array packs each
    run of three bytes into one record and leaves a last axis of length 1. *)
Fixpoint group3 (l : list Z) : list rgb :=
  match l with
  | r :: g :: b :: rest => (Z.to_N r, Z.to_N g, Z.to_N b) :: group3 rest
  | _ => []
  end.

Definition view_rgb24_struct (im : ndarray) : list nat * list rgb :=
  match im with
  | RGBArray shape data => (shape, data)
  | IntArray a => (removelast (ia_shape a) ++ [1%nat], group3 (ia_data a))
  | _ => (shape_of im, [])
  end.

(** [ndarray.squeeze]: every axis of length 1 is dropped. *)
Definition squeeze (shape : list nat) : list nat :=
  filter (fun d => negb (Nat.eqb d 1)) shape.

(** Conversion of a floating-point value to an integer (truncation). *)
Definition trunc (q : Qc) : Z := Z.quot (Qnum q) (Zpos (Qden q)).

(** [searchsorted(values, im)] gives an array of indices ([int64]). *)
Definition rank_array {V} (ltb : V -> V -> bool) (values : list V)
    (shape : list nat) (data : list V) : intarray :=
  mkInt IM_LONG shape (map (fun x => Z.of_nat (searchsorted ltb values x)) data).

Definition len {A} (l : list A) : Z := Z.of_nat (length l).

Definition consecutively_number (im : ndarray) : result (intarray * Z) :=
  if is_rgb24 im then
    let '(shape, data) := view_rgb24_struct im in
    let shape := squeeze shape in
    let values := unique rgb_ltb data in
    match values with
    | [] => Raise IndexError
    | v0 :: _ =>
        let values :=
          if negb (rgb_eqb v0 rgb_zero) then insert0 values rgb_zero else values in
        _conv_type (rank_array rgb_ltb values shape data) (len values - 1)
    end
  else if is_image_besides_rgb24 im then
    match im with
    | IntArray a =>
        let values := unique Z.ltb (ia_data a) in
        match values with
        | [] => Raise IndexError
        | v0 :: _ =>
            if v0 <? 0 then Raise (ValueError "negative numbers")
            else
              let values := if negb (v0 =? 0) then insert0 values 0 else values in
              if negb (dtype_eqb (dtype_of im) (DFloat IM_FLOAT))
                 && negb (dtype_eqb (dtype_of im) (DFloat IM_DOUBLE))
                 && (last values 0 =? len values - 1)
              then _conv_type a (len values - 1)
              else _conv_type (rank_array Z.ltb values (ia_shape a) (ia_data a))
                              (len values - 1)
        end
    | FloatArray dt shape data =>
        let values := unique Qcltb data in
        match values with
        | [] => Raise IndexError
        | v0 :: _ =>
            if Qcltb v0 (Q2Qc 0) then Raise (ValueError "negative numbers")
            else
              let values :=
                if negb (Qc_eq_bool v0 (Q2Qc 0)) then insert0 values (Q2Qc 0)
                else values in
              if negb (dtype_eqb (dtype_of im) (DFloat IM_FLOAT))
                 && negb (dtype_eqb (dtype_of im) (DFloat IM_DOUBLE))
                 && Qc_eq_bool (last values (Q2Qc 0)) (Q2Qc (inject_Z (len values - 1)))
              then _conv_type (mkInt IM_LONG shape (map trunc data)) (len values - 1)
              else _conv_type (rank_array Qcltb values shape data) (len values - 1)
        end
    | _ => Raise (ValueError "im")
    end
  else Raise (ValueError "im").

(** The general path alone: [consecutively_number] without the shortcut of
    line 266, every pixel going through the rank lookup of line 268. *)
Definition consecutively_number_general (im : ndarray) : result (intarray * Z) :=
  if is_rgb24 im then
    let '(shape, data) := view_rgb24_struct im in
    let shape := squeeze shape in
    let values := unique rgb_ltb data in
    match values with
    | [] => Raise IndexError
    | v0 :: _ =>
        let values :=
          if negb (rgb_eqb v0 rgb_zero) then insert0 values rgb_zero else values in
        _conv_type (rank_array rgb_ltb values shape data) (len values - 1)
    end
  else if is_image_besides_rgb24 im then
    match im with
    | IntArray a =>
        let values := unique Z.ltb (ia_data a) in
        match values with
        | [] => Raise IndexError
        | v0 :: _ =>
            if v0 <? 0 then Raise (ValueError "negative numbers")
            else
              let values := if negb (v0 =? 0) then insert0 values 0 else values in
              _conv_type (rank_array Z.ltb values (ia_shape a) (ia_data a))
                         (len values - 1)
        end
    | FloatArray dt shape data =>
        let values := unique Qcltb data in
        match values with
        | [] => Raise IndexError
        | v0 :: _ =>
            if Qcltb v0 (Q2Qc 0) then Raise (ValueError "negative numbers")
            else
              let values :=
                if negb (Qc_eq_bool v0 (Q2Qc 0)) then insert0 values (Q2Qc 0)
                else values in
              _conv_type (rank_array Qcltb values shape data) (len values - 1)
        end
    | _ => Raise (ValueError "im")
    end
  else Raise (ValueError "im").

(** The pixels of an image that are 0, respectively [(0, 0, 0)]. *)
Definition zero_mask (im : ndarray) : list bool :=
  if is_rgb24 im then map (fun p => rgb_eqb p rgb_zero) (snd (view_rgb24_struct im))
  else
    match im with
    | IntArray a => map (fun v => v =? 0) (ia_data a)
    | FloatArray _ _ data => map (fun q => Qc_eq_bool q (Q2Qc 0)) data
    | RGBArray _ data => map (fun p => rgb_eqb p rgb_zero) data
    | OtherArray _ => []
    end.

(** The table of lines 254 and 265: the distinct values, with [zero] put
    in front when the smallest value [v0] is not [zero]. *)
Definition table {V} (eqb : V -> V -> bool) (zero : V) (v0 : V) (values : list V)
  : list V :=
  if negb (eqb v0 zero) then insert0 values zero else values.

Definition dtype_max (d : int_dtype) : Z := snd (_get_min_max d).

(** [d] is the first type of [_unsigned_types] that can hold [n]. *)
Definition narrowest (d : int_dtype) (n : Z) : Prop :=
  In d _unsigned_types /\ n <= dtype_max d
  /\ forall d', In d' _unsigned_types -> n <= dtype_max d' -> dtype_max d <= dtype_max d'.

(** The pixels of an accepted image, as ranks in its value table. *)
Record renumbered (im : ndarray) (out : intarray) (N : Z) : Prop := {
  rn_nonneg : 0 <= N;
  rn_narrowest : narrowest (ia_dtype out) N;
  rn_bounded : forall k, In k (ia_data out) -> 0 <= k <= N;
  rn_cover : forall k, 1 <= k <= N -> In k (ia_data out);
  rn_zero : map (fun k => k =? 0) (ia_data out) = zero_mask im
}.

(** Some pixel of a plain image is below 0. *)
Definition has_negative (im : ndarray) : bool :=
  match im with
  | IntArray a => existsb (fun v => v <? 0) (ia_data a)
  | FloatArray _ _ data => existsb (fun q => Qcltb q (Q2Qc 0)) data
  | _ => false
  end.

(** ** Connected-component validator (lines 219-238) *)

(** Python's [range(a, b)]. *)
Definition range (a b : Z) : list Z :=
  map (fun k => a + Z.of_nat k) (seq 0 (Z.to_nat (b - a))).

(** [im == i]. *)
Definition eq_mask (im : intarray) (i : Z) : list bool :=
  map (fun v => v =? i) (ia_data im).

(** [im[l == j] = N], in place: a mask of another size is an [IndexError]. *)
Fixpoint assign_where (dt : int_dtype) (data l : list Z) (j N : Z) : list Z :=
  match data, l with
  | v :: data', c :: l' =>
      (if c =? j then cast dt N else v) :: assign_where dt data' l' j N
  | _, _ => data
  end.

Definition set_where (im : intarray) (l : list Z) (j N : Z) : result intarray :=
  if Nat.eqb (length l) (length (ia_data im))
  then Ok (mkInt (ia_dtype im) (ia_shape im)
                 (assign_where (ia_dtype im) (ia_data im) l j N))
  else Raise IndexError.

(** The state of the loop of [relabel]: the variables [im], [N] and [mx],
    and the labels [i] the loop body has run for so far, oldest first. *)
Record relabel_state : Set := mkState {
  st_im : intarray;
  st_N : Z;
  st_mx : Z;
  st_visited : list Z
}.

Section Relabel.

(** [scipy.ndimage.label]: from the shape and the mask, the component id
    of every pixel (0 outside the mask) and the number of components. *)
Variable label : list nat -> list bool -> list Z * Z.

(** Lines 235-237. *)
Fixpoint relabel_split (js : list Z) (l : list Z) (im : intarray) (N : Z)
  : result (intarray * Z) :=
  match js with
  | [] => Ok (im, N)
  | j :: js' =>
      let N := N + 1 in
      im <- set_where im l j N ;;
      relabel_split js' l im N
  end.

(** Lines 230-237, one iteration of the outer loop. *)
Definition relabel_body (i : Z) (st : relabel_state) : result relabel_state :=
  let im := st_im st in
  let N := st_N st in
  let mx := st_mx st in
  let '(l, n) := label (ia_shape im) (eq_mask im i) in
  '(im, mx) <-
    (if N + n - 1 >? mx
     then '(im, _) <- _conv_type im (N + n - 1) ;;
          Ok (im, snd (_get_min_max (ia_dtype im)))
     else Ok (im, mx)) ;;
  '(im, N) <- relabel_split (range 2 (n + 1)) l im N ;;
  Ok (mkState im N mx (st_visited st ++ [i])).

Fixpoint relabel_loop (labels : list Z) (st : relabel_state) : result relabel_state :=
  match labels with
  | [] => Ok st
  | i :: rest => st <- relabel_body i st ;; relabel_loop rest st
  end.

(** [relabel], with the labels visited by the loop next to its result.
    [range(1, N+1)] is evaluated once, when the loop is entered. *)
Definition relabel_run (im : ndarray) : result relabel_state :=
  '(im, N) <- consecutively_number im ;;
  let mx := snd (_get_min_max (ia_dtype im)) in
  relabel_loop (range 1 (N + 1)) (mkState im N mx []).

Definition relabel (im : ndarray) : result (intarray * Z) :=
  st <- relabel_run im ;; Ok (st_im st, st_N st).

End Relabel.

(** *** A connected-components routine for examples

    Components of a mask of at most two dimensions under 4-neighbour
    adjacency, numbered in scan order of their first pixel. *)

Definition neighbours (w size p : nat) : list nat :=
  (if Nat.leb w p then [p - w] else [])%nat
  ++ (if Nat.ltb (p + w) size then [p + w] else [])%nat
  ++ (if Nat.eqb (p mod w) 0 then [] else [p - 1])%nat
  ++ (if Nat.eqb (S p mod w) 0 || negb (Nat.ltb (S p) size) then [] else [S p])%nat.

Definition spread (w : nat) (mask : list bool) (c : Z) (lab : list Z) : list Z :=
  map (fun p =>
         if nth p mask false && (nth p lab 0 =? 0)
            && existsb (fun q => nth q lab 0 =? c) (neighbours w (length mask) p)
         then c else nth p lab 0)
      (seq 0 (length mask)).

Definition flood (w : nat) (mask : list bool) (c : Z) (lab : list Z) : list Z :=
  fold_right (fun _ acc => spread w mask c acc) lab (seq 0 (length mask)).

Definition set_nth (p : nat) (c : Z) (lab : list Z) : list Z :=
  firstn p lab ++ c :: skipn (S p) lab.

Definition label4 (shape : list nat) (mask : list bool) : list Z * Z :=
  let w := last shape 1%nat in
  fold_left
    (fun '(lab, n) p =>
       if nth p mask false && (nth p lab 0 =? 0)
       then (flood w mask (n + 1) (set_nth p (n + 1) lab), n + 1)
       else (lab, n))
    (seq 0 (length mask))
    (map (fun _ => 0) mask, 0).

(** A 5 x 5 image with label 1 in two opposite corners only. *)
Definition im_corners : ndarray :=
  IntArray (mkInt IM_BYTE [5; 5]%nat
              [1; 0; 0; 0; 0;
               0; 0; 0; 0; 0;
               0; 0; 0; 0; 0;
               0; 0; 0; 0; 0;
               0; 0; 0; 0; 1]).

(** Two labels, each one connected region. *)
Definition im_blocks : ndarray :=
  IntArray (mkInt IM_USHORT [3; 4]%nat
              [7; 7; 0; 9;
               7; 0; 0; 9;
               0; 0; 9; 9]).

(** ** Floating-point values with NaN and infinities *)

(** What a pixel of an [IM_FLOAT] or [IM_DOUBLE] array, or a Python [float],
    can hold.  The functions below only compare such values, so rounding
    plays no part. *)
Inductive fval : Set :=
| NaN
| NegInf
| Finite (q : Qc)
| PosInf.

Definition is_nan (v : fval) : bool :=
  match v with
  | NaN => true
  | _ => false
  end.

(** [a < b]: false as soon as one side is NaN. *)
Definition fval_ltb (a b : fval) : bool :=
  match a, b with
  | NaN, _ | _, NaN => false
  | _, NegInf => false
  | NegInf, _ => true
  | PosInf, _ => false
  | Finite _, PosInf => true
  | Finite p, Finite q => Qcltb p q
  end.

(** [a == b]: false as soon as one side is NaN. *)
Definition fval_eqb (a b : fval) : bool :=
  match a, b with
  | NegInf, NegInf | PosInf, PosInf => true
  | Finite p, Finite q => match Qccompare p q with Eq => true | _ => false end
  | _, _ => false
  end.

(** [a <= b], which is also [b >= a]. *)
Definition fval_leb (a b : fval) : bool := fval_ltb a b || fval_eqb a b.

Definition fval_neg (v : fval) : fval :=
  match v with
  | NaN => NaN
  | NegInf => PosInf
  | Finite q => Finite (- q)%Qc
  | PosInf => NegInf
  end.

(** ** Value range of a floating-point image (lines 52-56) *)

(** [ndarray.min] and [ndarray.max] step by step: a NaN on either side is
    the result. *)
Definition fval_min2 (a b : fval) : fval :=
  if is_nan a then a else if is_nan b then b else if fval_ltb b a then b else a.
Definition fval_max2 (a b : fval) : fval :=
  if is_nan a then a else if is_nan b then b else if fval_ltb a b then b else a.

(** [_get_min_max] on an array of element type [IM_FLOAT] or [IM_DOUBLE]:
    the smallest and largest pixel when [mn < 0.0 or mx > 1.0], else the
    nominal range of [_min_max_values].  [min] of an array without elements
    is a [ValueError]. *)
Definition _get_min_max_float (data : list fval) : result (fval * fval) :=
  match data with
  | [] => Raise (ValueError "zero-size array to reduction operation minimum which has no identity")
  | x :: xs =>
      let mn := fold_left fval_min2 xs x in
      let mx := fold_left fval_max2 xs x in
      Ok (if fval_ltb mn (Finite (Q2Qc 0)) || fval_ltb (Finite (Q2Qc 1)) mx then (mn, mx)
          else (Finite (Q2Qc 0), Finite (Q2Qc 1)))
  end.

(** ** Histogram matcher (lines 174-207) *)

(** [histeq] is modelled as it runs on NumPy from version 1.10 on, where
    [x == None] on an array compares element by element and the result of a
    floating-point ufunc is not cast into an integer [out] array. *)

(** A target histogram given by the caller as an array: its number of
    dimensions and its elements. *)
Record hist : Set := mkHist {
  h_ndim : nat;
  h_counts : list Z
}.

(** [histeq] raises one exception the functions above do not. *)
Inductive histeq_exn : Set :=
| Plain (e : exn)
| TypeError.

Inductive outcome (A : Type) : Type :=
| Returned (a : A)
| Raised (e : histeq_exn).
Arguments Returned {A} a.
Arguments Raised {A} e.

Definition and_then {A B} (o : outcome A) (k : A -> outcome B) : outcome B :=
  match o with
  | Returned a => k a
  | Raised e => Raised e
  end.

Definition lift {A} (r : result A) : outcome A :=
  match r with
  | Ok a => Returned a
  | Raise e => Raised (Plain e)
  end.

Notation "x <~ c ;; k" := (and_then c (fun x => k))
  (at level 61, c at next level, right associativity).
Notation "' p <~ c ;; k" := (and_then c (fun p => k))
  (at level 61, p pattern, c at next level, right associativity).

(** The truth value of an array, as [if] takes it.  That of an array
    without elements is [False] up to NumPy 2.1 and an error from NumPy 2.2
    on: [empty_raises] tells which. *)
Definition array_truth (empty_raises : bool) (elements : list bool) : result bool :=
  match elements with
  | [] =>
      if empty_raises
      then Raise (ValueError "The truth value of an empty array is ambiguous. Use `array.size > 0` to check that an array is not empty.")
      else Ok false
  | [b] => Ok b
  | _ => Raise (ValueError "The truth value of an array with more than one element is ambiguous. Use a.any() or a.all()")
  end.

(** Line 184, [tile(float(im.size)/nbins, nbins)]: the division fails for
    [nbins = 0] and [tile] refuses a negative count. *)
Definition uniform_target (nbins : Z) : result Z :=
  if nbins =? 0 then Raise ZeroDivisionError
  else if nbins <? 0 then Raise (ValueError "repeats may not contain negative values.")
  else Ok nbins.

(** Lines 182-189: the number of bins of the target histogram.  An [hgram]
    that is an array is compared with [None] element by element (no element
    is equal to it) and [if] takes the truth value of the result. *)
Definition histeq_nbins (empty_raises : bool) (nbins : option Z) (hgram : option hist)
  : result Z :=
  match hgram with
  | None =>
      let nbins := match nbins with None => 64 | Some n => n end in
      uniform_target nbins
  | Some h =>
      is_none <- array_truth empty_raises (map (fun _ => false) (h_counts h)) ;;
      if is_none then
        let nbins := match nbins with None => 64 | Some n => n end in
        uniform_target nbins
      else
        match nbins with
        | Some _ => Raise (ValueError "Cannot use both nbins and hgram in histeq")
        | None =>
            if negb (Nat.eqb (h_ndim h) 1) then Raise (ValueError "hgram must be a vector")
            else
              let nbins := len (h_counts h) in
              (* [sum] of an array without elements is the Python integer 0 *)
              if nbins =? 0 then Raise ZeroDivisionError else Ok nbins
        end
  end.

(** [ndarray.view(dtype=d)] between integer types of one width: the bits
    of every element are kept and read as a value of type [d]. *)
Definition reinterpret (d : int_dtype) (v : Z) : Z :=
  match dtype_kind d with
  | KSigned => (v + 2 ^ (bits d - 1)) mod 2 ^ bits d - 2 ^ (bits d - 1)
  | _ => v mod 2 ^ bits d
  end.

Definition view (a : intarray) (d : int_dtype) : intarray :=
  mkInt d (ia_shape a) (map (reinterpret d) (ia_data a)).

(** Lines 190-192: the array the histograms are computed from. *)
Definition histeq_source (im : intarray) : intarray :=
  match _signed2unsigned (ia_dtype im) with
  | Some u => view im u
  | None => im
  end.

(** [histogram(im, 256, range=(mn, hi))] on an image of integer type (line
    195): the function tests the ends of [range] with [isfinite], which has
    no loop for a Python integer beyond 64 bits. *)
Definition histogram_range (hi : Z) : outcome unit :=
  if 2 ^ 64 <=? hi then Raised TypeError else Returned tt.

(** [mx/(nbins-1.0)] for a Python integer [mx] (line 204). *)
Definition table_step (nbins : Z) : outcome unit :=
  if nbins - 1 =? 0 then Raised (Plain ZeroDivisionError) else Returned tt.

(** The result of a ufunc on floats is cast into an [out] array of element
    type [d] under the rule [same_kind]: to a floating-point type it is
    allowed, to every integer type and to the boolean type it is refused. *)
Definition can_cast_float (d : dtype) : bool :=
  match d with
  | DFloat _ => true
  | _ => false
  end.

(** [x.round(out=empty(shape, dtype=d))] for an array [x] of floats (lines
    204 and 206); [rounded] holds the rounded values as elements of [d]. *)
Definition round_out {A} (d : dtype) (rounded : A) : outcome A :=
  if can_cast_float d then Returned rounded else Raised TypeError.

(** [T[idx]] for one integer index: negative indices count from the end. *)
Definition take {A} (T : list A) (default : A) (i : Z) : result A :=
  if (0 <=? i) && (i <? len T) then Ok (nth (Z.to_nat i) T default)
  else if (- len T <=? i) && (i <? 0) then Ok (nth (Z.to_nat (len T + i)) T default)
  else Raise IndexError.

Fixpoint take_all {A} (T : list A) (default : A) (idx : list Z) : result (list A) :=
  match idx with
  | [] => Ok []
  | i :: rest =>
      x <- take T default i ;; xs <- take_all T default rest ;; Ok (x :: xs)
  end.

Section Histeq.

(** Which NumPy runs the code: see [array_truth]. *)
Variable empty_raises : bool.

(** The floating-point arithmetic of lines 195-206 stays abstract: the
    table [err.argmin(0)*(mx/(nbins-1.0))] of line 204 before it is rounded,
    the scaled pixels [im*(255.0/mx)] of line 206 before they are rounded,
    and rounding to an integer. *)
Variable table : ndarray -> Z -> option hist -> list Qc.
Variable scaled : ndarray -> list Qc.
Variable rint : Qc -> Z.

Definition histeq (im : ndarray) (nbins : option Z) (hgram : option hist)
  : outcome ndarray :=
  if negb (is_image_besides_rgb24 im) then Raised (Plain (ValueError "Unsupported image type"))
  else
    nbins <~ lift (histeq_nbins empty_raises nbins hgram) ;;
    match im with
    | IntArray a =>
        let orig_dtype := ia_dtype a in
        let a := histeq_source a in
        let '(mn, mx) := _get_min_max (ia_dtype a) in
        _ <~ histogram_range (mx + 1) ;;
        _ <~ table_step nbins ;;
        T <~ round_out (DInt (ia_dtype a)) (map rint (table (IntArray a) nbins hgram)) ;;
        idx <~ (if mx =? 255 then Returned (ia_data a)
                else round_out (DInt IM_INT) (map rint (scaled (IntArray a)))) ;;
        out <~ lift (take_all T 0 idx) ;;
        Returned (IntArray (view (mkInt (ia_dtype a) (ia_shape a) out) orig_dtype))
    | FloatArray dt shape data =>
        ' (mn, mx) <~ lift (_get_min_max_float (map Finite data)) ;;
        T <~ round_out (DFloat dt)
               (map (fun q => Q2Qc (inject_Z (rint q))) (table im nbins hgram)) ;;
        if fval_eqb mx (Finite (Q2Qc 255))
        then (* [idx = im]: an array of floats is no index *)
          Raised (Plain IndexError)
        else
          idx <~ round_out (DInt IM_INT) (map rint (scaled im)) ;;
          out <~ lift (take_all T (Q2Qc 0) idx) ;;
          Returned (FloatArray dt shape out)
    | _ => Raised (Plain (ValueError "Unsupported image type"))
    end.

End Histeq.

(** *** Stand-ins for the floating-point arithmetic, for examples *)

Definition flat_table (im : ndarray) (nbins : Z) (hgram : option hist) : list Qc :=
  repeat (Q2Qc 0) 256.

Definition unscaled (im : ndarray) : list Qc :=
  match im with
  | IntArray a => map (fun v => Q2Qc (inject_Z v)) (ia_data a)
  | FloatArray _ _ data => data
  | _ => []
  end.

Definition round_down (q : Qc) : Z := (Qnum q / Zpos (Qden q))%Z.

(** ** Sample images *)

Definition im_5_7 : ndarray := IntArray (mkInt IM_BYTE [1; 2]%nat [5; 7]).
Definition im_dense : ndarray := IntArray (mkInt IM_USHORT [2; 3]%nat [0; 2; 1; 3; 3; 2]).
Definition im_neg : ndarray := IntArray (mkInt IM_SHORT [1; 3]%nat [4; -2; 0]).
Definition im_rgb : ndarray :=
  RGBArray [2; 2]%nat [(9, 0, 0); (0, 0, 0); (0, 3, 1); (9, 0, 0)]%N.
Definition im_bytes_rgb : ndarray :=
  IntArray (mkInt IM_BYTE [1; 2; 3]%nat [7; 7; 7; 0; 0; 1]).
Definition im_float : ndarray :=
  FloatArray IM_FLOAT [1; 3]%nat [Q2Qc (1 # 2); Q2Qc 2; Q2Qc (1 # 2)].

Definition im_binary : ndarray := IntArray (mkInt IM_USHORT [2; 2]%nat [9; 0; 9; 9]).

Definition im_sbyte : intarray := mkInt IM_SBYTE [1; 3]%nat [-1; 5; 100].
Definition im_short : intarray := mkInt IM_SHORT_BE [1; 2]%nat [-2; 300].
Definition hgram_2d : hist := mkHist 2 [1; 2; 3; 4].

(** ** Thresholding (lines 145-152) *)

(** [bw] on an image of integer or boolean type with an integer threshold:
    [im >= threshold] for a positive threshold, else [im < -threshold]. *)
Definition bw (im : list Z) (threshold : Z) : list bool :=
  if threshold >? 0 then map (fun v => v >=? threshold) im
  else map (fun v => v <? - threshold) im.

(** [bw] on an image of floating-point type with a Python [float] as
    threshold.  The sign test is made on the Python value; for the
    comparison with the pixels NumPy converts the threshold to the element
    type of the image: [cast]. *)
Definition bw_float (cast : fval -> fval) (im : list fval) (threshold : fval)
  : list bool :=
  if fval_ltb (Finite (Q2Qc 0)) threshold
  then map (fun v => fval_leb (cast threshold) v) im
  else map (fun v => fval_ltb v (cast (fval_neg threshold))) im.

(** A value lies in the range of an integer element type. *)
Definition in_range (d : int_dtype) (v : Z) : Prop :=
  fst (_get_min_max d) <= v <= snd (_get_min_max d).

(** ** Rectangles (lines 63-86) *)

Module Rectangle.

(** The class keeps the tuple [(t, l, b, r)]; the bounds are inclusive. *)
Record t : Set := new { rect : Z * Z * Z * Z }.

Definition T (s : t) : Z := let '(a, _, _, _) := rect s in a.
Definition L (s : t) : Z := let '(_, a, _, _) := rect s in a.
Definition B (s : t) : Z := let '(_, _, a, _) := rect s in a.
Definition R (s : t) : Z := let '(_, _, _, a) := rect s in a.
Definition Y (s : t) : Z := T s.
Definition X (s : t) : Z := L s.
Definition H (s : t) : Z := B s - T s.
Definition W (s : t) : Z := R s - L s.

Definition make (top left bottom right : Z) : t := new (top, left, bottom, right).

End Rectangle.

(** ** Two-dimensional integer images *)

(** An array of shape [(h, w)], its elements in row-major order. *)
Record image2 : Set := mkImage2 {
  i2_dtype : int_dtype;
  i2_h : nat;
  i2_w : nat;
  i2_data : list Z
}.

(** [im[i, j]] for indices within the array. *)
Definition pixel (im : image2) (i j : nat) : Z :=
  nth (i * i2_w im + j) (i2_data im) 0.

(** The elements of an [h] by [w] array whose element [(i, j)] is [f i j]. *)
Definition build (h w : nat) (f : nat -> nat -> Z) : list Z :=
  flat_map (fun i => map (f i) (seq 0 w)) (seq 0 h).

Definition well_formed (im : image2) : Prop :=
  length (i2_data im) = (i2_h im * i2_w im)%nat.

(** [all(im[i,:] == bg)] and [all(im[:,j] == bg)]. *)
Definition row_all (im : image2) (bg : Z) (i : nat) : bool :=
  forallb (fun j => pixel im i j =? bg) (seq 0 (i2_w im)).

Definition col_all (im : image2) (bg : Z) (j : nat) : bool :=
  forallb (fun i => pixel im i j =? bg) (seq 0 (i2_h im)).

(** ** Foreground area (lines 88-103) *)

(** [while t < limit and solid(t): t += 1]; the loop runs at most [fuel]
    times, which is enough when [fuel] is the length of the axis. *)
Fixpoint scan_up (fuel : nat) (limit : Z) (solid : Z -> bool) (t : Z) : Z :=
  match fuel with
  | O => t
  | S fuel' =>
      if (t <? limit) && solid t then scan_up fuel' limit solid (t + 1) else t
  end.

(** [while b > limit and solid(b): b -= 1]. *)
Fixpoint scan_down (fuel : nat) (limit : Z) (solid : Z -> bool) (b : Z) : Z :=
  match fuel with
  | O => b
  | S fuel' =>
      if (b >? limit) && solid b then scan_down fuel' limit solid (b - 1) else b
  end.

(** Lines 92-98: the background colour, given or read off a solid strip
    along an edge; [None] when no strip is solid. *)
Definition find_background (im : image2) (bg : option Z) : result (option Z) :=
  match bg with
  | Some c => Ok (Some c)
  | None =>
      if Nat.eqb (i2_h im) 0 || Nat.eqb (i2_w im) 0 then Raise IndexError
      else
        let first := pixel im 0 0 in
        let last_row := (i2_h im - 1)%nat in
        let last_col := (i2_w im - 1)%nat in
        let last := pixel im last_row last_col in
        if row_all im first 0 || col_all im first 0 then Ok (Some first)
        else if row_all im last last_row || col_all im last last_col
             then Ok (Some last)
             else Ok None
  end.

Definition get_foreground_area (im : image2) (bg : option Z)
  : result Rectangle.t :=
  let h := Z.of_nat (i2_h im) in
  let w := Z.of_nat (i2_w im) in
  bg <- find_background im bg ;;
  match bg with
  | None => Ok (Rectangle.make 0 0 (h - 1) (w - 1))
  | Some bg =>
      let rows := fun i => row_all im bg (Z.to_nat i) in
      let cols := fun j => col_all im bg (Z.to_nat j) in
      let t := scan_up (i2_h im) (h - 1) rows 0 in
      let b := scan_down (i2_h im) t rows (h - 1) in
      let l := scan_up (i2_w im) (w - 1) cols 0 in
      let r := scan_down (i2_w im) l cols (w - 1) in
      Ok (Rectangle.make t l b r)
  end.

(** ** Cropping and padding (lines 126-138) *)

(** Where a bound [x] of a slice falls on an axis of length [n]: negative
    bounds count from the end, and bounds are clipped to the axis. *)
Definition slice_index (n x : Z) : Z :=
  if x <? 0 then Z.max (x + n) 0 else Z.min x n.

(** [im[r0:r1, c0:c1]]. *)
Definition slice2 (im : image2) (r0 r1 c0 c1 : Z) : image2 :=
  let h := Z.of_nat (i2_h im) in
  let w := Z.of_nat (i2_w im) in
  let rs := slice_index h r0 in
  let cs := slice_index w c0 in
  let nrows := Z.to_nat (slice_index h r1 - rs) in
  let ncols := Z.to_nat (slice_index w c1 - cs) in
  mkImage2 (i2_dtype im) nrows ncols
    (build nrows ncols (fun i j => pixel im (Z.to_nat rs + i) (Z.to_nat cs + j))).

Definition crop (im : image2) (rect : option Rectangle.t) : result image2 :=
  rect <- match rect with
          | None => get_foreground_area im None
          | Some rect => Ok rect
          end ;;
  Ok (slice2 im (Rectangle.T rect) (Rectangle.B rect + 1)
             (Rectangle.L rect) (Rectangle.R rect + 1)).

(** [pad]: the output has [shp[0]+b+t] rows and [shp[0]+r+l] columns (the
    number of rows of the input enters both); the input is assigned to the
    window [t:t+shp[0], l:l+shp[1]], an axis of length 1 being repeated, and
    a window of another size is a [ValueError] (messages not modelled). *)
Definition pad (im : image2) (t l b r : Z) : result image2 :=
  let h := Z.of_nat (i2_h im) in
  let w := Z.of_nat (i2_w im) in
  let oh := h + b + t in
  let ow := h + r + l in
  if (oh <? 0) || (ow <? 0)
  then Raise (ValueError "negative dimensions are not allowed")
  else
    let rs := slice_index oh t in
    let cs := slice_index ow l in
    let nrows := Z.to_nat (slice_index oh (t + h) - rs) in
    let ncols := Z.to_nat (slice_index ow (l + w) - cs) in
    if (Nat.eqb nrows (i2_h im) || Nat.eqb (i2_h im) 1)
       && (Nat.eqb ncols (i2_w im) || Nat.eqb (i2_w im) 1)
    then
      Ok (mkImage2 (i2_dtype im) (Z.to_nat oh) (Z.to_nat ow)
            (build (Z.to_nat oh) (Z.to_nat ow)
               (fun i j =>
                  if (Z.to_nat rs <=? i)%nat && (i <? Z.to_nat rs + nrows)%nat
                     && (Z.to_nat cs <=? j)%nat && (j <? Z.to_nat cs + ncols)%nat
                  then pixel im
                         (if Nat.eqb (i2_h im) 1 then 0 else i - Z.to_nat rs)
                         (if Nat.eqb (i2_w im) 1 then 0 else j - Z.to_nat cs)
                  else 0)))
    else Raise (ValueError "could not broadcast input array").

Definition im2_framed : image2 :=
  mkImage2 IM_BYTE 4 5
    [0; 0; 0; 0; 0;
     0; 3; 0; 4; 0;
     0; 0; 5; 0; 0;
     0; 0; 0; 0; 0].

Definition im2_small : image2 := mkImage2 IM_BYTE 2 2 [1; 2; 3; 4].

(** ** Further notions used to state properties of the renumbering engine *)

(** The pixels of an image as [consecutively_number] reads them. *)
Definition npixels (im : ndarray) : nat :=
  if is_rgb24 im then length (snd (view_rgb24_struct im))
  else
    match im with
    | IntArray a => length (ia_data a)
    | FloatArray _ _ data => length data
    | RGBArray _ data => length data
    | OtherArray _ => 0%nat
    end.

(** Pixel [p] of the input is below pixel [q], in the order of the element
    type (records of an RGB image by field). *)
Definition pixel_ltb (im : ndarray) (p q : nat) : bool :=
  if is_rgb24 im then
    let data := snd (view_rgb24_struct im) in
    rgb_ltb (nth p data rgb_zero) (nth q data rgb_zero)
  else
    match im with
    | IntArray a => nth p (ia_data a) 0 <? nth q (ia_data a) 0
    | FloatArray _ _ data => Qcltb (nth p data (Q2Qc 0)) (nth q data (Q2Qc 0))
    | _ => false
    end.

(** The shape [consecutively_number] gives its result. *)
Definition renumbered_shape (im : ndarray) : list nat :=
  if is_rgb24 im then squeeze (fst (view_rgb24_struct im)) else shape_of im.

(** [out] holds, for the pixels [data], their ranks in a sorted table that
    starts with [zero] and otherwise lists the values of [data]. *)
Definition ranked {V} (ltb : V -> V -> bool) (zero : V) (data : list V)
    (shape : list nat) (out : intarray) (N : Z) : Prop :=
  exists rest,
    StronglySorted (lt ltb) (zero :: rest)
    /\ (forall x, In x data -> In x (zero :: rest))
    /\ (forall x, In x rest -> In x data)
    /\ data <> []
    /\ N = len (zero :: rest) - 1
    /\ narrowest (ia_dtype out) N
    /\ ia_shape out = shape
    /\ ia_data out = map (fun x => Z.of_nat (searchsorted ltb (zero :: rest) x)) data.

(** The type [_conv_type] picks for [n], spelled out. *)
Definition dtype_for (n : Z) : int_dtype :=
  if n <=? 1 then IM_BIT
  else if n <=? 255 then IM_BYTE
  else if n <=? 65535 then IM_USHORT
  else if n <=? 4294967295 then IM_UINT
  else IM_ULONG.

(** ** Further notions used to state properties of [relabel] *)

(** What [relabel] relies on from the connected-components routine: the
    array of component ids has one entry per pixel of the mask and is 0
    outside the mask. *)
Definition label_contract (label : list nat -> list bool -> list Z * Z) : Prop :=
  forall shape mask,
    length (fst (label shape mask)) = length mask
    /\ forall p, nth p mask false = false -> nth p (fst (label shape mask)) 0 = 0.

(** The number of labels the splitting adds for the labels [labels] of the
    renumbered image [im0]: for each, one less than its number of components. *)
Definition extra_labels (label : list nat -> list bool -> list Z * Z)
    (im0 : intarray) (labels : list Z) : Z :=
  fold_right
    (fun i acc => Z.max 0 (snd (label (ia_shape im0) (eq_mask im0 i)) - 1) + acc)
    0 labels.

(** The invariant of the loop of [relabel], started on [(im0, N0)]. *)
Definition relabel_inv (label : list nat -> list bool -> list Z * Z)
    (im0 : intarray) (N0 : Z) (st : relabel_state) : Prop :=
  ia_shape (st_im st) = ia_shape im0
  /\ length (ia_data (st_im st)) = length (ia_data im0)
  /\ In (ia_dtype (st_im st)) _unsigned_types
  /\ st_mx st = dtype_max (ia_dtype (st_im st))
  /\ st_N st <= st_mx st
  /\ st_N st = N0 + extra_labels label im0 (st_visited st)
  /\ forall p, (p < length (ia_data im0))%nat ->
       nth p (ia_data (st_im st)) 0 = nth p (ia_data im0) 0
       \/ (In (nth p (ia_data im0) 0) (st_visited st)
           /\ N0 < nth p (ia_data (st_im st)) 0 <= st_N st).

(** * Proofs *)

(** ** Sample runs *)

Example cn_5_7 :
  consecutively_number im_5_7 = Ok (mkInt IM_BYTE [1; 2]%nat [1; 2], 2).
Proof. reflexivity. Qed.

Example cn_dense :
  consecutively_number im_dense
  = Ok (mkInt IM_BYTE [2; 3]%nat [0; 2; 1; 3; 3; 2], 3).
Proof. reflexivity. Qed.

Example cn_rgb :
  consecutively_number im_rgb = Ok (mkInt IM_BYTE [2; 2]%nat [2; 0; 1; 2], 2).
Proof. reflexivity. Qed.

Example cn_bytes_rgb :
  consecutively_number im_bytes_rgb = Ok (mkInt IM_BYTE [2]%nat [2; 1], 2).
Proof. reflexivity. Qed.

Example cn_float :
  consecutively_number im_float = Ok (mkInt IM_BYTE [1; 3]%nat [1; 2; 1], 2).
Proof. vm_compute. reflexivity. Qed.

Example label4_L :
  label4 [3; 3]%nat [true; false; true; true; false; false; true; true; false]
  = ([1; 0; 2; 1; 0; 0; 1; 1; 0], 2).
Proof. reflexivity. Qed.

Example relabel_corners :
  relabel_run label4 im_corners
  = Ok (mkState (mkInt IM_BYTE [5; 5]%nat
                   [1; 0; 0; 0; 0;
                    0; 0; 0; 0; 0;
                    0; 0; 0; 0; 0;
                    0; 0; 0; 0; 0;
                    0; 0; 0; 0; 2]) 2 255 [1]).
Proof. reflexivity. Qed.

Example relabel_blocks :
  relabel label4 im_blocks
  = Ok (mkInt IM_BYTE [3; 4]%nat [1; 1; 0; 2; 1; 0; 0; 2; 0; 0; 2; 2], 2).
Proof. reflexivity. Qed.

(** ** Element types *)

Lemma int_dtype_eqb_eq a b : int_dtype_eqb a b = true <-> a = b.
Proof. destruct a, b; simpl; split; intro H; try reflexivity; discriminate H. Qed.

Lemma int_dtype_eqb_refl a : int_dtype_eqb a a = true.
Proof. now apply int_dtype_eqb_eq. Qed.

(** ** Sorted tables and ranks *)

Section Ranking.

Context {V : Type}.
Variable ltb : V -> V -> bool.

Local Abbreviation lt := (@lt V ltb).
Local Abbreviation uinsert := (@uinsert V ltb).
Local Abbreviation unique := (@unique V ltb).
Local Abbreviation searchsorted := (@searchsorted V ltb).

Hypothesis ltb_irrefl : forall a, ltb a a = false.
Hypothesis ltb_trans : forall a b c, lt a b -> lt b c -> lt a c.
Hypothesis ltb_total : forall a b, ltb a b = false -> ltb b a = false -> a = b.

Lemma In_uinsert x y l : In y (uinsert x l) <-> y = x \/ In y l.
Proof.
  induction l as [|z zs IH]; simpl.
  - intuition.
  - destruct (ltb x z) eqn:Hxz; simpl; [intuition|].
    destruct (ltb z x) eqn:Hzx; simpl.
    + rewrite IH. intuition.
    + assert (x = z) by now apply ltb_total. subst. intuition.
Qed.

Lemma In_unique x l : In x (unique l) <-> In x l.
Proof.
  induction l as [|y ys IH]; simpl; [tauto|].
  rewrite In_uinsert, IH. intuition.
Qed.

Lemma sorted_uinsert x l :
  StronglySorted lt l -> StronglySorted lt (uinsert x l).
Proof.
  induction 1 as [|z zs Hs IH Hall]; simpl.
  - repeat constructor.
  - destruct (ltb x z) eqn:Hxz.
    + constructor; [now constructor|].
      constructor; [exact Hxz|].
      eapply Forall_impl; [|exact Hall]. intros a Ha. now apply ltb_trans with z.
    + destruct (ltb z x) eqn:Hzx; [|now constructor].
      constructor; [exact IH|].
      apply Forall_forall. intros a Ha. apply In_uinsert in Ha as [->|Ha]; [exact Hzx|].
      rewrite Forall_forall in Hall. now apply Hall.
Qed.

Lemma sorted_unique l : StronglySorted lt (unique l).
Proof.
  induction l; simpl; [constructor | now apply sorted_uinsert].
Qed.

(** The rank of the element at position [i] of a sorted list is [i]. *)
Lemma searchsorted_nth values i d :
  StronglySorted lt values -> (i < length values)%nat ->
  searchsorted values (nth i values d) = i.
Proof.
  intros Hs. revert i. induction Hs as [|y ys Hs IH Hall]; intros i Hi; simpl in *.
  - lia.
  - destruct i as [|i].
    + now rewrite ltb_irrefl.
    + rewrite Forall_forall in Hall.
      assert (Hlt : lt y (nth i ys d)) by (apply Hall, nth_In; lia).
      unfold lt in Hlt. rewrite Hlt. f_equal. apply IH. lia.
Qed.

Lemma searchsorted_In values x d :
  StronglySorted lt values -> In x values ->
  (searchsorted values x < length values)%nat
  /\ nth (searchsorted values x) values d = x.
Proof.
  intros Hs Hin. destruct (In_nth _ _ d Hin) as (i & Hi & Hx).
  rewrite <- Hx, (searchsorted_nth values i d Hs Hi). auto.
Qed.

(** On a sorted list the rank is 0 exactly for the head. *)
Lemma searchsorted_zero v0 rest x :
  StronglySorted lt (v0 :: rest) -> In x (v0 :: rest) ->
  (searchsorted (v0 :: rest) x = 0%nat <-> x = v0).
Proof.
  intros Hs Hin. split.
  - intros H0. destruct (searchsorted_In (v0 :: rest) x v0 Hs Hin) as [_ Hn].
    rewrite H0 in Hn. simpl in Hn. auto.
  - intros ->. simpl. now rewrite ltb_irrefl.
Qed.

(** What the rank lookup of the general path produces, when the sorted
    value table starts with the value [zero] and otherwise holds exactly
    the values of the pixels. *)
Section Ranks.
Variables (zero : V) (rest : list V) (data : list V).
Let values := zero :: rest.
Let ranks := map (fun x => Z.of_nat (searchsorted values x)) data.
Let n := Z.of_nat (length values) - 1.

Hypothesis Hsorted : StronglySorted lt values.
Hypothesis Hdata : forall x, In x data -> In x values.
Hypothesis Hrest : forall x, In x rest -> In x data.

Lemma ranks_bounded k : In k ranks -> 0 <= k <= n.
Proof.
  unfold ranks, n. rewrite in_map_iff. intros (x & <- & Hx).
  destruct (searchsorted_In values x zero Hsorted (Hdata x Hx)) as [Hlt _].
  lia.
Qed.

Lemma ranks_cover k : 1 <= k <= n -> In k ranks.
Proof.
  unfold ranks, n. intros Hk. apply in_map_iff.
  exists (nth (Z.to_nat k) values zero). split.
  - rewrite searchsorted_nth by (auto; lia). lia.
  - apply Hrest. replace (Z.to_nat k) with (S (Z.to_nat (k - 1))) by lia.
    simpl. apply nth_In. unfold values in Hk. simpl length in Hk. lia.
Qed.

Lemma ranks_zero_mask :
  map (Z.eqb 0) ranks = map (fun x => Nat.eqb (searchsorted values x) 0) data.
Proof.
  unfold ranks. rewrite map_map. apply map_ext. intros x.
  destruct (searchsorted values x); reflexivity.
Qed.

Lemma rank_zero_iff x : In x data ->
  (Z.of_nat (searchsorted values x) = 0 <-> x = zero).
Proof.
  intros Hx. rewrite <- (searchsorted_zero zero rest x Hsorted (Hdata x Hx)).
  fold values. split; lia.
Qed.

Lemma ranks_zero : In 0 ranks <-> In zero data.
Proof.
  unfold ranks. rewrite in_map_iff. split.
  - intros (x & H0 & Hx). apply rank_zero_iff in H0; auto. now subst.
  - intros Hz. exists zero. split; [|exact Hz]. now apply rank_zero_iff.
Qed.

Lemma ranks_length : length ranks = length data.
Proof. unfold ranks. apply length_map. Qed.
End Ranks.

End Ranking.

(** ** The orders are strict total orders *)

Lemma Zltb_strict_total : strict_total Z.ltb.
Proof.
  split; unfold lt.
  - apply Z.ltb_irrefl.
  - intros a b c. rewrite !Z.ltb_lt. lia.
  - intros a b. rewrite !Z.ltb_ge. lia.
Qed.

Lemma Qcltb_lt a b : Qcltb a b = true <-> (a < b)%Qc.
Proof.
  unfold Qcltb. rewrite Qclt_alt. destruct (Qccompare a b); split; congruence.
Qed.

Lemma Qcltb_strict_total : strict_total Qcltb.
Proof.
  split; unfold lt.
  - intros a. unfold Qcltb. now rewrite (proj1 (Qceq_alt a a) eq_refl).
  - intros a b c. rewrite !Qcltb_lt. apply Qclt_trans.
  - intros a b Hab Hba. destruct (Qccompare a b) eqn:Hc.
    + now apply Qceq_alt.
    + unfold Qcltb in Hab. now rewrite Hc in Hab.
    + apply Qcgt_alt in Hc. apply Qcltb_lt in Hc. congruence.
Qed.

Lemma Qc_eq_bool_iff a b : Qc_eq_bool a b = true <-> a = b.
Proof.
  split; [apply Qc_eq_bool_correct|].
  intros ->. unfold Qc_eq_bool. destruct (Qc_eq_dec b b); congruence.
Qed.

Lemma rgb_eqb_iff a b : rgb_eqb a b = true <-> a = b.
Proof.
  destruct a as [[r1 g1] b1], b as [[r2 g2] b2]. unfold rgb_eqb.
  rewrite !andb_true_iff, !N.eqb_eq. split.
  - intros [[-> ->] ->]. reflexivity.
  - intros [= -> -> ->]. auto.
Qed.

Lemma rgb_ltb_lt r1 g1 b1 r2 g2 b2 :
  rgb_ltb (r1, g1, b1) (r2, g2, b2) = true
  <-> (r1 < r2 \/ r1 = r2 /\ (g1 < g2 \/ g1 = g2 /\ b1 < b2))%N.
Proof.
  unfold rgb_ltb.
  rewrite !orb_true_iff, !andb_true_iff, !orb_true_iff, !andb_true_iff.
  rewrite !N.ltb_lt, !N.eqb_eq. tauto.
Qed.

Lemma rgb_ltb_strict_total : strict_total rgb_ltb.
Proof.
  split; unfold lt.
  - intros [[r g] b]. apply not_true_is_false. rewrite rgb_ltb_lt. lia.
  - intros [[r1 g1] b1] [[r2 g2] b2] [[r3 g3] b3]. rewrite !rgb_ltb_lt. lia.
  - intros [[r1 g1] b1] [[r2 g2] b2] H1 H2.
    apply not_true_iff_false in H1, H2. rewrite rgb_ltb_lt in H1, H2.
    assert (r1 = r2 /\ g1 = g2 /\ b1 = b2) as (-> & -> & ->) by lia. reflexivity.
Qed.

Lemma rgb_zero_least p : rgb_ltb p rgb_zero = false.
Proof.
  destruct p as [[r g] b]. apply not_true_is_false.
  unfold rgb_zero. rewrite rgb_ltb_lt. lia.
Qed.

(** ** The value table of the renumbering engine *)

Section Table.

Context {V : Type} (ltb : V -> V -> bool) (eqb : V -> V -> bool) (zero : V).
Hypothesis Hord : strict_total ltb.
Hypothesis eqb_iff : forall a b, eqb a b = true <-> a = b.

Lemma table_spec data v0 tl :
  unique ltb data = v0 :: tl -> ltb v0 zero = false ->
  exists rest,
    table eqb zero v0 (v0 :: tl) = zero :: rest
    /\ StronglySorted (lt ltb) (zero :: rest)
    /\ (forall x, In x data -> In x (zero :: rest))
    /\ (forall x, In x rest -> In x data).
Proof.
  destruct Hord as [Hirr Htr Htot].
  intros Hu Hnn.
  assert (Hs : StronglySorted (lt ltb) (v0 :: tl))
    by (rewrite <- Hu; now apply sorted_unique).
  assert (Hin : forall x, In x (v0 :: tl) <-> In x data)
    by (intros x; rewrite <- Hu; now apply In_unique).
  unfold table, insert0. destruct (eqb v0 zero) eqn:He; simpl negb; cbv iota.
  - apply eqb_iff in He. subst v0. exists tl. repeat split; auto.
    + intros x Hx. now apply Hin.
    + intros x Hx. apply Hin. now right.
  - assert (H0 : lt ltb zero v0).
    { unfold lt. destruct (ltb zero v0) eqn:Hz; [reflexivity|].
      assert (v0 = zero) by now apply Htot.
      apply eqb_iff in H. congruence. }
    exists (v0 :: tl). repeat split.
    + constructor; [exact Hs|]. constructor; [exact H0|].
      inversion Hs as [|? ? _ Hall]; subst.
      eapply Forall_impl; [|exact Hall]. intros a Ha. now apply Htr with v0.
    + intros x Hx. right. now apply Hin.
    + intros x Hx. now apply Hin.
Qed.
End Table.

(** ** Facts about type narrowing *)

Lemma _conv_type_from_Ok types im n out N :
  _conv_type_from types im n = Ok (out, N) ->
  N = n /\ exists pre d post,
    types = pre ++ d :: post
    /\ out = astype im d
    /\ n <= snd (_get_min_max d)
    /\ Forall (fun d' => snd (_get_min_max d') < n) pre.
Proof.
  induction types as [|d rest IH]; simpl; [discriminate|].
  destruct (n <=? snd (_get_min_max d)) eqn:Hle.
  - intros [= <- <-]. split; [reflexivity|].
    exists [], d, rest. repeat split; auto. now apply Z.leb_le.
  - intros H. destruct (IH H) as (-> & pre & d' & post & -> & -> & Hfit & Hpre).
    split; [reflexivity|]. exists (d :: pre), d', post. repeat split; auto.
    constructor; [|exact Hpre]. now apply Z.leb_gt.
Qed.

Lemma _conv_type_from_Raise types im n e :
  _conv_type_from types im n = Raise e ->
  e = OverflowError /\ Forall (fun d => snd (_get_min_max d) < n) types.
Proof.
  induction types as [|d rest IH]; simpl.
  - intros [= <-]. auto.
  - destruct (n <=? snd (_get_min_max d)) eqn:Hle; [discriminate|].
    intros H. destruct (IH H) as [-> Hall]. split; [reflexivity|].
    constructor; [now apply Z.leb_gt | exact Hall].
Qed.

Lemma cast_id d v n :
  In d _unsigned_types -> n <= snd (_get_min_max d) -> 0 <= v <= n -> cast d v = v.
Proof.
  intros Hd Hn Hv. unfold _unsigned_types in Hd. simpl in Hd.
  destruct Hd as [<-|[<-|[<-|[<-|[<-|[]]]]]]; unfold cast; simpl in *;
    try (apply Z.mod_small; lia).
  destruct (v =? 0) eqn:E; [apply Z.eqb_eq in E | apply Z.eqb_neq in E]; lia.
Qed.

Lemma map_cast_id d n l :
  In d _unsigned_types -> n <= snd (_get_min_max d) ->
  (forall v, In v l -> 0 <= v <= n) -> map (cast d) l = l.
Proof.
  intros Hd Hn Hl. rewrite <- (map_id l) at 2. apply map_ext_in.
  intros v Hv. apply (cast_id d v n); auto.
Qed.

(** Narrowing an array whose values lie in [0..n] changes no value. *)
Lemma _conv_type_values a n out N :
  (forall v, In v (ia_data a) -> 0 <= v <= n) ->
  _conv_type a n = Ok (out, N) ->
  N = n /\ ia_data out = ia_data a /\ ia_shape out = ia_shape a
  /\ In (ia_dtype out) _unsigned_types /\ n <= snd (_get_min_max (ia_dtype out)).
Proof.
  intros Hv H. apply _conv_type_from_Ok in H.
  destruct H as (-> & pre & d & post & Ht & -> & Hfit & _).
  assert (Hd : In d _unsigned_types) by (rewrite Ht; apply in_elt).
  simpl. repeat split; auto. now apply map_cast_id with n.
Qed.

Lemma _conv_type_from_dtype_irrelevant types d1 d2 shape data n :
  _conv_type_from types (mkInt d1 shape data) n
  = _conv_type_from types (mkInt d2 shape data) n.
Proof.
  induction types as [|d rest IH]; simpl; [reflexivity|].
  now rewrite IH.
Qed.

(** ** Ranks computed from the table *)

Section TableRanks.
Context {V : Type} (ltb : V -> V -> bool) (eqb : V -> V -> bool) (zero : V).
Hypothesis Hord : strict_total ltb.
Hypothesis eqb_iff : forall a b, eqb a b = true <-> a = b.

Variables (data : list V) (v0 : V) (tl : list V).
Hypothesis Hu : unique ltb data = v0 :: tl.
Hypothesis Hnn : ltb v0 zero = false.

Let values := table eqb zero v0 (v0 :: tl).
Let ranks := map (fun x => Z.of_nat (searchsorted ltb values x)) data.

Lemma table_ranks :
  0 <= len values - 1
  /\ (forall k, In k ranks -> 0 <= k <= len values - 1)
  /\ (forall k, 1 <= k <= len values - 1 -> In k ranks)
  /\ map (fun k => k =? 0) ranks = map (fun x => eqb x zero) data.
Proof.
  destruct (table_spec ltb eqb zero Hord eqb_iff data v0 tl Hu Hnn)
    as (rest & Ht & Hs & Hd & Hr).
  destruct Hord as [Hirr Htr Htot].
  unfold ranks, values, len. rewrite Ht. repeat split.
  - simpl length. lia.
  - apply (ranks_bounded ltb Hirr Htot zero rest data Hs Hd k H).
  - apply (ranks_bounded ltb Hirr Htot zero rest data Hs Hd k H).
  - intros k Hk. apply (ranks_cover ltb Hirr zero rest data Hs Hr k Hk).
  - rewrite map_map. apply map_ext_in. intros x Hx.
    pose proof (rank_zero_iff ltb Hirr Htot zero rest data Hs Hd x Hx) as Hz.
    destruct (eqb x zero) eqn:He.
    + apply Z.eqb_eq, Hz. now apply eqb_iff.
    + apply Z.eqb_neq. intros H0. apply Hz in H0. apply eqb_iff in H0. congruence.
Qed.
End TableRanks.

(** ** Dense tables of integers *)

Lemma sorted_step (l : list Z) i :
  StronglySorted (lt Z.ltb) l -> (S i < length l)%nat ->
  nth i l 0 < nth (S i) l 0.
Proof.
  intros Hs. revert i. induction Hs as [|y ys Hs IH Hall]; intros i Hi; simpl in Hi.
  - lia.
  - destruct i as [|i].
    + simpl. rewrite Forall_forall in Hall. apply Z.ltb_lt, Hall, nth_In. lia.
    + change (nth i ys 0 < nth (S i) ys 0). apply IH. lia.
Qed.

Lemma sorted_gap (l : list Z) i k :
  StronglySorted (lt Z.ltb) l -> (i + k < length l)%nat ->
  nth i l 0 + Z.of_nat k <= nth (i + k) l 0.
Proof.
  intros Hs. induction k as [|k IH]; intros Hk.
  - rewrite Nat.add_0_r. lia.
  - replace (i + S k)%nat with (S (i + k)) in * by lia.
    pose proof (sorted_step l (i + k) Hs Hk). specialize (IH ltac:(lia)). lia.
Qed.

Lemma last_nth (l : list Z) : last l 0 = nth (length l - 1) l 0.
Proof.
  induction l as [|a [|b l] IH]; try reflexivity.
  change (last (a :: b :: l) 0) with (last (b :: l) 0).
  rewrite IH. simpl. now rewrite Nat.sub_0_r.
Qed.

(** A strictly increasing table that starts at 0 and ends at its length
    minus one lists 0, 1, 2, ... *)
Lemma dense_nth rest i :
  StronglySorted (lt Z.ltb) (0 :: rest) ->
  last (0 :: rest) 0 = len (0 :: rest) - 1 ->
  (i < length (0%Z :: rest))%nat ->
  nth i (0 :: rest) 0 = Z.of_nat i.
Proof.
  intros Hs Hlast Hi. rewrite last_nth in Hlast. unfold len in Hlast.
  set (l := 0 :: rest) in *.
  pose proof (sorted_gap l 0 i Hs ltac:(lia)) as H1.
  pose proof (sorted_gap l i (length l - 1 - i) Hs ltac:(lia)) as H2.
  replace (i + (length l - 1 - i))%nat with (length l - 1)%nat in H2 by lia.
  simpl nth in H1 at 1. simpl Nat.add in H1.
  lia.
Qed.

Lemma dense_rank rest x :
  StronglySorted (lt Z.ltb) (0 :: rest) ->
  last (0 :: rest) 0 = len (0 :: rest) - 1 ->
  In x (0 :: rest) ->
  Z.of_nat (searchsorted Z.ltb (0 :: rest) x) = x.
Proof.
  intros Hs Hlast Hx.
  destruct (In_nth _ _ 0 Hx) as (i & Hi & <-).
  rewrite (searchsorted_nth Z.ltb Z.ltb_irrefl _ i 0 Hs Hi).
  symmetry. now apply dense_nth.
Qed.

(** ** The shortcut of line 266 against the rank lookup *)

Lemma in_integer_types d : in_dtypes d _integer_types = true.
Proof. destruct d; reflexivity. Qed.

Lemma float_never_fast dt b :
  negb (dtype_eqb (DFloat dt) (DFloat IM_FLOAT))
  && negb (dtype_eqb (DFloat dt) (DFloat IM_DOUBLE)) && b = false.
Proof. destruct dt; reflexivity. Qed.

Lemma Z_eqb_iff a b : (a =? b) = true <-> a = b.
Proof. apply Z.eqb_eq. Qed.

(** When the table is dense the rank of every pixel is the pixel itself. *)
Lemma dense_ranks_id data v0 tl :
  unique Z.ltb data = v0 :: tl -> (v0 <? 0) = false ->
  let values := table Z.eqb 0 v0 (v0 :: tl) in
  last values 0 = len values - 1 ->
  map (fun x => Z.of_nat (searchsorted Z.ltb values x)) data = data.
Proof.
  intros Hu Hnn values Hlast.
  destruct (table_spec Z.ltb Z.eqb 0 Zltb_strict_total Z_eqb_iff data v0 tl Hu Hnn)
    as (rest & Ht & Hs & Hd & _).
  unfold values in *. rewrite Ht in *.
  rewrite <- (map_id data) at 2. apply map_ext_in. intros x Hx.
  apply dense_rank; auto.
Qed.

Lemma fast_path_is_general im :
  consecutively_number im = consecutively_number_general im.
Proof.
  unfold consecutively_number, consecutively_number_general.
  destruct (is_rgb24 im); [reflexivity|].
  destruct (is_image_besides_rgb24 im); [|reflexivity].
  destruct im as [a|dt shape data|shape data|shape]; try reflexivity.
  - destruct (unique Z.ltb (ia_data a)) as [|v0 tl] eqn:Hu; [reflexivity|].
    destruct (v0 <? 0) eqn:Hnn; [reflexivity|].
    fold (table Z.eqb 0 v0 (v0 :: tl)).
    set (values := table Z.eqb 0 v0 (v0 :: tl)).
    destruct (_ && _ && (last values 0 =? len values - 1)) eqn:Hfast; [|reflexivity].
    apply andb_true_iff in Hfast as [_ Hlast]. apply Z.eqb_eq in Hlast.
    unfold rank_array.
    pose proof (dense_ranks_id (ia_data a) v0 tl Hu Hnn Hlast) as Hid.
    cbv zeta in Hid. fold values in Hid. rewrite Hid.
    destruct a as [d s l]. apply _conv_type_from_dtype_irrelevant.
  - destruct (unique Qcltb data) as [|v0 tl]; [reflexivity|].
    destruct (Qcltb v0 (Q2Qc 0)); [reflexivity|].
    simpl dtype_of. now rewrite float_never_fast.
Qed.

(** ** What the renumbering engine returns *)

Lemma unsigned_types_ascending :
  map dtype_max _unsigned_types = [1; 255; 65535; 4294967295; 18446744073709551615].
Proof. reflexivity. Qed.

Ltac dtype_max_values :=
  change (snd (_get_min_max IM_BIT)) with 1 in *;
  change (snd (_get_min_max IM_BYTE)) with 255 in *;
  change (snd (_get_min_max IM_USHORT)) with 65535 in *;
  change (snd (_get_min_max IM_UINT)) with 4294967295 in *;
  change (snd (_get_min_max IM_ULONG)) with 18446744073709551615 in *.

Lemma _conv_type_narrowest im n out N :
  _conv_type im n = Ok (out, N) ->
  N = n /\ out = astype im (ia_dtype out) /\ narrowest (ia_dtype out) n.
Proof.
  unfold _conv_type, _unsigned_types, _conv_type_from. dtype_max_values.
  repeat match goal with
         | |- context [n <=? ?m] => destruct (Z.leb_spec n m)
         end;
    intros [= <- <-]; (split; [reflexivity|]); (split; [reflexivity|]);
    unfold narrowest, dtype_max; simpl ia_dtype; dtype_max_values;
    (split; [simpl; tauto|]); (split; [assumption|]);
    intros d' Hd' Hn'; simpl in Hd';
    decompose [or] Hd'; subst; try contradiction; dtype_max_values; lia.
Qed.

Section RenumberCore.
Context {V : Type} (ltb : V -> V -> bool) (eqb : V -> V -> bool) (zero : V).
Hypothesis Hord : strict_total ltb.
Hypothesis eqb_iff : forall a b, eqb a b = true <-> a = b.

(** The general path on the pixels [data], once the smallest value [v0]
    is known not to lie below [zero]. *)
Lemma renumber_core data v0 tl shape out N :
  unique ltb data = v0 :: tl -> ltb v0 zero = false ->
  let values := table eqb zero v0 (v0 :: tl) in
  _conv_type (rank_array ltb values shape data) (len values - 1) = Ok (out, N) ->
  N = len values - 1 /\ 0 <= N
  /\ narrowest (ia_dtype out) N
  /\ ia_shape out = shape
  /\ ia_data out = map (fun x => Z.of_nat (searchsorted ltb values x)) data
  /\ (forall k, In k (ia_data out) -> 0 <= k <= N)
  /\ (forall k, 1 <= k <= N -> In k (ia_data out))
  /\ map (fun k => k =? 0) (ia_data out) = map (fun x => eqb x zero) data.
Proof.
  intros Hu Hnn values Hc.
  destruct (table_ranks ltb eqb zero Hord eqb_iff data v0 tl Hu Hnn)
    as (Hn & Hb & Hcov & Hmask).
  fold values in Hn, Hb, Hcov, Hmask.
  pose proof (_conv_type_narrowest _ _ _ _ Hc) as (HN & _ & Hnarrow).
  apply _conv_type_values in Hc; [|exact Hb].
  destruct Hc as (_ & Hdata & Hshape & _ & _). simpl in Hdata, Hshape.
  subst N. rewrite Hdata.
  split; [reflexivity|]. split; [exact Hn|]. split; [exact Hnarrow|].
  split; [exact Hshape|]. split; [reflexivity|]. split; [exact Hb|].
  split; [exact Hcov | exact Hmask].
Qed.

(** The smallest value of the table lies below every other pixel. *)
Lemma unique_head_least data v0 tl x :
  unique ltb data = v0 :: tl -> In x data -> x = v0 \/ lt ltb v0 x.
Proof.
  destruct Hord as [Hirr Htr Htot]. intros Hu Hx.
  assert (Hs : StronglySorted (lt ltb) (v0 :: tl))
    by (rewrite <- Hu; now apply sorted_unique).
  assert (Hin : In x (v0 :: tl)) by (rewrite <- Hu; now apply In_unique).
  destruct Hin as [->|Hin]; [now left | right].
  inversion Hs as [|? ? _ Hall]; subst. rewrite Forall_forall in Hall. auto.
Qed.

Lemma unique_nonempty data x : In x data -> unique ltb data <> [].
Proof.
  destruct Hord as [Hirr Htr Htot]. intros Hx Hu.
  apply (In_unique ltb Htot) in Hx. rewrite Hu in Hx. contradiction.
Qed.
End RenumberCore.

Lemma consecutively_number_renumbered im out N :
  consecutively_number im = Ok (out, N) -> renumbered im out N.
Proof.
  rewrite fast_path_is_general. unfold consecutively_number_general.
  destruct (is_rgb24 im) eqn:Hrgb.
  - destruct (view_rgb24_struct im) as [shape data] eqn:Hview.
    destruct (unique rgb_ltb data) as [|v0 tl] eqn:Hu; [discriminate|].
    intros H.
    apply (renumber_core rgb_ltb rgb_eqb rgb_zero rgb_ltb_strict_total rgb_eqb_iff
             data v0 tl _ out N Hu (rgb_zero_least v0)) in H.
    destruct H as (_ & ? & ? & _ & _ & ? & ? & ?).
      constructor; auto; unfold zero_mask; rewrite Hrgb; try rewrite Hview; auto.
  - destruct (is_image_besides_rgb24 im); [|discriminate].
    destruct im as [a|dt shape data|shape data|shape]; try discriminate.
    + destruct (unique Z.ltb (ia_data a)) as [|v0 tl] eqn:Hu; [discriminate|].
      destruct (v0 <? 0) eqn:Hnn; [discriminate|].
      intros H.
      apply (renumber_core Z.ltb Z.eqb 0 Zltb_strict_total Z_eqb_iff
               (ia_data a) v0 tl _ out N Hu Hnn) in H.
      destruct H as (_ & ? & ? & _ & _ & ? & ? & ?).
      constructor; auto; unfold zero_mask; rewrite Hrgb; try rewrite Hview; auto.
    + destruct (unique Qcltb data) as [|v0 tl] eqn:Hu; [discriminate|].
      destruct (Qcltb v0 (Q2Qc 0)) eqn:Hnn; [discriminate|].
      intros H.
      apply (renumber_core Qcltb Qc_eq_bool (Q2Qc 0) Qcltb_strict_total Qc_eq_bool_iff
               data v0 tl _ out N Hu Hnn) in H.
      destruct H as (_ & ? & ? & _ & _ & ? & ? & ?).
      constructor; auto; unfold zero_mask; rewrite Hrgb; try rewrite Hview; auto.
Qed.

(** ** Type narrowing and the boolean type *)

(** C5: [_conv_type] walks the enumeration [_unsigned_types], whose maxima
    ascend, and returns the array in the first (hence smallest) type whose
    maximum is at least [n], together with [n]; when no enumerated type can
    hold [n] it raises [OverflowError]. *)
Theorem conv_type_smallest_fit (im : intarray) (n : Z) :
  StronglySorted Z.lt (map dtype_max _unsigned_types)
  /\ match _conv_type im n with
     | Ok (out, N) =>
         N = n /\ out = astype im (ia_dtype out) /\ narrowest (ia_dtype out) n
     | Raise e =>
         e = OverflowError /\ forall d, In d _unsigned_types -> dtype_max d < n
     end.
Proof.
  split.
  - rewrite unsigned_types_ascending.
    repeat (constructor; [|repeat (constructor; try lia)]). constructor.
  - destruct (_conv_type im n) as [[out N]|e] eqn:H.
    + now apply _conv_type_narrowest.
    + apply _conv_type_from_Raise in H as [-> Hall]. split; [reflexivity|].
      now apply Forall_forall.
Qed.

Lemma narrowest_bit d n : narrowest d n -> n <= 1 -> d = IM_BIT.
Proof.
  intros (Hd & _ & Hmin) Hn.
  specialize (Hmin IM_BIT ltac:(simpl; tauto) Hn).
  simpl in Hd. unfold dtype_max in Hmin.
  destruct Hd as [<-|[<-|[<-|[<-|[<-|[]]]]]]; simpl in Hmin; try reflexivity; lia.
Qed.

(** C10: when the value table of [consecutively_number] has at most two
    entries (the returned max label is at most 1) the returned array has the
    boolean element type [IM_BIT], which is not an unsigned integer type. *)
Theorem small_table_gives_boolean (im : ndarray) (out : intarray) (N : Z) :
  consecutively_number im = Ok (out, N) -> N <= 1 ->
  ia_dtype out = IM_BIT
  /\ dtype_kind (ia_dtype out) = KBool
  /\ dtype_kind (ia_dtype out) <> KUnsigned
  /\ hd IM_BYTE _unsigned_types = IM_BIT.
Proof.
  intros H HN. apply consecutively_number_renumbered in H.
  rewrite (narrowest_bit _ _ (rn_narrowest _ _ _ H) HN).
  repeat split. discriminate.
Qed.

Lemma small_table_gives_boolean_witness :
  consecutively_number im_binary = Ok (mkInt IM_BIT [2; 2]%nat [1; 0; 1; 1], 1)
  /\ ia_dtype (mkInt IM_BIT [2; 2]%nat [1; 0; 1; 1]) = IM_BIT.
Proof.
  split; [reflexivity|].
  apply (small_table_gives_boolean im_binary (mkInt IM_BIT [2; 2]%nat [1; 0; 1; 1]) 1);
    [reflexivity | lia].
Defined.

(** ** Negative values *)

Lemma plain_not_rgb im : is_image_besides_rgb24 im = true -> is_rgb24 im = false.
Proof.
  unfold is_image_besides_rgb24, is_rgb24.
  destruct (Nat.eqb (ndim im) 2) eqn:Hd; [|discriminate].
  apply Nat.eqb_eq in Hd. rewrite Hd. simpl.
  destruct (dtype_of im); simpl; intros H; try discriminate; reflexivity.
Qed.

(** C9: a plain image holding a negative value makes [consecutively_number]
    raise the error of line 259; no renumbered image is returned. *)
Theorem negative_values_rejected (im : ndarray) :
  is_image_besides_rgb24 im = true -> has_negative im = true ->
  consecutively_number im = Raise (ValueError "negative numbers").
Proof.
  intros Hplain Hneg. unfold consecutively_number.
  rewrite (plain_not_rgb im Hplain), Hplain.
  destruct im as [a|dt shape data|shape data|shape]; try discriminate.
  - simpl in Hneg. apply existsb_exists in Hneg as (v & Hv & Hlt).
    destruct (unique Z.ltb (ia_data a)) as [|v0 tl] eqn:Hu.
    + now apply (unique_nonempty Z.ltb Zltb_strict_total) in Hv.
    + destruct (unique_head_least Z.ltb Zltb_strict_total _ _ _ _ Hu Hv) as [->|H0].
      * now rewrite Hlt.
      * unfold lt in H0. apply Z.ltb_lt in H0, Hlt.
        now rewrite (proj2 (Z.ltb_lt v0 0)) by lia.
  - simpl in Hneg. apply existsb_exists in Hneg as (v & Hv & Hlt).
    destruct (unique Qcltb data) as [|v0 tl] eqn:Hu.
    + now apply (unique_nonempty Qcltb Qcltb_strict_total) in Hv.
    + destruct (unique_head_least Qcltb Qcltb_strict_total _ _ _ _ Hu Hv) as [->|H0].
      * now rewrite Hlt.
      * now rewrite (st_trans _ Qcltb_strict_total v0 v (Q2Qc 0) H0 Hlt).
Qed.

Lemma negative_values_rejected_witness :
  consecutively_number im_neg = Raise (ValueError "negative numbers").
Proof.
  apply negative_values_rejected; reflexivity.
Defined.

(** ** Zero is kept for the background *)

(** C3: in the array returned by [consecutively_number] a pixel is 0 exactly
    where the pixel of the input is 0, respectively [(0, 0, 0)]: the two
    arrays have the same number of pixels and the same mask of zeros. *)
Theorem zero_maps_to_zero_only (im : ndarray) (out : intarray) (N : Z) :
  consecutively_number im = Ok (out, N) ->
  length (ia_data out) = length (zero_mask im)
  /\ forall p, (p < length (ia_data out))%nat ->
       (nth p (ia_data out) 0 = 0 <-> nth p (zero_mask im) false = true).
Proof.
  intros H. apply consecutively_number_renumbered in H.
  pose proof (rn_zero _ _ _ H) as Hmask.
  split.
  - rewrite <- Hmask. now rewrite length_map.
  - intros p Hp. rewrite <- Hmask.
    rewrite (nth_indep _ false (0 =? 0)) by (now rewrite length_map).
    rewrite (map_nth (fun k => k =? 0) (ia_data out) 0 p).
    symmetry. apply Z.eqb_eq.
Qed.

Lemma zero_maps_to_zero_only_witness :
  length [2; 0; 1; 2] = length (zero_mask im_rgb)
  /\ forall p, (p < length [2; 0; 1; 2])%nat ->
       (nth p [2; 0; 1; 2] 0 = 0 <-> nth p (zero_mask im_rgb) false = true).
Proof.
  apply (zero_maps_to_zero_only im_rgb (mkInt IM_BYTE [2; 2]%nat [2; 0; 1; 2]) 2).
  reflexivity.
Defined.

(** ** The values of the renumbered image *)

Lemma In_zero_mask (l : list Z) : In 0 l <-> In true (map (fun k => k =? 0) l).
Proof.
  rewrite in_map_iff. split.
  - intros H. exists 0. auto.
  - intros (k & Hk & Hin). apply Z.eqb_eq in Hk. now subst.
Qed.

(** C1, as the code has it: the values of the array returned by
    [consecutively_number] all lie in [0..N], every value of [1..N] occurs,
    and 0 occurs exactly when the input has a pixel equal to 0 (respectively
    [(0, 0, 0)]).  So the distinct values are [{0, ..., N}] when 0 occurs in
    the input and [{1, ..., N}] when it does not. *)
Theorem renumbered_values_dense (im : ndarray) (out : intarray) (N : Z) :
  consecutively_number im = Ok (out, N) ->
  (forall v, In v (ia_data out) -> 0 <= v <= N)
  /\ (forall v, 1 <= v <= N -> In v (ia_data out))
  /\ (In 0 (ia_data out) <-> In true (zero_mask im)).
Proof.
  intros H. apply consecutively_number_renumbered in H.
  destruct H as [_ _ Hb Hc Hz].
  split; [exact Hb|]. split; [exact Hc|]. rewrite <- Hz. apply In_zero_mask.
Qed.

Lemma renumbered_values_dense_witness :
  (forall v, In v [1; 2] -> 0 <= v <= 2)
  /\ (forall v, 1 <= v <= 2 -> In v [1; 2])
  /\ (In 0 [1; 2] <-> In true (zero_mask im_5_7)).
Proof.
  apply (renumbered_values_dense im_5_7 (mkInt IM_BYTE [1; 2]%nat [1; 2]) 2).
  reflexivity.
Defined.

(** C1 as stated fails: on the one-row image [5 7], where 0 does not occur,
    the output is [1 2] with max label 2, and 0 is not among its values. *)
Lemma renumbered_values_counterexample :
  ~ (forall out N, consecutively_number im_5_7 = Ok (out, N) ->
       forall v, In v (ia_data out) <-> 0 <= v <= N).
Proof.
  intros H. specialize (H _ _ cn_5_7 0). simpl in H.
  destruct (proj2 H ltac:(lia)) as [E|[E|[]]]; discriminate E.
Qed.

(** ** The shortcut is taken on dense images *)

(** A strictly increasing table from 0 that holds, with each value, every
    smaller natural number, lists 0, 1, 2, ... *)
Lemma closed_nth rest i :
  StronglySorted (lt Z.ltb) (0 :: rest) ->
  (forall v u, In v (0 :: rest) -> 0 <= u <= v -> In u (0 :: rest)) ->
  (i < length (0%Z :: rest))%nat ->
  nth i (0 :: rest) 0 = Z.of_nat i.
Proof.
  intros Hs Hclosed. set (l := 0 :: rest) in *.
  induction i as [|i IH]; intros Hi; [reflexivity|].
  specialize (IH ltac:(lia)).
  pose proof (sorted_step l i Hs Hi) as Hstep.
  destruct (Z.eq_dec (nth (S i) l 0) (Z.of_nat (S i))) as [E|E]; [exact E|exfalso].
  assert (Hin : In (Z.of_nat (S i)) l).
  { apply (Hclosed (nth (S i) l 0)); [apply nth_In; lia | lia]. }
  destruct (In_nth _ _ 0 Hin) as (j & Hj & Hnj).
  destruct (Nat.lt_trichotomy j (S i)) as [Hlt|[->|Hgt]].
  - pose proof (sorted_gap l j (i - j) Hs ltac:(lia)) as Hg.
    replace (j + (i - j))%nat with i in Hg by lia. lia.
  - lia.
  - pose proof (sorted_gap l (S i) (j - S i) Hs ltac:(lia)) as Hg.
    replace (S i + (j - S i))%nat with j in Hg by lia. lia.
Qed.

Lemma closed_last rest n :
  StronglySorted (lt Z.ltb) (0 :: rest) ->
  (forall v, In v (0 :: rest) <-> 0 <= v <= n) ->
  last (0 :: rest) 0 = len (0 :: rest) - 1 /\ len (0 :: rest) - 1 = n.
Proof.
  intros Hs Hset. set (l := 0 :: rest) in *.
  assert (Hclosed : forall v u, In v l -> 0 <= u <= v -> In u l).
  { intros v u Hv Hu. apply Hset. apply Hset in Hv. lia. }
  assert (Hlen : (0 < length l)%nat) by (simpl; lia).
  assert (Hlast : last l 0 = len l - 1).
  { rewrite last_nth. unfold l at 2. rewrite closed_nth; auto; unfold len; fold l; lia. }
  split; [exact Hlast|].
  assert (Hn : In n l) by (apply Hset; pose proof (proj1 (Hset 0) (or_introl eq_refl)); lia).
  destruct (In_nth _ _ 0 Hn) as (j & Hj & Hnj).
  unfold l in Hnj. rewrite closed_nth in Hnj; auto.
  assert (Hl : In (last l 0) l) by (rewrite last_nth; apply nth_In; lia).
  apply Hset in Hl. unfold len in *. lia.
Qed.

(** C6: on a plain integer image with at least one pixel whose values,
    together with 0, are exactly [0..n], line 266 returns the input narrowed
    to the type for [n], and the rank lookup of line 268 would have returned
    the same pair. *)
Theorem fast_path_equals_rank_lookup (a : intarray) (n : Z) :
  is_image_besides_rgb24 (IntArray a) = true ->
  ia_data a <> [] ->
  (forall v, In v (0 :: ia_data a) <-> 0 <= v <= n) ->
  consecutively_number (IntArray a) = _conv_type a n
  /\ consecutively_number_general (IntArray a) = _conv_type a n.
Proof.
  intros Hplain Hne Hset.
  rewrite <- fast_path_is_general.
  assert (consecutively_number (IntArray a) = _conv_type a n); [|auto].
  unfold consecutively_number.
  rewrite (plain_not_rgb _ Hplain), Hplain.
  destruct (unique Z.ltb (ia_data a)) as [|v0 tl] eqn:Hu.
  { destruct (ia_data a) as [|x xs]; [congruence|].
    now apply (unique_nonempty Z.ltb Zltb_strict_total (x :: xs) x (or_introl eq_refl)) in Hu. }
  assert (Hnn : (v0 <? 0) = false).
  { apply Z.ltb_ge. apply (Hset v0). right.
    apply (In_unique Z.ltb (st_total _ Zltb_strict_total)). rewrite Hu. now left. }
  rewrite Hnn. fold (table Z.eqb 0 v0 (v0 :: tl)).
  destruct (table_spec Z.ltb Z.eqb 0 Zltb_strict_total Z_eqb_iff _ v0 tl Hu Hnn)
    as (rest & Ht & Hs & Hd & Hr).
  rewrite Ht.
  destruct (closed_last rest n Hs) as [Hlast Hlen].
  { intros v. rewrite <- Hset. simpl. split.
    - intros [->|Hv]; auto.
    - intros [->|Hv]; auto. apply (Hd v Hv). }
  rewrite Hlast, Hlen, Z.eqb_refl. reflexivity.
Qed.

Lemma fast_path_equals_rank_lookup_witness :
  consecutively_number im_dense
  = _conv_type (mkInt IM_USHORT [2; 3]%nat [0; 2; 1; 3; 3; 2]) 3
  /\ consecutively_number_general im_dense
     = _conv_type (mkInt IM_USHORT [2; 3]%nat [0; 2; 1; 3; 3; 2]) 3.
Proof.
  apply (fast_path_equals_rank_lookup (mkInt IM_USHORT [2; 3]%nat [0; 2; 1; 3; 3; 2]) 3).
  - reflexivity.
  - discriminate.
  - intros v. simpl. split.
    + intros H. decompose [or] H; subst; try lia; contradiction.
    + intros H.
      assert (v = 0 \/ v = 1 \/ v = 2 \/ v = 3) as [-> | [-> | [-> | ->]]] by lia; tauto.
Defined.

(** ** The loop of [relabel] *)

Lemma In_range a b i : In i (range a b) <-> a <= i < b.
Proof.
  unfold range. rewrite in_map_iff. split.
  - intros (k & <- & Hk). apply in_seq in Hk. lia.
  - intros Hi. exists (Z.to_nat (i - a)). split; [lia|]. apply in_seq. lia.
Qed.

Lemma NoDup_range a b : NoDup (range a b).
Proof.
  unfold range. generalize (Z.to_nat (b - a)) as m. generalize 0%nat as s.
  intros s m. revert s. induction m as [|m IH]; intros s; simpl; constructor.
  - rewrite in_map_iff. intros (k & Hk & Hin). apply in_seq in Hin. lia.
  - apply IH.
Qed.

Section RelabelFacts.

Variable label : list nat -> list bool -> list Z * Z.

Lemma relabel_split_N js l im N im' N' :
  relabel_split js l im N = Ok (im', N') -> N' = N + len js.
Proof.
  revert im N. induction js as [|j js IH]; intros im N; simpl.
  - intros [= _ <-]. unfold len. simpl. lia.
  - destruct (set_where im l j (N + 1)) as [im1|e]; simpl; [|discriminate].
    intros H. apply IH in H. unfold len in *. simpl length. lia.
Qed.

Lemma relabel_body_visits i st st' :
  relabel_body label i st = Ok st' ->
  st_visited st' = st_visited st ++ [i] /\ st_N st <= st_N st'.
Proof.
  unfold relabel_body.
  destruct (label (ia_shape (st_im st)) (eq_mask (st_im st) i)) as [l n].
  destruct (st_N st + n - 1 >? st_mx st).
  - destruct (_conv_type (st_im st) (st_N st + n - 1)) as [[im1 x]|e]; simpl; [|discriminate].
    destruct (relabel_split (range 2 (n + 1)) l im1 (st_N st)) as [[im2 N2]|e] eqn:Hs;
      simpl; [|discriminate].
    intros [= <-]. simpl. apply relabel_split_N in Hs. unfold len in Hs. split; [auto|lia].
  - simpl.
    destruct (relabel_split (range 2 (n + 1)) l (st_im st) (st_N st)) as [[im2 N2]|e] eqn:Hs;
      simpl; [|discriminate].
    intros [= <-]. simpl. apply relabel_split_N in Hs. unfold len in Hs. split; [auto|lia].
Qed.

Lemma relabel_loop_visits labels st st' :
  relabel_loop label labels st = Ok st' ->
  st_visited st' = st_visited st ++ labels /\ st_N st <= st_N st'.
Proof.
  revert st. induction labels as [|i rest IH]; intros st; simpl.
  - intros [= <-]. rewrite app_nil_r. split; [auto|lia].
  - destruct (relabel_body label i st) as [st1|e] eqn:Hb; simpl; [|discriminate].
    intros H. apply IH in H. apply relabel_body_visits in Hb.
    destruct H as [-> ?], Hb as [-> ?]. rewrite <- app_assoc. split; [auto|lia].
Qed.

(** C2, as the code has it: the loop of [relabel] runs once for each label
    of [1..N0], where [N0] is the max label given by [consecutively_number];
    the final max label is at least [N0], and the labels created by
    splitting (those above [N0]) are not visited. *)
Theorem relabel_visits_initial_labels (im : ndarray) (st : relabel_state) :
  relabel_run label im = Ok st ->
  exists im0 N0,
    consecutively_number im = Ok (im0, N0)
    /\ st_visited st = range 1 (N0 + 1)
    /\ NoDup (st_visited st)
    /\ (forall i, In i (st_visited st) <-> 1 <= i <= N0)
    /\ N0 <= st_N st.
Proof.
  unfold relabel_run.
  destruct (consecutively_number im) as [[im0 N0]|e]; simpl; [|discriminate].
  intros H. apply relabel_loop_visits in H. simpl in H. destruct H as [Hv HN].
  exists im0, N0. rewrite Hv.
  split; [reflexivity|]. split; [reflexivity|]. split; [apply NoDup_range|].
  split; [|exact HN].
  intros i. rewrite In_range. lia.
Qed.

End RelabelFacts.

Lemma relabel_visits_initial_labels_witness :
  exists im0 N0,
    consecutively_number im_corners = Ok (im0, N0)
    /\ [1] = range 1 (N0 + 1)
    /\ NoDup [1]
    /\ (forall i, In i [1] <-> 1 <= i <= N0)
    /\ N0 <= 2.
Proof.
  apply (relabel_visits_initial_labels label4 im_corners
           (mkState (mkInt IM_BYTE [5; 5]%nat
                       [1; 0; 0; 0; 0;
                        0; 0; 0; 0; 0;
                        0; 0; 0; 0; 0;
                        0; 0; 0; 0; 0;
                        0; 0; 0; 0; 2]) 2 255 [1])).
  reflexivity.
Defined.

(** C2 as stated fails: on the 5 x 5 image with label 1 in two opposite
    corners the final max label is 2, and the loop never runs for label 2. *)
Lemma relabel_visits_counterexample :
  ~ (forall st, relabel_run label4 im_corners = Ok st ->
       forall i, 1 <= i <= st_N st -> In i (st_visited st)).
Proof.
  intros H. specialize (H _ relabel_corners 2). simpl in H.
  destruct (H ltac:(lia)) as [E|[]]. discriminate E.
Qed.

(** ** Images whose labels are connected already *)

(** The result of [consecutively_number] on a plain integer image, seen as
    ranks in a sorted table that starts with 0. *)
Lemma consecutively_number_int a im0 N0 :
  is_rgb24 (IntArray a) = false ->
  consecutively_number (IntArray a) = Ok (im0, N0) ->
  exists rest,
    StronglySorted (lt Z.ltb) (0 :: rest)
    /\ (forall x, In x (ia_data a) -> In x (0 :: rest))
    /\ (forall x, In x rest -> In x (ia_data a))
    /\ N0 = len (0 :: rest) - 1
    /\ narrowest (ia_dtype im0) N0
    /\ ia_shape im0 = ia_shape a
    /\ ia_data im0
       = map (fun x => Z.of_nat (searchsorted Z.ltb (0 :: rest) x)) (ia_data a).
Proof.
  intros Hrgb. rewrite fast_path_is_general. unfold consecutively_number_general.
  rewrite Hrgb. destruct (is_image_besides_rgb24 (IntArray a)); [|discriminate].
  destruct (unique Z.ltb (ia_data a)) as [|v0 tl] eqn:Hu; [discriminate|].
  destruct (v0 <? 0) eqn:Hnn; [discriminate|].
  intros H.
  apply (renumber_core Z.ltb Z.eqb 0 Zltb_strict_total Z_eqb_iff
           (ia_data a) v0 tl _ im0 N0 Hu Hnn) in H.
  destruct (table_spec Z.ltb Z.eqb 0 Zltb_strict_total Z_eqb_iff _ v0 tl Hu Hnn)
    as (rest & Ht & Hs & Hd & Hr).
  rewrite Ht in H. destruct H as (HN & _ & Hnar & Hsh & Hdata & _).
  exists rest. repeat split; auto; apply Hnar.
Qed.

(** The mask of label [i] in the renumbered image is the mask of the
    [i]-th value of the table in the input. *)
Lemma rank_mask rest data i :
  StronglySorted (lt Z.ltb) (0 :: rest) ->
  (forall x, In x data -> In x (0 :: rest)) ->
  (Z.to_nat i < length (0%Z :: rest))%nat -> 0 <= i ->
  map (fun v => v =? i)
      (map (fun x => Z.of_nat (searchsorted Z.ltb (0 :: rest) x)) data)
  = map (fun x => x =? nth (Z.to_nat i) (0 :: rest) 0) data.
Proof.
  intros Hs Hd Hi Hi0. rewrite map_map. apply map_ext_in. intros x Hx.
  destruct (searchsorted_In Z.ltb Z.ltb_irrefl (st_total _ Zltb_strict_total)
              (0 :: rest) x 0 Hs (Hd x Hx)) as [Hlt Hnth].
  pose proof (searchsorted_nth Z.ltb Z.ltb_irrefl (0 :: rest) (Z.to_nat i) 0 Hs Hi) as Hr.
  destruct (x =? nth (Z.to_nat i) (0 :: rest) 0) eqn:E.
  - apply Z.eqb_eq in E. apply Z.eqb_eq. rewrite E, Hr. lia.
  - apply Z.eqb_neq in E. apply Z.eqb_neq. intros Hc. apply E.
    rewrite <- Hnth. f_equal. lia.
Qed.

Section RelabelStable.

Variable label : list nat -> list bool -> list Z * Z.

(** A label the routine reports as one component leaves the state alone. *)
Lemma relabel_body_single i im N mx visited :
  snd (label (ia_shape im) (eq_mask im i)) = 1 -> N <= mx ->
  relabel_body label i (mkState im N mx visited)
  = Ok (mkState im N mx (visited ++ [i])).
Proof.
  intros Hn Hmx. unfold relabel_body. simpl st_im. simpl st_N. simpl st_mx.
  destruct (label (ia_shape im) (eq_mask im i)) as [l n]. simpl in Hn. subst n.
  rewrite Z.gtb_ltb, (proj2 (Z.ltb_ge mx (N + 1 - 1))) by lia.
  reflexivity.
Qed.

Lemma relabel_loop_single labels im N mx visited :
  (forall i, In i labels -> snd (label (ia_shape im) (eq_mask im i)) = 1) ->
  N <= mx ->
  relabel_loop label labels (mkState im N mx visited)
  = Ok (mkState im N mx (visited ++ labels)).
Proof.
  intros Hall Hmx. revert visited.
  induction labels as [|i rest IH]; intros visited; simpl.
  - now rewrite app_nil_r.
  - rewrite relabel_body_single by (auto; apply Hall; now left). simpl.
    rewrite IH by (intros j Hj; apply Hall; now right).
    now rewrite <- app_assoc.
Qed.

(** C4: on a plain integer image in which the connected-components routine
    finds exactly one region for every nonzero label, [relabel] returns what
    [consecutively_number] returns: the same image and the same max label. *)
Theorem relabel_stable_on_connected (a : intarray) :
  is_rgb24 (IntArray a) = false ->
  (forall v, In v (ia_data a) -> v <> 0 ->
     snd (label (ia_shape a) (eq_mask a v)) = 1) ->
  relabel label (IntArray a) = consecutively_number (IntArray a).
Proof.
  intros Hrgb Hconn. unfold relabel, relabel_run.
  destruct (consecutively_number (IntArray a)) as [[im0 N0]|e] eqn:Hcn; [|reflexivity].
  destruct (consecutively_number_int a im0 N0 Hrgb Hcn)
    as (rest & Hs & Hd & Hr & HN & Hnar & Hsh & Hdata).
  simpl. rewrite relabel_loop_single; [reflexivity| |apply Hnar].
  intros i Hi. apply In_range in Hi.
  assert (Hlen : (Z.to_nat i < length (0%Z :: rest))%nat) by (unfold len in HN; lia).
  unfold eq_mask. rewrite Hsh, Hdata.
  rewrite (rank_mask rest (ia_data a) i Hs Hd Hlen) by lia.
  set (v := nth (Z.to_nat i) (0 :: rest) 0).
  assert (Hv : In v rest).
  { unfold v. replace (Z.to_nat i) with (S (Z.to_nat (i - 1))) by lia.
    simpl. apply nth_In. simpl in Hlen. lia. }
  apply Hconn; [now apply Hr|].
  inversion Hs as [|? ? _ Hall]; subst. rewrite Forall_forall in Hall.
  specialize (Hall v Hv). unfold lt in Hall. apply Z.ltb_lt in Hall. lia.
Qed.

End RelabelStable.

Lemma relabel_stable_on_connected_witness :
  relabel label4 im_blocks = consecutively_number im_blocks.
Proof.
  apply (relabel_stable_on_connected label4
           (mkInt IM_USHORT [3; 4]%nat [7; 7; 0; 9; 7; 0; 0; 9; 0; 0; 9; 9])).
  - reflexivity.
  - intros v Hin Hv. simpl in Hin.
    decompose [or] Hin; subst; try contradiction; try (now elim Hv); reflexivity.
Defined.

(** ** Histogram matcher *)

Lemma reinterpret_unsigned_bits u v i :
  dtype_kind u = KUnsigned -> 0 <= i < bits u ->
  Z.testbit (reinterpret u v) i = Z.testbit v i.
Proof.
  intros Hk Hi. unfold reinterpret. rewrite Hk.
  apply Z.mod_pow2_bits_low. lia.
Qed.

Lemma _signed2unsigned_counterpart d u :
  _signed2unsigned d = Some u ->
  dtype_kind d = KSigned /\ dtype_kind u = KUnsigned /\ bits u = bits d.
Proof.
  destruct d; simpl; intros [= <-]; auto.
Qed.

Lemma uniform_target_Ok n : 0 < n -> uniform_target n = Ok n.
Proof.
  intros Hn. unfold uniform_target.
  rewrite (proj2 (Z.eqb_neq n 0)), (proj2 (Z.ltb_ge n 0)) by lia. reflexivity.
Qed.





Example reinterpret_minus_one : reinterpret IM_BYTE (-1) = 255.
Proof. reflexivity. Qed.

Example histeq_source_sbyte :
  histeq_source im_sbyte = mkInt IM_BYTE [1; 3]%nat [255; 5; 100].
Proof. reflexivity. Qed.

Example histeq_short :
  histeq true flat_table unscaled round_down (IntArray im_short) None None
  = Raised TypeError.
Proof. reflexivity. Qed.

Example histeq_one_bin :
  histeq true flat_table unscaled round_down (IntArray im_short) (Some 1) None
  = Raised (Plain ZeroDivisionError).
Proof. reflexivity. Qed.

Example histeq_no_bin :
  histeq true flat_table unscaled round_down (IntArray im_short) (Some 0) None
  = Raised (Plain ZeroDivisionError).
Proof. reflexivity. Qed.

Example histeq_float :
  histeq true flat_table unscaled round_down im_float None None = Raised TypeError.
Proof. reflexivity. Qed.

Example histeq_float_255 :
  histeq true flat_table unscaled round_down
    (FloatArray IM_DOUBLE [1; 2]%nat [Q2Qc 0; Q2Qc 255]) None None
  = Raised (Plain IndexError).
Proof. reflexivity. Qed.

Example histeq_vector_target :
  histeq true flat_table unscaled round_down (IntArray im_short) None
    (Some (mkHist 1 [1; 2; 3; 4]))
  = Raised (Plain (ValueError "The truth value of an array with more than one element is ambiguous. Use a.any() or a.all()")).
Proof. reflexivity. Qed.

Example histeq_both_2d :
  histeq true flat_table unscaled round_down (IntArray im_short) (Some 16)
    (Some hgram_2d)
  = Raised (Plain (ValueError "The truth value of an array with more than one element is ambiguous. Use a.any() or a.all()")).
Proof. reflexivity. Qed.

Section HisteqFacts.

Variable empty_raises : bool.
Variable table : ndarray -> Z -> option hist -> list Qc.
Variable scaled : ndarray -> list Qc.
Variable rint : Qc -> Z.

Local Abbreviation run := (histeq empty_raises table scaled rint).

(** Whatever the image and the arguments, [histeq] raises: the rounding of
    line 204 is refused on an image of integer type, and on an image of
    floating-point type the indices of lines 205-207 are floats or are
    rounded into an array of integers. *)
Lemma histeq_raises im nbins hgram : exists e, run im nbins hgram = Raised e.
Proof.
  unfold histeq.
  destruct (negb (is_image_besides_rgb24 im)); [eexists; reflexivity|].
  destruct (histeq_nbins empty_raises nbins hgram) as [nb|e];
    cbn [lift and_then]; [|eexists; reflexivity].
  destruct im as [a|dt shape data|shape data|shape]; try (eexists; reflexivity).
  - destruct (_get_min_max (ia_dtype (histeq_source a))) as [mn mx].
    destruct (histogram_range (mx + 1)) as [[]|e];
      cbn [and_then]; [|eexists; reflexivity].
    destruct (table_step nb) as [[]|e]; cbn [and_then]; eexists; reflexivity.
  - destruct (_get_min_max_float (map Finite data)) as [[mn mx]|e];
      cbn [lift and_then round_out can_cast_float]; [|eexists; reflexivity].
    destruct (fval_eqb mx (Finite (Q2Qc 255))); eexists; reflexivity.
Qed.

(** On an image of integer type and for a target of two bins or more the
    exception is a [TypeError]. *)
Lemma histeq_int_TypeError a nbins hgram nb :
  is_image_besides_rgb24 (IntArray a) = true ->
  histeq_nbins empty_raises nbins hgram = Ok nb -> 2 <= nb ->
  run (IntArray a) nbins hgram = Raised TypeError.
Proof.
  intros Hplain Hnb Hge. unfold histeq. rewrite Hplain, Hnb.
  cbn [negb lift and_then].
  destruct (_get_min_max (ia_dtype (histeq_source a))) as [mn mx].
  unfold histogram_range, table_step.
  destruct (2 ^ 64 <=? mx + 1); [reflexivity|].
  rewrite (proj2 (Z.eqb_neq (nb - 1) 0)) by lia. reflexivity.
Qed.



(** C7: for a plain image of a signed integer type with an unsigned
    counterpart [u], the array the histograms are computed from is the input
    read as [u], each element keeping its bits; but [histeq] returns no
    array, of the original element type or of another: whatever the
    arguments it raises an exception, and with a target of two bins or more
    ([nbins] given so, or neither argument given) the exception is the
    [TypeError] of the histogram stage (line 195 for the 64-bit types, else
    line 204), so that the view of line 207 is never taken. *)
Theorem histeq_signed_image_raises (a : intarray) (u : int_dtype) :
  is_image_besides_rgb24 (IntArray a) = true ->
  _signed2unsigned (ia_dtype a) = Some u ->
  histeq_source a = view a u
  /\ ia_dtype (histeq_source a) = u
  /\ dtype_kind u = KUnsigned /\ bits u = bits (ia_dtype a)
  /\ ia_data (histeq_source a) = map (reinterpret u) (ia_data a)
  /\ (forall x i, 0 <= i < bits u -> Z.testbit (reinterpret u x) i = Z.testbit x i)
  /\ (forall nbins hgram out, run (IntArray a) nbins hgram <> Returned out)
  /\ (forall n, 2 <= n -> run (IntArray a) (Some n) None = Raised TypeError)
  /\ run (IntArray a) None None = Raised TypeError.
Proof.
  intros Hplain Hu.
  destruct (_signed2unsigned_counterpart _ _ Hu) as (Hsig & Huns & Hbits).
  assert (Hsrc : histeq_source a = view a u) by (unfold histeq_source; now rewrite Hu).
  rewrite Hsrc.
  split; [reflexivity|]. split; [reflexivity|]. split; [exact Huns|].
  split; [exact Hbits|]. split; [reflexivity|].
  split; [intros x i Hi; now apply reinterpret_unsigned_bits|].
  split; [|split].
  - intros nbins hgram out Hout.
    destruct (histeq_raises (IntArray a) nbins hgram) as [e He]. congruence.
  - intros n Hn. apply (histeq_int_TypeError a (Some n) None n Hplain); [|exact Hn].
    simpl. apply uniform_target_Ok. lia.
  - now apply (histeq_int_TypeError a None None 64 Hplain).
Qed.


End HisteqFacts.

Lemma histeq_signed_image_raises_witness :
  histeq_source im_sbyte = view im_sbyte IM_BYTE
  /\ ia_data (histeq_source im_sbyte) = [255; 5; 100]
  /\ (forall nbins hgram out,
        histeq true flat_table unscaled round_down (IntArray im_sbyte) nbins hgram
        <> Returned out)
  /\ histeq true flat_table unscaled round_down (IntArray im_sbyte) None None
     = Raised TypeError.
Proof.
  destruct (histeq_signed_image_raises true flat_table unscaled round_down
              im_sbyte IM_BYTE)
    as (Hsrc & _ & _ & _ & Hdata & _ & Hnever & _ & Hdefault).
  - reflexivity.
  - reflexivity.
  - split; [exact Hsrc|]. split; [exact Hdata|]. split; [exact Hnever | exact Hdefault].
Defined.


(** * Further properties *)

(** ** The renumbering engine: structure of the result *)

Section RankedCore.

Context {V : Type} (ltb : V -> V -> bool) (eqb : V -> V -> bool) (zero : V).
Hypothesis Hord : strict_total ltb.
Hypothesis eqb_iff : forall a b, eqb a b = true <-> a = b.

Lemma renumber_ranked data v0 tl shape out N :
  unique ltb data = v0 :: tl -> ltb v0 zero = false ->
  _conv_type (rank_array ltb (table eqb zero v0 (v0 :: tl)) shape data)
             (len (table eqb zero v0 (v0 :: tl)) - 1) = Ok (out, N) ->
  ranked ltb zero data shape out N.
Proof.
  intros Hu Hnn H.
  apply (renumber_core ltb eqb zero Hord eqb_iff data v0 tl shape out N Hu Hnn) in H.
  destruct (table_spec ltb eqb zero Hord eqb_iff data v0 tl Hu Hnn)
    as (rest & Ht & Hs & Hd & Hr).
  rewrite Ht in H. destruct H as (HN & _ & Hnar & Hsh & Hdata & _).
  exists rest. repeat (split; [assumption|]). split.
  - intros ->. discriminate Hu.
  - repeat (split; [assumption|]). assumption.
Qed.

(** Ranks compare as the values do. *)
Lemma sorted_nth_lt (l : list V) i j d :
  StronglySorted (lt ltb) l -> (i < j < length l)%nat ->
  lt ltb (nth i l d) (nth j l d).
Proof.
  intros Hs. revert i j. induction Hs as [|y ys Hs IH Hall]; intros i j Hij; simpl in *.
  - lia.
  - destruct j as [|j]; [lia|]. destruct i as [|i].
    + rewrite Forall_forall in Hall. apply Hall, nth_In. lia.
    + apply IH. lia.
Qed.

Lemma rank_order values x y :
  StronglySorted (lt ltb) values -> In x values -> In y values ->
  (Z.of_nat (searchsorted ltb values x) <? Z.of_nat (searchsorted ltb values y))
  = ltb x y.
Proof.
  destruct Hord as [Hirr Htr Htot]. intros Hs Hx Hy.
  destruct (In_nth _ _ x Hx) as (i & Hi & Ex), (In_nth _ _ x Hy) as (j & Hj & Ey).
  rewrite <- Ex, <- Ey at 1.
  rewrite !(searchsorted_nth ltb Hirr values _ x Hs) by assumption.
  destruct (Nat.lt_trichotomy i j) as [Hlt|[->|Hgt]].
  - pose proof (sorted_nth_lt values i j x Hs ltac:(lia)) as H.
    rewrite Ex, Ey in H. unfold lt in H. rewrite H. apply Z.ltb_lt. lia.
  - rewrite Ex in Ey. subst y. rewrite Hirr. apply Z.ltb_irrefl.
  - pose proof (sorted_nth_lt values j i x Hs ltac:(lia)) as H.
    rewrite Ex, Ey in H. unfold lt in H.
    destruct (ltb x y) eqn:E.
    + pose proof (Htr _ _ _ E H) as Hc. unfold lt in Hc. rewrite Hirr in Hc. discriminate.
    + apply Z.ltb_ge. lia.
Qed.

Lemma sorted_NoDup (l : list V) : StronglySorted (lt ltb) l -> NoDup l.
Proof.
  destruct Hord as [Hirr _ _].
  induction 1 as [|y ys Hs IH Hall]; constructor; auto.
  intros Hin. rewrite Forall_forall in Hall. specialize (Hall y Hin).
  unfold lt in Hall. rewrite Hirr in Hall. discriminate.
Qed.

Lemma ranked_order data shape out N p q :
  ranked ltb zero data shape out N ->
  (p < length data)%nat -> (q < length data)%nat ->
  (nth p (ia_data out) 0 <? nth q (ia_data out) 0)
  = ltb (nth p data zero) (nth q data zero).
Proof.
  intros (rest & Hs & Hd & _ & _ & _ & _ & _ & Hout) Hp Hq.
  rewrite Hout.
  rewrite (nth_indep _ 0 (Z.of_nat (searchsorted ltb (zero :: rest) zero)))
    by (now rewrite length_map).
  rewrite (nth_indep (map _ data) 0 (Z.of_nat (searchsorted ltb (zero :: rest) zero)))
    by (now rewrite length_map).
  rewrite !(map_nth (fun x => Z.of_nat (searchsorted ltb (zero :: rest) x))).
  apply rank_order; auto; apply Hd, nth_In; assumption.
Qed.

Lemma ranked_count data shape out N :
  ranked ltb zero data shape out N ->
  0 <= N <= len data /\ length (ia_data out) = length data /\ ia_data out <> [].
Proof.
  intros (rest & Hs & Hd & Hr & Hne & HN & _ & _ & Hout).
  assert (Hnd : NoDup rest).
  { apply sorted_NoDup in Hs. now inversion Hs. }
  pose proof (NoDup_incl_length Hnd Hr) as Hlen.
  rewrite Hout, length_map. unfold len in *. simpl length in HN.
  repeat split; try lia.
  destruct data; [congruence | discriminate].
Qed.

End RankedCore.

(** The three ways an image is renumbered. *)
Lemma consecutively_number_cases im out N :
  consecutively_number im = Ok (out, N) ->
  (is_rgb24 im = true
   /\ ranked rgb_ltb rgb_zero (snd (view_rgb24_struct im))
        (squeeze (fst (view_rgb24_struct im))) out N)
  \/ (is_rgb24 im = false
      /\ exists a, im = IntArray a
         /\ ranked Z.ltb 0 (ia_data a) (ia_shape a) out N)
  \/ (is_rgb24 im = false
      /\ exists dt shape data, im = FloatArray dt shape data
         /\ ranked Qcltb (Q2Qc 0) data shape out N).
Proof.
  rewrite fast_path_is_general. unfold consecutively_number_general.
  destruct (is_rgb24 im) eqn:Hrgb.
  - destruct (view_rgb24_struct im) as [shape data] eqn:Hview.
    destruct (unique rgb_ltb data) as [|v0 tl] eqn:Hu; [discriminate|].
    intros H. left. split; [reflexivity|]. simpl.
    apply (renumber_ranked rgb_ltb rgb_eqb rgb_zero rgb_ltb_strict_total rgb_eqb_iff
             data v0 tl _ out N Hu (rgb_zero_least v0) H).
  - destruct (is_image_besides_rgb24 im); [|discriminate].
    destruct im as [a|dt shape data|shape data|shape]; try discriminate.
    + destruct (unique Z.ltb (ia_data a)) as [|v0 tl] eqn:Hu; [discriminate|].
      destruct (v0 <? 0) eqn:Hnn; [discriminate|].
      intros H. right. left. split; [reflexivity|]. exists a. split; [reflexivity|].
      apply (renumber_ranked Z.ltb Z.eqb 0 Zltb_strict_total Z_eqb_iff
               (ia_data a) v0 tl _ out N Hu Hnn H).
    + destruct (unique Qcltb data) as [|v0 tl] eqn:Hu; [discriminate|].
      destruct (Qcltb v0 (Q2Qc 0)) eqn:Hnn; [discriminate|].
      intros H. right. right. split; [reflexivity|]. exists dt, shape, data.
      split; [reflexivity|].
      apply (renumber_ranked Qcltb Qc_eq_bool (Q2Qc 0) Qcltb_strict_total Qc_eq_bool_iff
               data v0 tl _ out N Hu Hnn H).
Qed.

(** ** The renumbering engine: order, size and shape *)

(** X1: renumbering keeps the order of the pixels: a pixel of the output is
    below another exactly when the corresponding input pixels are, in the
    order of the element type (RGB records compare by field). *)
Theorem renumbering_keeps_order (im : ndarray) (out : intarray) (N : Z) (p q : nat) :
  consecutively_number im = Ok (out, N) ->
  (p < npixels im)%nat -> (q < npixels im)%nat ->
  (nth p (ia_data out) 0 <? nth q (ia_data out) 0) = pixel_ltb im p q.
Proof.
  intros H. unfold npixels, pixel_ltb.
  destruct (consecutively_number_cases im out N H)
    as [[Hrgb Hr]|[[Hrgb (a & -> & Hr)]|[Hrgb (dt & shape & data & -> & Hr)]]];
    rewrite Hrgb; intros Hp Hq.
  - apply (ranked_order rgb_ltb rgb_zero rgb_ltb_strict_total _ _ _ _ p q Hr Hp Hq).
  - apply (ranked_order Z.ltb 0 Zltb_strict_total _ _ _ _ p q Hr Hp Hq).
  - apply (ranked_order Qcltb (Q2Qc 0) Qcltb_strict_total _ _ _ _ p q Hr Hp Hq).
Qed.

Lemma renumbering_keeps_order_witness :
  (nth 0 [2; 0; 1; 2] 0 <? nth 2 [2; 0; 1; 2] 0) = pixel_ltb im_rgb 0 2.
Proof.
  apply (renumbering_keeps_order im_rgb (mkInt IM_BYTE [2; 2]%nat [2; 0; 1; 2]) 2 0 2).
  - reflexivity.
  - change (npixels im_rgb) with 4%nat. lia.
  - change (npixels im_rgb) with 4%nat. lia.
Defined.

(** X2: the result has one value per pixel of the input and at least one
    pixel; it keeps the shape of a plain image, and has the shape of an RGB
    image with every axis of length 1 dropped (also an image axis); the max
    label is at most the number of pixels. *)
Theorem renumbered_size_and_shape (im : ndarray) (out : intarray) (N : Z) :
  consecutively_number im = Ok (out, N) ->
  length (ia_data out) = npixels im
  /\ (0 < npixels im)%nat
  /\ 0 <= N <= Z.of_nat (npixels im)
  /\ ia_shape out = renumbered_shape im.
Proof.
  intros H. unfold npixels, renumbered_shape.
  destruct (consecutively_number_cases im out N H)
    as [[Hrgb Hr]|[[Hrgb (a & -> & Hr)]|[Hrgb (dt & shape & data & -> & Hr)]]];
    rewrite Hrgb.
  - destruct (ranked_count rgb_ltb rgb_zero rgb_ltb_strict_total _ _ _ _ Hr) as (HN & Hl & Hne).
    destruct Hr as (rest & _ & _ & _ & _ & _ & _ & Hsh & _).
    unfold len in HN. rewrite <- Hl. repeat split; try lia; auto.
    destruct (ia_data out); [congruence | simpl; lia].
  - destruct (ranked_count Z.ltb 0 Zltb_strict_total _ _ _ _ Hr) as (HN & Hl & Hne).
    destruct Hr as (rest & _ & _ & _ & _ & _ & _ & Hsh & _).
    unfold len in HN. rewrite <- Hl. repeat split; try lia; auto.
    destruct (ia_data out); [congruence | simpl; lia].
  - destruct (ranked_count Qcltb (Q2Qc 0) Qcltb_strict_total _ _ _ _ Hr) as (HN & Hl & Hne).
    destruct Hr as (rest & _ & _ & _ & _ & _ & _ & Hsh & _).
    unfold len in HN. rewrite <- Hl. repeat split; try lia; auto.
    destruct (ia_data out); [congruence | simpl; lia].
Qed.

Lemma renumbered_size_and_shape_witness :
  length [2; 1] = npixels im_bytes_rgb
  /\ (0 < npixels im_bytes_rgb)%nat
  /\ 0 <= 2 <= Z.of_nat (npixels im_bytes_rgb)
  /\ [2%nat] = renumbered_shape im_bytes_rgb.
Proof.
  apply (renumbered_size_and_shape im_bytes_rgb (mkInt IM_BYTE [2]%nat [2; 1]) 2).
  reflexivity.
Defined.

(** ** Narrowing: success and preserved values *)

Lemma _conv_type_succeeds a n :
  n <= 18446744073709551615 -> exists out, _conv_type a n = Ok (out, n).
Proof.
  intros Hn. unfold _conv_type, _unsigned_types, _conv_type_from. dtype_max_values.
  repeat match goal with
         | |- context [n <=? ?m] => destruct (Z.leb_spec n m)
         end; try (eexists; reflexivity). lia.
Qed.

(** X3: [_conv_type] succeeds for every [n] up to [2^64 - 1]; when all the
    values of the array lie in [0..n] the returned array has the same shape
    and the same values, only the element type changes. *)
Theorem narrowing_keeps_values (a : intarray) (n : Z) :
  n <= 18446744073709551615 ->
  (forall v, In v (ia_data a) -> 0 <= v <= n) ->
  exists out,
    _conv_type a n = Ok (out, n)
    /\ ia_data out = ia_data a
    /\ ia_shape out = ia_shape a
    /\ In (ia_dtype out) _unsigned_types.
Proof.
  intros Hn Hv. destruct (_conv_type_succeeds a n Hn) as (out & H).
  exists out. split; [exact H|].
  apply _conv_type_values in H; [|exact Hv]. tauto.
Qed.

Lemma narrowing_keeps_values_witness :
  exists out,
    _conv_type (mkInt IM_LONG [1; 3]%nat [0; 300; 7]) 300 = Ok (out, 300)
    /\ ia_data out = [0; 300; 7]
    /\ ia_shape out = [1; 3]%nat
    /\ In (ia_dtype out) _unsigned_types.
Proof.
  apply (narrowing_keeps_values (mkInt IM_LONG [1; 3]%nat [0; 300; 7]) 300).
  - lia.
  - intros v Hv. simpl in Hv. decompose [or] Hv; subst; try lia; contradiction.
Defined.

(** An array already in the narrowest type for [n] is returned as it is. *)
Lemma _conv_type_fixpoint a n :
  narrowest (ia_dtype a) n ->
  (forall v, In v (ia_data a) -> 0 <= v <= n) ->
  _conv_type a n = Ok (a, n).
Proof.
  intros Hnar Hv.
  destruct (_conv_type_succeeds a n) as (out & H).
  { destruct Hnar as (Hd & Hfit & _). simpl in Hd. unfold dtype_max in Hfit.
    decompose [or] Hd; subst; try contradiction;
      match goal with E : _ = ia_dtype a |- _ => rewrite <- E in Hfit end;
      dtype_max_values; lia. }
  rewrite H. f_equal. f_equal.
  pose proof (_conv_type_narrowest _ _ _ _ H) as (_ & _ & Hnar').
  apply _conv_type_values in H; [|exact Hv].
  destruct H as (_ & Hdata & Hshape & _).
  assert (Hdt : ia_dtype out = ia_dtype a).
  { destruct Hnar as (Hd & Hfit & Hmin), Hnar' as (Hd' & Hfit' & Hmin').
    pose proof (Hmin _ Hd' Hfit') as H1. pose proof (Hmin' _ Hd Hfit) as H2.
    unfold dtype_max in H1, H2. simpl in Hd, Hd'.
    decompose [or] Hd; try contradiction; decompose [or] Hd'; try contradiction;
      repeat match goal with E : _ = ia_dtype _ |- _ => rewrite <- E in *; clear E end;
      try reflexivity; dtype_max_values; lia. }
  destruct out, a; simpl in *; congruence.
Qed.

(** ** Renumbering twice *)

Lemma plain_2d_int a :
  length (ia_shape a) = 2%nat ->
  is_rgb24 (IntArray a) = false /\ is_image_besides_rgb24 (IntArray a) = true.
Proof.
  intros H. unfold is_rgb24, is_image_besides_rgb24, ndim.
  cbn [shape_of dtype_of]. rewrite H, in_integer_types. split; reflexivity.
Qed.

(** A plain integer image with at least one pixel whose values, with 0, are
    exactly [0..n] takes the shortcut of line 266. *)
Lemma dense_takes_shortcut a n :
  is_image_besides_rgb24 (IntArray a) = true ->
  ia_data a <> [] ->
  (forall v, In v (0 :: ia_data a) <-> 0 <= v <= n) ->
  consecutively_number (IntArray a) = _conv_type a n.
Proof.
  intros Hplain Hne Hset. unfold consecutively_number.
  rewrite (plain_not_rgb _ Hplain), Hplain.
  destruct (unique Z.ltb (ia_data a)) as [|v0 tl] eqn:Hu.
  { destruct (ia_data a) as [|x xs]; [congruence|].
    now apply (unique_nonempty Z.ltb Zltb_strict_total (x :: xs) x (or_introl eq_refl)) in Hu. }
  assert (Hnn : (v0 <? 0) = false).
  { apply Z.ltb_ge. apply (Hset v0). right.
    apply (In_unique Z.ltb (st_total _ Zltb_strict_total)). rewrite Hu. now left. }
  rewrite Hnn. fold (table Z.eqb 0 v0 (v0 :: tl)).
  destruct (table_spec Z.ltb Z.eqb 0 Zltb_strict_total Z_eqb_iff _ v0 tl Hu Hnn)
    as (rest & Ht & Hs & Hd & Hr).
  rewrite Ht.
  destruct (closed_last rest n Hs) as [Hlast Hlen].
  { intros v. rewrite <- Hset. simpl. split.
    - intros [->|Hv]; auto.
    - intros [->|Hv]; auto. apply (Hd v Hv). }
  rewrite Hlast, Hlen, Z.eqb_refl. reflexivity.
Qed.

(** X4: renumbering is idempotent: given back a two-dimensional result of
    [consecutively_number], it returns the same array, element type
    included, and the same max label. *)
Theorem renumbering_idempotent (im : ndarray) (out : intarray) (N : Z) :
  consecutively_number im = Ok (out, N) ->
  length (ia_shape out) = 2%nat ->
  consecutively_number (IntArray out) = Ok (out, N).
Proof.
  intros H Hdim.
  pose proof (consecutively_number_renumbered im out N H) as [Hn Hnar Hb Hc _].
  assert (Hne : ia_data out <> []).
  { destruct (consecutively_number_cases im out N H)
      as [[_ Hr]|[[_ (a & _ & Hr)]|[_ (dt & shape & data & _ & Hr)]]].
    - apply (ranked_count rgb_ltb rgb_zero rgb_ltb_strict_total _ _ _ _ Hr).
    - apply (ranked_count Z.ltb 0 Zltb_strict_total _ _ _ _ Hr).
    - apply (ranked_count Qcltb (Q2Qc 0) Qcltb_strict_total _ _ _ _ Hr). }
  destruct (plain_2d_int out Hdim) as [_ Hplain].
  rewrite (dense_takes_shortcut out N Hplain Hne).
  - now apply _conv_type_fixpoint.
  - intros v. simpl. split.
    + intros [<-|Hv]; [lia | now apply Hb].
    + intros Hv. destruct (Z.eq_dec v 0) as [->|Hv0]; [now left | right].
      apply Hc. lia.
Qed.

Lemma renumbering_idempotent_witness :
  consecutively_number (IntArray (mkInt IM_BYTE [1; 2]%nat [1; 2]))
  = Ok (mkInt IM_BYTE [1; 2]%nat [1; 2], 2).
Proof.
  apply (renumbering_idempotent im_5_7); reflexivity.
Defined.

(** ** Every outcome of the renumbering engine *)

Section TableSize.

Context {V : Type} (ltb : V -> V -> bool) (eqb : V -> V -> bool) (zero : V).
Hypothesis Hord : strict_total ltb.
Hypothesis eqb_iff : forall a b, eqb a b = true <-> a = b.





End TableSize.



(** ** The loop of [relabel]: what splitting does *)

Lemma len_range a b : len (range a b) = Z.max 0 (b - a).
Proof. unfold len, range. rewrite length_map, length_seq. lia. Qed.

Lemma assign_where_length dt data l j N :
  length (assign_where dt data l j N) = length data.
Proof.
  revert l. induction data as [|v data IH]; intros [|c l]; simpl; auto.
Qed.

Lemma assign_where_nth dt data l j N p :
  length l = length data -> (p < length data)%nat ->
  nth p (assign_where dt data l j N) 0
  = if nth p l 0 =? j then cast dt N else nth p data 0.
Proof.
  revert l p. induction data as [|v data IH]; intros [|c l] p Hl Hp; simpl in *; try lia.
  destruct p as [|p]; [reflexivity|]. apply IH; lia.
Qed.

Lemma cast_fits d v :
  In d _unsigned_types -> 0 <= v <= dtype_max d -> cast d v = v.
Proof.
  intros Hd Hv. apply (cast_id d v (dtype_max d)); auto. unfold dtype_max. lia.
Qed.

Lemma relabel_split_spec js l im N im' N' :
  length l = length (ia_data im) ->
  In (ia_dtype im) _unsigned_types ->
  0 <= N -> N + len js <= dtype_max (ia_dtype im) ->
  relabel_split js l im N = Ok (im', N') ->
  N' = N + len js
  /\ ia_dtype im' = ia_dtype im /\ ia_shape im' = ia_shape im
  /\ length (ia_data im') = length (ia_data im)
  /\ forall p, (p < length (ia_data im))%nat ->
       nth p (ia_data im') 0 = nth p (ia_data im) 0
       \/ (In (nth p l 0) js /\ N < nth p (ia_data im') 0 <= N').
Proof.
  revert im N. induction js as [|j js IH]; intros im N Hl Hd HN Hfit; simpl.
  - intros [= <- <-]. unfold len. simpl. repeat split; auto; lia.
  - unfold set_where. rewrite (proj2 (Nat.eqb_eq _ _) Hl). simpl bind.
    set (im1 := mkInt _ _ _).
    unfold len in Hfit. simpl length in Hfit.
    intros H. apply IH in H; simpl; try rewrite assign_where_length; auto; try lia;
      [|unfold len; lia].
    destruct H as (-> & Hdt & Hsh & Hlen & Hpix). simpl in Hdt, Hsh, Hlen, Hpix.
    rewrite assign_where_length in Hlen, Hpix.
    unfold len. simpl length. repeat split; auto; try lia.
    intros p Hp. specialize (Hpix p Hp).
    rewrite (assign_where_nth _ _ _ _ _ _ Hl Hp) in Hpix.
    rewrite cast_fits in Hpix by (auto; lia).
    destruct Hpix as [Hpix|[Hin Hb]].
    + rewrite Hpix. destruct (nth p l 0 =? j) eqn:E; [|now left].
      apply Z.eqb_eq in E. right. split; [now left | lia].
    + right. split; [now right | unfold len in Hb; lia].
Qed.

Lemma map_ext_nth (f : Z -> bool) (l1 l2 : list Z) :
  length l1 = length l2 ->
  (forall p, (p < length l1)%nat -> f (nth p l1 0) = f (nth p l2 0)) ->
  map f l1 = map f l2.
Proof.
  revert l2. induction l1 as [|a l1 IH]; intros [|b l2] Hlen H; simpl in *; try lia; auto.
  f_equal.
  - apply (H 0%nat). lia.
  - apply IH; [lia|]. intros p Hp. apply (H (S p)). lia.
Qed.

(** Lines 231-234 keep the values and make room for the new labels. *)
Lemma relabel_widen (im im1 : intarray) (N n mx mx1 : Z) :
  (forall v, In v (ia_data im) -> 0 <= v <= N) ->
  In (ia_dtype im) _unsigned_types -> mx = dtype_max (ia_dtype im) -> N <= mx ->
  (if N + n - 1 >? mx
   then '(im, _) <- _conv_type im (N + n - 1) ;;
        Ok (im, snd (_get_min_max (ia_dtype im)))
   else Ok (im, mx)) = Ok (im1, mx1) ->
  ia_data im1 = ia_data im /\ ia_shape im1 = ia_shape im
  /\ In (ia_dtype im1) _unsigned_types /\ mx1 = dtype_max (ia_dtype im1)
  /\ N <= mx1 /\ N + n - 1 <= mx1.
Proof.
  intros Hv Hd Hmx HN. rewrite Z.gtb_ltb.
  destruct (mx <? N + n - 1) eqn:E.
  - apply Z.ltb_lt in E.
    destruct (_conv_type im (N + n - 1)) as [[im2 x]|e] eqn:Hc; simpl; [|discriminate].
    intros [= <- <-].
    apply _conv_type_values in Hc; [|intros v Hin; specialize (Hv v Hin); lia].
    destruct Hc as (_ & Hdata & Hsh & Hd2 & Hfit).
    unfold dtype_max. repeat split; auto; lia.
  - apply Z.ltb_ge in E. intros [= <- <-]. repeat split; auto; lia.
Qed.

Section RelabelInvariant.

Variable label : list nat -> list bool -> list Z * Z.
Hypothesis Hlabel : label_contract label.

Variables (im0 : intarray) (N0 : Z).
Hypothesis Hvalues : forall v, In v (ia_data im0) -> 0 <= v <= N0.
Hypothesis HN0 : 0 <= N0.

Lemma extra_labels_nonneg labels : 0 <= extra_labels label im0 labels.
Proof. induction labels; simpl; lia. Qed.

Lemma extra_labels_app l1 l2 :
  extra_labels label im0 (l1 ++ l2)
  = extra_labels label im0 l1 + extra_labels label im0 l2.
Proof. induction l1; simpl; lia. Qed.

Lemma relabel_inv_values st v :
  relabel_inv label im0 N0 st -> In v (ia_data (st_im st)) -> 0 <= v <= st_N st.
Proof.
  intros (_ & Hlen & _ & _ & _ & HN & Hpix) Hin.
  pose proof (extra_labels_nonneg (st_visited st)).
  destruct (In_nth _ _ 0 Hin) as (p & Hp & <-). rewrite Hlen in Hp.
  destruct (Hpix p Hp) as [->|[_ Hb]]; [|lia].
  specialize (Hvalues _ (nth_In _ 0 Hp)). lia.
Qed.

Lemma relabel_inv_mask st i :
  relabel_inv label im0 N0 st -> 1 <= i <= N0 -> ~ In i (st_visited st) ->
  eq_mask (st_im st) i = eq_mask im0 i.
Proof.
  intros (_ & Hlen & _ & _ & _ & _ & Hpix) Hi Hnew. unfold eq_mask.
  apply map_ext_nth; [exact Hlen|]. intros p Hp. rewrite Hlen in Hp.
  destruct (Hpix p Hp) as [->|[Hin Hb]]; [reflexivity|].
  rewrite (proj2 (Z.eqb_neq _ _)) by lia.
  symmetry. apply Z.eqb_neq. intros E. rewrite E in Hin. contradiction.
Qed.

Lemma relabel_body_inv i st st' :
  relabel_inv label im0 N0 st -> 1 <= i <= N0 -> ~ In i (st_visited st) ->
  relabel_body label i st = Ok st' ->
  relabel_inv label im0 N0 st'.
Proof.
  intros Hinv Hi Hnew.
  pose proof (fun v => relabel_inv_values st v Hinv) as Hv.
  pose proof (relabel_inv_mask st i Hinv Hi Hnew) as Hmask.
  pose proof (extra_labels_nonneg (st_visited st)) as Hextra.
  destruct Hinv as (Hsh & Hlen & Hd & Hmx & HNmx & HN & Hpix).
  unfold relabel_body. rewrite Hsh, Hmask.
  destruct (Hlabel (ia_shape im0) (eq_mask im0 i)) as [Hll Hlz].
  destruct (label (ia_shape im0) (eq_mask im0 i)) as [l n] eqn:Hl.
  simpl in Hll, Hlz. unfold eq_mask in Hll. rewrite length_map in Hll.
  destruct (if st_N st + n - 1 >? st_mx st then _ else _) as [[im1 mx1]|e] eqn:Hw;
    simpl; [|discriminate].
  apply relabel_widen in Hw; auto.
  destruct Hw as (Hdata1 & Hsh1 & Hd1 & Hmx1 & HN1 & Hfit1).
  destruct (relabel_split (range 2 (n + 1)) l im1 (st_N st)) as [[im2 N2]|e] eqn:Hs;
    simpl; [|discriminate].
  apply relabel_split_spec in Hs; auto;
    [|rewrite Hdata1; lia | lia | rewrite len_range; lia].
  destruct Hs as (-> & Hdt2 & Hsh2 & Hlen2 & Hpix2).
  intros [= <-]. rewrite len_range in Hpix2 |- *. rewrite Hdata1 in Hlen2, Hpix2.
  unfold relabel_inv. simpl.
  rewrite Hdt2, Hsh2, Hlen2, extra_labels_app. simpl. rewrite Hl. simpl.
  replace (n + 1 - 2) with (n - 1) in * by lia.
  repeat split; auto; try lia; try congruence.
  intros p Hp. rewrite <- Hlen in Hp. specialize (Hpix2 p Hp). rewrite Hlen in Hp.
  destruct Hpix2 as [E|[Hin Hb]].
  - rewrite E. destruct (Hpix p Hp) as [E0|[Hin0 Hb0]]; [now left|].
    right. split; [apply in_or_app; now left | lia].
  - right. split; [|lia]. apply in_or_app. right. left.
    apply In_range in Hin.
    destruct (nth p (eq_mask im0 i) false) eqn:Em.
    + unfold eq_mask in Em.
      rewrite (nth_indep _ false (0 =? i)) in Em by (now rewrite length_map).
      rewrite (map_nth (fun v => v =? i)) in Em. apply Z.eqb_eq in Em. auto.
    + specialize (Hlz p Em). lia.
Qed.

Lemma relabel_loop_inv labels st st' :
  relabel_inv label im0 N0 st ->
  (forall i, In i labels -> 1 <= i <= N0) ->
  NoDup (st_visited st ++ labels) ->
  relabel_loop label labels st = Ok st' ->
  relabel_inv label im0 N0 st' /\ st_visited st' = st_visited st ++ labels.
Proof.
  revert st. induction labels as [|i rest IH]; intros st Hinv Hin Hnd; simpl.
  - intros [= <-]. now rewrite app_nil_r.
  - destruct (relabel_body label i st) as [st1|e] eqn:Hb; simpl; [|discriminate].
    intros H.
    assert (Hnew : ~ In i (st_visited st)).
    { apply NoDup_remove_2 in Hnd. intros Hc. apply Hnd, in_or_app. now left. }
    pose proof (relabel_body_inv i st st1 Hinv (Hin i (or_introl eq_refl)) Hnew Hb) as Hinv1.
    apply relabel_body_visits in Hb as [Hvis _].
    apply IH in H; auto.
    + destruct H as [? ->]. rewrite Hvis, <- app_assoc. auto.
    + intros j Hj. apply Hin. now right.
    + rewrite Hvis, <- app_assoc. exact Hnd.
Qed.

End RelabelInvariant.

(** The example routine [label4] honours the contract. *)

Lemma set_nth_length p c lab :
  (p < length lab)%nat -> length (set_nth p c lab) = length lab.
Proof.
  intros Hp. unfold set_nth.
  rewrite length_app, length_firstn.
  change (length (c :: skipn (S p) lab)) with (S (length (skipn (S p) lab))).
  rewrite length_skipn. lia.
Qed.

Lemma set_nth_nth p c lab q :
  (p < length lab)%nat ->
  nth q (set_nth p c lab) 0 = if Nat.eqb q p then c else nth q lab 0.
Proof.
  unfold set_nth. revert p q. induction lab as [|a lab IH]; intros p q Hp; simpl in Hp.
  - lia.
  - destruct p as [|p]; destruct q as [|q]; simpl; try reflexivity.
    apply (IH p q). lia.
Qed.

Lemma nth_map_seq (f : nat -> Z) n q :
  (q < n)%nat -> nth q (map f (seq 0 n)) 0 = f q.
Proof.
  intros Hq. rewrite (nth_indep _ 0 (f 0%nat)) by (now rewrite length_map, length_seq).
  now rewrite (map_nth f (seq 0 n) 0%nat q), seq_nth.
Qed.

Lemma spread_outside w mask c lab :
  (forall q, nth q mask false = false -> nth q lab 0 = 0) ->
  length (spread w mask c lab) = length mask
  /\ forall q, nth q mask false = false -> nth q (spread w mask c lab) 0 = 0.
Proof.
  intros Hz. unfold spread. split; [now rewrite length_map, length_seq|].
  intros q Hq. destruct (Nat.lt_ge_cases q (length mask)) as [Hlt|Hge].
  - rewrite nth_map_seq by assumption. rewrite Hq. simpl. now apply Hz.
  - apply nth_overflow. now rewrite length_map, length_seq.
Qed.

Lemma flood_outside w mask c lab :
  length lab = length mask ->
  (forall q, nth q mask false = false -> nth q lab 0 = 0) ->
  length (flood w mask c lab) = length mask
  /\ forall q, nth q mask false = false -> nth q (flood w mask c lab) 0 = 0.
Proof.
  intros Hl Hz. unfold flood.
  induction (seq 0 (length mask)) as [|x xs IH]; simpl; [auto|].
  apply spread_outside, IH.
Qed.

Lemma label4_contract : label_contract label4.
Proof.
  intros shape mask. unfold label4.
  set (step := fun '(lab, n) p => _).
  assert (Hfold : forall ps acc,
             (forall p, In p ps -> (p < length mask)%nat) ->
             (length (fst acc) = length mask
              /\ forall q, nth q mask false = false -> nth q (fst acc) 0 = 0) ->
             length (fst (fold_left step ps acc)) = length mask
             /\ forall q, nth q mask false = false ->
                  nth q (fst (fold_left step ps acc)) 0 = 0).
  { induction ps as [|p ps IH]; intros [lab n] Hps [Hl Hz]; simpl in *; [auto|].
    apply IH; [auto|].
    destruct (nth p mask false && (nth p lab 0 =? 0)) eqn:E; simpl; [|auto].
    apply andb_true_iff in E as [Em _].
    assert (Hp : (p < length lab)%nat) by (rewrite Hl; auto).
    apply flood_outside.
    - now rewrite set_nth_length.
    - intros q Hq. rewrite set_nth_nth by assumption.
      destruct (Nat.eqb q p) eqn:Eq; [apply Nat.eqb_eq in Eq; congruence | auto]. }
  apply Hfold.
  - intros p Hp. apply in_seq in Hp. lia.
  - simpl. split; [now rewrite length_map|].
    intros q _.
    destruct (nth_in_or_default q (map (fun _ : bool => 0) mask) 0) as [Hin|E];
      [|exact E].
    apply in_map_iff in Hin as (b & E & _). now rewrite <- E.
Qed.

(** ** What [relabel] returns *)

Lemma relabel_run_inv label im st :
  label_contract label ->
  relabel_run label im = Ok st ->
  exists im0 N0,
    consecutively_number im = Ok (im0, N0)
    /\ relabel_inv label im0 N0 st
    /\ st_visited st = range 1 (N0 + 1).
Proof.
  intros Hlabel. unfold relabel_run.
  destruct (consecutively_number im) as [[im0 N0]|e] eqn:Hcn; simpl; [|discriminate].
  intros H. exists im0, N0. split; [reflexivity|].
  pose proof (consecutively_number_renumbered im im0 N0 Hcn) as [Hn Hnar Hb _ _].
  apply (relabel_loop_inv label Hlabel im0 N0 Hb Hn) in H.
  - exact H.
  - unfold relabel_inv. simpl. destruct Hnar as (Hd & Hfit & _).
    repeat split; auto; lia.
  - intros i Hi. apply In_range in Hi. lia.
  - simpl. apply NoDup_range.
Qed.

Lemma relabel_Ok label im out N :
  relabel label im = Ok (out, N) ->
  exists st, relabel_run label im = Ok st /\ st_im st = out /\ st_N st = N.
Proof.
  unfold relabel. destruct (relabel_run label im) as [st|e]; simpl; [|discriminate].
  intros [= <- <-]. eauto.
Qed.

(** X6: with a components routine that returns one id per pixel and 0
    outside the mask, the max label returned by [relabel] is the max label
    of the renumbered image plus, for each of its labels, one less than the
    number of its components; the returned array has an unsigned (or boolean)
    element type that can hold that label, and all its values lie in [0..N]. *)
Theorem relabel_counts_components
    (label : list nat -> list bool -> list Z * Z)
    (im : ndarray) (out : intarray) (N : Z) :
  label_contract label ->
  relabel label im = Ok (out, N) ->
  exists im0 N0,
    consecutively_number im = Ok (im0, N0)
    /\ N = N0 + extra_labels label im0 (range 1 (N0 + 1))
    /\ In (ia_dtype out) _unsigned_types
    /\ N <= dtype_max (ia_dtype out)
    /\ forall v, In v (ia_data out) -> 0 <= v <= N.
Proof.
  intros Hlabel H. apply relabel_Ok in H as (st & Hrun & <- & <-).
  destruct (relabel_run_inv label im st Hlabel Hrun) as (im0 & N0 & Hcn & Hinv & Hvis).
  exists im0, N0. split; [exact Hcn|].
  pose proof (consecutively_number_renumbered im im0 N0 Hcn) as [Hn _ Hb _ _].
  pose proof (fun v => relabel_inv_values label im0 N0 Hb Hn st v Hinv) as Hv.
  destruct Hinv as (_ & _ & Hd & Hmx & HNmx & HN & _).
  rewrite Hvis in HN. repeat split; auto; try apply Hv; auto. lia.
Qed.

Lemma relabel_counts_components_witness :
  exists im0 N0,
    consecutively_number im_corners = Ok (im0, N0)
    /\ 2 = N0 + extra_labels label4 im0 (range 1 (N0 + 1))
    /\ In IM_BYTE _unsigned_types
    /\ 2 <= dtype_max IM_BYTE
    /\ forall v,
         In v [1; 0; 0; 0; 0; 0; 0; 0; 0; 0; 0; 0; 0; 0; 0; 0; 0; 0; 0; 0; 0; 0; 0; 0; 2] ->
         0 <= v <= 2.
Proof.
  apply (relabel_counts_components label4 im_corners
           (mkInt IM_BYTE [5; 5]%nat
              [1; 0; 0; 0; 0;
               0; 0; 0; 0; 0;
               0; 0; 0; 0; 0;
               0; 0; 0; 0; 0;
               0; 0; 0; 0; 2]) 2).
  - exact label4_contract.
  - reflexivity.
Defined.

(** X7: under the same contract [relabel] keeps the shape of the renumbered
    image and changes a pixel only by giving a foreground pixel a label above
    the max label of the renumbered image: a pixel is 0 in the result exactly
    where the input pixel is 0, respectively [(0, 0, 0)]. *)
Theorem relabel_keeps_background
    (label : list nat -> list bool -> list Z * Z)
    (im : ndarray) (out : intarray) (N : Z) :
  label_contract label ->
  relabel label im = Ok (out, N) ->
  exists im0 N0,
    consecutively_number im = Ok (im0, N0)
    /\ ia_shape out = ia_shape im0
    /\ length (ia_data out) = length (ia_data im0)
    /\ (forall p, (p < length (ia_data im0))%nat ->
          nth p (ia_data out) 0 = nth p (ia_data im0) 0
          \/ (1 <= nth p (ia_data im0) 0 /\ N0 < nth p (ia_data out) 0 <= N))
    /\ map (fun k => k =? 0) (ia_data out) = zero_mask im.
Proof.
  intros Hlabel H. apply relabel_Ok in H as (st & Hrun & <- & <-).
  destruct (relabel_run_inv label im st Hlabel Hrun) as (im0 & N0 & Hcn & Hinv & Hvis).
  exists im0, N0. split; [exact Hcn|].
  pose proof (consecutively_number_renumbered im im0 N0 Hcn) as [Hn _ Hb _ Hz].
  destruct Hinv as (Hsh & Hlen & _ & _ & _ & _ & Hpix).
  assert (Hpix' : forall p, (p < length (ia_data im0))%nat ->
            nth p (ia_data (st_im st)) 0 = nth p (ia_data im0) 0
            \/ (1 <= nth p (ia_data im0) 0
                /\ N0 < nth p (ia_data (st_im st)) 0 <= st_N st)).
  { intros p Hp. destruct (Hpix p Hp) as [E|[Hin Hbd]]; [now left|right].
    rewrite Hvis in Hin. apply In_range in Hin. lia. }
  repeat split; auto.
  rewrite <- Hz. apply map_ext_nth; [exact Hlen|].
  intros p Hp. rewrite Hlen in Hp. destruct (Hpix' p Hp) as [->|[H1 H2]]; [reflexivity|].
  rewrite !(proj2 (Z.eqb_neq _ _)) by lia. reflexivity.
Qed.

Lemma relabel_keeps_background_witness :
  exists im0 N0,
    consecutively_number im_blocks = Ok (im0, N0)
    /\ [3; 4]%nat = ia_shape im0
    /\ length [1; 1; 0; 2; 1; 0; 0; 2; 0; 0; 2; 2] = length (ia_data im0)
    /\ (forall p, (p < length (ia_data im0))%nat ->
          nth p [1; 1; 0; 2; 1; 0; 0; 2; 0; 0; 2; 2] 0 = nth p (ia_data im0) 0
          \/ (1 <= nth p (ia_data im0) 0
              /\ N0 < nth p [1; 1; 0; 2; 1; 0; 0; 2; 0; 0; 2; 2] 0 <= 2))
    /\ map (fun k => k =? 0) [1; 1; 0; 2; 1; 0; 0; 2; 0; 0; 2; 2] = zero_mask im_blocks.
Proof.
  apply (relabel_keeps_background label4 im_blocks
           (mkInt IM_BYTE [3; 4]%nat [1; 1; 0; 2; 1; 0; 0; 2; 0; 0; 2; 2]) 2).
  - exact label4_contract.
  - reflexivity.
Defined.

(** ** Views between signed and unsigned types *)

Lemma reinterpret_signed_unsigned d u v :
  _signed2unsigned d = Some u -> in_range d v ->
  reinterpret u v = (if v <? 0 then v + 2 ^ bits d else v)
  /\ reinterpret d (reinterpret u v) = v.
Proof.
  unfold in_range, _get_min_max, _min_max_values, reinterpret.
  destruct d; simpl; intros [= <-] Hv; simpl;
    (destruct (Z.ltb_spec v 0); split;
     Z.to_euclidean_division_equations; lia).
Qed.

(** X8: the view of a signed array as its unsigned counterpart, as [histeq]
    takes it, leaves the values from 0 up unchanged and moves every negative
    value [v] to [v + 2^bits], above all of them; viewing the result back as
    the signed type gives the original array. *)
Theorem view_signed_round_trip (a : intarray) (u : int_dtype) :
  _signed2unsigned (ia_dtype a) = Some u ->
  (forall v, In v (ia_data a) -> in_range (ia_dtype a) v) ->
  ia_data (view a u)
  = map (fun v => if v <? 0 then v + 2 ^ bits (ia_dtype a) else v) (ia_data a)
  /\ view (view a u) (ia_dtype a) = a.
Proof.
  intros Hu Hv. destruct a as [d shape data]. simpl in *. unfold view. simpl. split.
  - apply map_ext_in. intros v Hin.
    apply (reinterpret_signed_unsigned d u v Hu (Hv v Hin)).
  - f_equal. rewrite map_map. rewrite <- (map_id data) at 2.
    apply map_ext_in. intros v Hin.
    apply (reinterpret_signed_unsigned d u v Hu (Hv v Hin)).
Qed.

Lemma view_signed_round_trip_witness :
  ia_data (view im_short IM_USHORT_BE) = [65534; 300]
  /\ view (view im_short IM_USHORT_BE) IM_SHORT_BE = im_short.
Proof.
  apply (view_signed_round_trip im_short IM_USHORT_BE).
  - reflexivity.
  - intros v Hv. simpl in Hv. unfold in_range. simpl.
    decompose [or] Hv; subst; try lia; contradiction.
Defined.

(** ** Order of floating-point values *)

Lemma is_nan_true v : is_nan v = true -> v = NaN.
Proof. destruct v; simpl; congruence. Qed.

Lemma fval_leb_finite p q : fval_leb (Finite p) (Finite q) = true <-> (p <= q)%Qc.
Proof.
  unfold fval_leb, fval_ltb, fval_eqb, Qcltb. rewrite Qcle_alt.
  destruct (p ?= q)%Qc; simpl; split; congruence.
Qed.

Lemma fval_ltb_leb a b : fval_ltb a b = true -> fval_leb a b = true.
Proof. intros H. unfold fval_leb. now rewrite H. Qed.

Lemma fval_leb_refl a : is_nan a = false -> fval_leb a a = true.
Proof.
  destruct a as [| |q|]; simpl; intros H; try discriminate H; try reflexivity.
  apply fval_leb_finite, Qcle_refl.
Qed.

Lemma fval_leb_trans a b c :
  fval_leb a b = true -> fval_leb b c = true -> fval_leb a c = true.
Proof.
  destruct a as [| |p|], b as [| |q|], c as [| |r|]; intros H1 H2;
    try discriminate H1; try discriminate H2; try reflexivity.
  apply fval_leb_finite. apply fval_leb_finite in H1, H2.
  now apply Qcle_trans with q.
Qed.

Lemma fval_ltb_negb_leb a b :
  is_nan a = false -> is_nan b = false -> fval_ltb a b = negb (fval_leb b a).
Proof.
  destruct a as [| |p|], b as [| |q|]; simpl; intros Ha Hb;
    try discriminate Ha; try discriminate Hb; try reflexivity.
  unfold fval_leb, fval_ltb, fval_eqb, Qcltb, Qccompare.
  rewrite <- (Qcompare_antisym p q). destruct (p ?= q)%Q; reflexivity.
Qed.

Lemma fval_leb_nan_r a : fval_leb a NaN = false.
Proof. now destruct a. Qed.

Lemma fval_neg_involutive a : fval_neg (fval_neg a) = a.
Proof.
  destruct a as [| |q|]; simpl; try reflexivity. now rewrite Qcopp_involutive.
Qed.

Lemma fval_neg_not_positive a :
  fval_ltb (Finite (Q2Qc 0)) a = true -> fval_ltb (Finite (Q2Qc 0)) (fval_neg a) = false.
Proof.
  destruct a as [| |q|]; intros Ha; try discriminate Ha; try reflexivity.
  simpl in *. apply Qcltb_lt in Ha. apply not_true_is_false. intros Hc.
  apply Qcltb_lt in Hc. apply Qclt_le_weak, Qcopp_le_compat in Ha.
  replace (- Q2Qc 0)%Qc with (Q2Qc 0) in Ha by ring.
  exact (Qclt_not_le _ _ Hc Ha).
Qed.

(** ** Thresholding *)

(** X9: for a positive threshold [t], [bw(im, -t)] is the complement of
    [bw(im, t)] at every pixel that is not NaN, so everywhere on an image of
    integer or boolean type: a negative threshold selects the values
    strictly below its magnitude.  A NaN pixel of a floating-point image is
    black under both thresholds.  With threshold 0 an integer image without
    negative values comes out all black. *)
Theorem bw_negative_is_complement
    (im : list Z) (t : Z) (cast : fval -> fval) (fim : list fval) (ft : fval) :
  0 < t ->
  fval_ltb (Finite (Q2Qc 0)) ft = true ->
  is_nan (cast ft) = false ->
  (bw im (- t) = map negb (bw im t)
   /\ (forall p, (p < length im)%nat ->
         nth p (bw im (- t)) false = (nth p im 0 <? t))
   /\ ((forall x, In x im -> 0 <= x) -> bw im 0 = map (fun _ => false) im))
  /\ (forall p, (p < length fim)%nat ->
        nth p (bw_float cast fim (fval_neg ft)) false
        = (if is_nan (nth p fim NaN) then false
           else negb (nth p (bw_float cast fim ft) false))
        /\ nth p (bw_float cast fim (fval_neg ft)) false
           = fval_ltb (nth p fim NaN) (cast ft)
        /\ (is_nan (nth p fim NaN) = true ->
            nth p (bw_float cast fim ft) false = false))
  /\ ((forall x, In x fim -> is_nan x = false) ->
      bw_float cast fim (fval_neg ft) = map negb (bw_float cast fim ft)).
Proof.
  intros Ht Hft Hcast. split; [|split].
  - unfold bw.
    rewrite (proj2 (Z.gtb_lt t 0)) by lia.
    replace (- t >? 0) with false by (symmetry; rewrite Z.gtb_ltb; apply Z.ltb_ge; lia).
    rewrite Z.opp_involutive. simpl. repeat split.
    + rewrite map_map. apply map_ext. intros x. rewrite Z.geb_leb.
      destruct (Z.ltb_spec x t), (Z.leb_spec t x); try reflexivity; lia.
    + intros p Hp.
      rewrite (nth_indep _ false (0 <? t)) by (now rewrite length_map).
      apply (map_nth (fun x => x <? t)).
    + intros Hx. apply map_ext_in. intros x Hin. apply Z.ltb_ge. now apply Hx.
  - pose proof (fval_neg_not_positive ft Hft) as Hneg.
    intros p Hp. unfold bw_float. rewrite Hft, Hneg, fval_neg_involutive.
    rewrite (nth_indep _ false (fval_ltb NaN (cast ft))) by (now rewrite length_map).
    rewrite (map_nth (fun x => fval_ltb x (cast ft))).
    rewrite (nth_indep (map _ fim) false (fval_leb (cast ft) NaN))
      by (now rewrite length_map).
    rewrite (map_nth (fun x => fval_leb (cast ft) x)).
    destruct (is_nan (nth p fim NaN)) eqn:Hnan.
    + apply is_nan_true in Hnan. rewrite Hnan.
      split; [reflexivity|]. split; [reflexivity|]. intros _. apply fval_leb_nan_r.
    + split; [now apply fval_ltb_negb_leb|]. split; [reflexivity | discriminate].
  - pose proof (fval_neg_not_positive ft Hft) as Hneg.
    intros Hall. unfold bw_float. rewrite Hft, Hneg, fval_neg_involutive.
    rewrite map_map. apply map_ext_in. intros x Hx.
    apply fval_ltb_negb_leb; [now apply Hall | exact Hcast].
Qed.

Lemma bw_negative_is_complement_witness :
  bw [0; 3; 5; 9] (- 5) = map negb (bw [0; 3; 5; 9] 5)
  /\ bw_float (fun x => x) [NaN; Finite (Q2Qc (1 # 2)); Finite (Q2Qc 2)]
       (fval_neg (Finite (Q2Qc 1)))
     = [false; true; false]
  /\ bw_float (fun x => x) [NaN; Finite (Q2Qc (1 # 2)); Finite (Q2Qc 2)]
       (Finite (Q2Qc 1))
     = [false; false; true].
Proof.
  destruct (bw_negative_is_complement [0; 3; 5; 9] 5 (fun x => x)
              [NaN; Finite (Q2Qc (1 # 2)); Finite (Q2Qc 2)] (Finite (Q2Qc 1)))
    as ((Hint & _) & _ & _).
  - lia.
  - reflexivity.
  - reflexivity.
  - split; [exact Hint|]. split; reflexivity.
Defined.

(** ** Value range of a floating-point image *)

Lemma fval_min2_nan a b :
  is_nan a = true \/ is_nan b = true -> fval_min2 a b = NaN.
Proof.
  unfold fval_min2. destruct (is_nan a) eqn:Ha.
  - intros _. now apply is_nan_true.
  - intros [Hc|Hb]; [discriminate|]. rewrite Hb. now apply is_nan_true.
Qed.

Lemma fval_max2_nan a b :
  is_nan a = true \/ is_nan b = true -> fval_max2 a b = NaN.
Proof.
  unfold fval_max2. destruct (is_nan a) eqn:Ha.
  - intros _. now apply is_nan_true.
  - intros [Hc|Hb]; [discriminate|]. rewrite Hb. now apply is_nan_true.
Qed.

Lemma fval_min2_spec a b :
  is_nan a = false -> is_nan b = false ->
  is_nan (fval_min2 a b) = false
  /\ fval_leb (fval_min2 a b) a = true /\ fval_leb (fval_min2 a b) b = true
  /\ (fval_min2 a b = a \/ fval_min2 a b = b).
Proof.
  intros Ha Hb. unfold fval_min2. rewrite Ha, Hb.
  destruct (fval_ltb b a) eqn:E.
  - split; [exact Hb|]. split; [now apply fval_ltb_leb|].
    split; [now apply fval_leb_refl | now right].
  - split; [exact Ha|]. split; [now apply fval_leb_refl|]. split; [|now left].
    rewrite (fval_ltb_negb_leb b a Hb Ha) in E. now apply negb_false_iff in E.
Qed.

Lemma fval_max2_spec a b :
  is_nan a = false -> is_nan b = false ->
  is_nan (fval_max2 a b) = false
  /\ fval_leb a (fval_max2 a b) = true /\ fval_leb b (fval_max2 a b) = true
  /\ (fval_max2 a b = a \/ fval_max2 a b = b).
Proof.
  intros Ha Hb. unfold fval_max2. rewrite Ha, Hb.
  destruct (fval_ltb a b) eqn:E.
  - split; [exact Hb|]. split; [now apply fval_ltb_leb|].
    split; [now apply fval_leb_refl | now right].
  - split; [exact Ha|]. split; [now apply fval_leb_refl|]. split; [|now left].
    rewrite (fval_ltb_negb_leb a b Ha Hb) in E. now apply negb_false_iff in E.
Qed.

Lemma fold_min_spec xs x :
  (forall y, In y (x :: xs) -> is_nan y = false) ->
  is_nan (fold_left fval_min2 xs x) = false
  /\ (forall y, In y (x :: xs) -> fval_leb (fold_left fval_min2 xs x) y = true)
  /\ In (fold_left fval_min2 xs x) (x :: xs).
Proof.
  revert x. induction xs as [|z zs IH]; intros x Hnan; simpl.
  - split; [apply Hnan; now left|]. split; [|now left].
    intros y [<-|[]]. apply fval_leb_refl. apply Hnan. now left.
  - destruct (fval_min2_spec x z) as (Hm & Hx & Hz & Hor);
      [apply Hnan; now left | apply Hnan; right; now left|].
    destruct (IH (fval_min2 x z)) as (Hn & Hle & Hin).
    { intros y [<-|Hy]; [exact Hm | apply Hnan; right; now right]. }
    split; [exact Hn|]. split.
    + intros y [<-|[<-|Hy]].
      * eapply fval_leb_trans; [apply Hle; now left | exact Hx].
      * eapply fval_leb_trans; [apply Hle; now left | exact Hz].
      * apply Hle. now right.
    + destruct Hin as [E|Hin]; [|now right; right].
      rewrite <- E. destruct Hor as [->| ->]; auto.
Qed.

Lemma fold_max_spec xs x :
  (forall y, In y (x :: xs) -> is_nan y = false) ->
  is_nan (fold_left fval_max2 xs x) = false
  /\ (forall y, In y (x :: xs) -> fval_leb y (fold_left fval_max2 xs x) = true)
  /\ In (fold_left fval_max2 xs x) (x :: xs).
Proof.
  revert x. induction xs as [|z zs IH]; intros x Hnan; simpl.
  - split; [apply Hnan; now left|]. split; [|now left].
    intros y [<-|[]]. apply fval_leb_refl. apply Hnan. now left.
  - destruct (fval_max2_spec x z) as (Hm & Hx & Hz & Hor);
      [apply Hnan; now left | apply Hnan; right; now left|].
    destruct (IH (fval_max2 x z)) as (Hn & Hle & Hin).
    { intros y [<-|Hy]; [exact Hm | apply Hnan; right; now right]. }
    split; [exact Hn|]. split.
    + intros y [<-|[<-|Hy]].
      * eapply fval_leb_trans; [exact Hx | apply Hle; now left].
      * eapply fval_leb_trans; [exact Hz | apply Hle; now left].
      * apply Hle. now right.
    + destruct Hin as [E|Hin]; [|now right; right].
      rewrite <- E. destruct Hor as [->| ->]; auto.
Qed.

Lemma fold_min_nan xs x :
  (exists y, In y (x :: xs) /\ is_nan y = true) -> fold_left fval_min2 xs x = NaN.
Proof.
  revert x. induction xs as [|z zs IH]; intros x (y & Hin & Hy); simpl.
  - destruct Hin as [<-|[]]. now apply is_nan_true.
  - apply IH. destruct Hin as [<-|[<-|Hin]].
    + exists (fval_min2 x z). split; [now left|].
      rewrite fval_min2_nan; [reflexivity | now left].
    + exists (fval_min2 x z). split; [now left|].
      rewrite fval_min2_nan; [reflexivity | now right].
    + exists y. split; [now right | exact Hy].
Qed.

Lemma fold_max_nan xs x :
  (exists y, In y (x :: xs) /\ is_nan y = true) -> fold_left fval_max2 xs x = NaN.
Proof.
  revert x. induction xs as [|z zs IH]; intros x (y & Hin & Hy); simpl.
  - destruct Hin as [<-|[]]. now apply is_nan_true.
  - apply IH. destruct Hin as [<-|[<-|Hin]].
    + exists (fval_max2 x z). split; [now left|].
      rewrite fval_max2_nan; [reflexivity | now left].
    + exists (fval_max2 x z). split; [now left|].
      rewrite fval_max2_nan; [reflexivity | now right].
    + exists y. split; [now right | exact Hy].
Qed.

(** X10: for a floating-point image with at least one pixel [_get_min_max]
    returns a range.  When no pixel is NaN the range contains every pixel;
    it is the nominal [(0, 1)] exactly when every pixel lies in [0, 1], and
    otherwise its two ends are the smallest and the largest pixel.  When
    some pixel is NaN the range is the nominal [(0, 1)] whatever the other
    pixels are. *)
Theorem float_range_contains_pixels (data : list fval) :
  data <> [] ->
  exists lo hi,
    _get_min_max_float data = Ok (lo, hi)
    /\ ((forall x, In x data -> is_nan x = false) ->
        (forall x, In x data -> fval_leb lo x = true /\ fval_leb x hi = true)
        /\ ((lo, hi) = (Finite (Q2Qc 0), Finite (Q2Qc 1))
            <-> forall x, In x data ->
                  fval_leb (Finite (Q2Qc 0)) x = true
                  /\ fval_leb x (Finite (Q2Qc 1)) = true)
        /\ ((lo, hi) <> (Finite (Q2Qc 0), Finite (Q2Qc 1)) ->
            In lo data /\ In hi data))
    /\ ((exists x, In x data /\ is_nan x = true) ->
        (lo, hi) = (Finite (Q2Qc 0), Finite (Q2Qc 1))).
Proof.
  destruct data as [|x xs]; [congruence|]. intros _.
  unfold _get_min_max_float.
  set (mn := fold_left fval_min2 xs x). set (mx := fold_left fval_max2 xs x).
  set (r := if fval_ltb mn (Finite (Q2Qc 0)) || fval_ltb (Finite (Q2Qc 1)) mx
            then (mn, mx) else (Finite (Q2Qc 0), Finite (Q2Qc 1))).
  exists (fst r), (snd r). split; [now destruct r|]. unfold r. clear r. split.
  - intros Hnan.
    destruct (fold_min_spec xs x Hnan) as (Hmn & Hmin & Hmin_in).
    destruct (fold_max_spec xs x Hnan) as (Hmx & Hmax & Hmax_in).
    fold mn in Hmn, Hmin, Hmin_in. fold mx in Hmx, Hmax, Hmax_in.
    assert (Hin : forall y, In y (x :: xs) ->
                    fval_leb mn y = true /\ fval_leb y mx = true)
      by (intros y Hy; split; [now apply Hmin | now apply Hmax]).
    destruct (fval_ltb mn (Finite (Q2Qc 0))) eqn:E0; cbn [orb fst snd].
    + split; [exact Hin|]. split; [split|intros _; now split].
      * intros [= Hlo _]. rewrite Hlo in E0. discriminate E0.
      * intros Hall. destruct (Hall mn Hmin_in) as [H0 _].
        rewrite (fval_ltb_negb_leb mn (Finite (Q2Qc 0)) Hmn eq_refl), H0 in E0. discriminate E0.
    + rewrite (fval_ltb_negb_leb mn (Finite (Q2Qc 0)) Hmn eq_refl) in E0.
      apply negb_false_iff in E0.
      destruct (fval_ltb (Finite (Q2Qc 1)) mx) eqn:E1; cbn [orb fst snd].
      * split; [exact Hin|]. split; [split|intros _; now split].
        -- intros [= _ Hhi]. rewrite Hhi in E1. discriminate E1.
        -- intros Hall. destruct (Hall mx Hmax_in) as [_ H1].
           rewrite (fval_ltb_negb_leb (Finite (Q2Qc 1)) mx eq_refl Hmx), H1 in E1. discriminate E1.
      * rewrite (fval_ltb_negb_leb (Finite (Q2Qc 1)) mx eq_refl Hmx) in E1.
        apply negb_false_iff in E1.
        assert (Hall : forall y, In y (x :: xs) ->
                         fval_leb (Finite (Q2Qc 0)) y = true
                         /\ fval_leb y (Finite (Q2Qc 1)) = true).
        { intros y Hy. destruct (Hin y Hy). split.
          - now apply fval_leb_trans with mn.
          - now apply fval_leb_trans with mx. }
        split; [exact Hall|]. split; [split; auto|].
        intros Hc. now elim Hc.
  - intros Hnan.
    pose proof (fold_min_nan xs x Hnan) as Emn. fold mn in Emn.
    pose proof (fold_max_nan xs x Hnan) as Emx. fold mx in Emx.
    rewrite Emn, Emx. reflexivity.
Qed.

Lemma float_range_contains_pixels_witness :
  exists lo hi,
    _get_min_max_float [NaN; Finite (Q2Qc 5)] = Ok (lo, hi)
    /\ (lo, hi) = (Finite (Q2Qc 0), Finite (Q2Qc 1)).
Proof.
  destruct (float_range_contains_pixels [NaN; Finite (Q2Qc 5)])
    as (lo & hi & Hrun & _ & Hnan).
  - discriminate.
  - exists lo, hi. split; [exact Hrun|]. apply Hnan.
    exists NaN. split; [now left | reflexivity].
Defined.

Example float_range_of_finite_pixels :
  _get_min_max_float [Finite (Q2Qc (1 # 2)); Finite (Q2Qc 2); Finite (Q2Qc (1 # 2))]
  = Ok (Finite (Q2Qc (1 # 2)), Finite (Q2Qc 2)).
Proof. reflexivity. Qed.

Example float_range_without_pixels :
  _get_min_max_float []
  = Raise (ValueError "zero-size array to reduction operation minimum which has no identity").
Proof. reflexivity. Qed.

(** ** Foreground area *)

Example foreground_framed :
  get_foreground_area im2_framed None = Ok (Rectangle.make 1 1 2 3).
Proof. reflexivity. Qed.

Lemma scan_up_spec fuel limit solid t :
  t <= limit -> limit - t <= Z.of_nat fuel ->
  let t' := scan_up fuel limit solid t in
  t <= t' <= limit
  /\ (forall k, t <= k < t' -> solid k = true)
  /\ (t' < limit -> solid t' = false).
Proof.
  revert t. induction fuel as [|fuel IH]; intros t Ht Hf; simpl.
  - repeat split; intros; lia.
  - destruct (Z.ltb_spec t limit); simpl; [|repeat split; intros; lia].
    destruct (solid t) eqn:Es; [|repeat split; intros; try lia; auto].
    destruct (IH (t + 1)) as (Hb & Hs & He); try lia.
    split; [lia|]. split; [|exact He].
    intros k Hk. destruct (Z.eq_dec k t) as [->|]; [exact Es | apply Hs; lia].
Qed.

Lemma scan_down_spec fuel limit solid b :
  limit <= b -> b - limit <= Z.of_nat fuel ->
  let b' := scan_down fuel limit solid b in
  limit <= b' <= b
  /\ (forall k, b' < k <= b -> solid k = true)
  /\ (limit < b' -> solid b' = false).
Proof.
  revert b. induction fuel as [|fuel IH]; intros b Hb Hf; simpl.
  - repeat split; intros; lia.
  - rewrite Z.gtb_ltb.
    destruct (Z.ltb_spec limit b); simpl; [|repeat split; intros; lia].
    destruct (solid b) eqn:Es; [|repeat split; intros; try lia; auto].
    destruct (IH (b - 1)) as (Hbd & Hs & He); try lia.
    split; [lia|]. split; [|exact He].
    intros k Hk. destruct (Z.eq_dec k b) as [->|]; [exact Es | apply Hs; lia].
Qed.

Lemma row_all_pixel im c i j :
  row_all im c i = true -> (j < i2_w im)%nat -> pixel im i j = c.
Proof.
  unfold row_all. rewrite forallb_forall. intros H Hj.
  apply Z.eqb_eq, H, in_seq. lia.
Qed.

Lemma col_all_pixel im c i j :
  col_all im c j = true -> (i < i2_h im)%nat -> pixel im i j = c.
Proof.
  unfold col_all. rewrite forallb_forall. intros H Hi.
  apply Z.eqb_eq, H, in_seq. lia.
Qed.

Lemma forallb_false {A} (f : A -> bool) (l : list A) :
  forallb f l = false -> exists x, In x l /\ f x = false.
Proof.
  induction l as [|a l IH]; simpl; [discriminate|].
  destruct (f a) eqn:E; simpl.
  - intros H. destruct (IH H) as (x & Hx & Hf). eauto.
  - intros _. eauto.
Qed.

Lemma row_all_false im c i :
  row_all im c i = false -> exists j, (j < i2_w im)%nat /\ pixel im i j <> c.
Proof.
  intros H. apply forallb_false in H as (j & Hj & Hf).
  apply in_seq in Hj. apply Z.eqb_neq in Hf. exists j. split; [lia | exact Hf].
Qed.

Lemma col_all_false im c j :
  col_all im c j = false -> exists i, (i < i2_h im)%nat /\ pixel im i j <> c.
Proof.
  intros H. apply forallb_false in H as (i & Hi & Hf).
  apply in_seq in Hi. apply Z.eqb_neq in Hf. exists i. split; [lia | exact Hf].
Qed.

Section ForegroundArea.

Variables (im : image2) (c : Z).
Hypothesis Hh : (0 < i2_h im)%nat.
Hypothesis Hw : (0 < i2_w im)%nat.

Let h := Z.of_nat (i2_h im).
Let w := Z.of_nat (i2_w im).
Let rows := fun i => row_all im c (Z.to_nat i).
Let cols := fun j => col_all im c (Z.to_nat j).
Let t := scan_up (i2_h im) (h - 1) rows 0.
Let b := scan_down (i2_h im) t rows (h - 1).
Let l := scan_up (i2_w im) (w - 1) cols 0.
Let r := scan_down (i2_w im) l cols (w - 1).

Lemma foreground_with_background :
  get_foreground_area im (Some c) = Ok (Rectangle.make t l b r).
Proof. reflexivity. Qed.

Lemma foreground_scans :
  (0 <= t <= b /\ b <= h - 1)
  /\ (0 <= l <= r /\ r <= w - 1)
  /\ (forall k, 0 <= k < h -> k < t \/ b < k -> rows k = true)
  /\ (forall k, 0 <= k < w -> k < l \/ r < k -> cols k = true)
  /\ (t < h - 1 -> rows t = false) /\ (t < b -> rows b = false)
  /\ (l < w - 1 -> cols l = false) /\ (l < r -> cols r = false).
Proof.
  destruct (scan_up_spec (i2_h im) (h - 1) rows 0) as (Ht & Hts & Hte); try (unfold h; lia).
  fold t in Ht, Hts, Hte.
  destruct (scan_down_spec (i2_h im) t rows (h - 1)) as (Hb & Hbs & Hbe); try (unfold h; lia).
  fold b in Hb, Hbs, Hbe.
  destruct (scan_up_spec (i2_w im) (w - 1) cols 0) as (Hl & Hls & Hle); try (unfold w; lia).
  fold l in Hl, Hls, Hle.
  destruct (scan_down_spec (i2_w im) l cols (w - 1)) as (Hr & Hrs & Hre); try (unfold w; lia).
  fold r in Hr, Hrs, Hre.
  repeat split; try lia; auto.
  - intros k Hk [Hlt|Hgt]; [apply Hts | apply Hbs]; lia.
  - intros k Hk [Hlt|Hgt]; [apply Hls | apply Hrs]; lia.
Qed.

Lemma foreground_outside i j :
  (i < i2_h im)%nat -> (j < i2_w im)%nat ->
  Z.of_nat i < t \/ b < Z.of_nat i \/ Z.of_nat j < l \/ r < Z.of_nat j ->
  pixel im i j = c.
Proof.
  intros Hi Hj Hout.
  destruct foreground_scans as (_ & _ & Hrows & Hcols & _).
  destruct Hout as [H|[H|[H|H]]].
  - specialize (Hrows (Z.of_nat i) ltac:(unfold h; lia) (or_introl H)).
    unfold rows in Hrows. rewrite Nat2Z.id in Hrows. now apply row_all_pixel.
  - specialize (Hrows (Z.of_nat i) ltac:(unfold h; lia) (or_intror H)).
    unfold rows in Hrows. rewrite Nat2Z.id in Hrows. now apply row_all_pixel.
  - specialize (Hcols (Z.of_nat j) ltac:(unfold w; lia) (or_introl H)).
    unfold cols in Hcols. rewrite Nat2Z.id in Hcols. now apply col_all_pixel.
  - specialize (Hcols (Z.of_nat j) ltac:(unfold w; lia) (or_intror H)).
    unfold cols in Hcols. rewrite Nat2Z.id in Hcols. now apply col_all_pixel.
Qed.

Lemma foreground_tight i0 j0 :
  (i0 < i2_h im)%nat -> (j0 < i2_w im)%nat -> pixel im i0 j0 <> c ->
  rows t = false /\ rows b = false /\ cols l = false /\ cols r = false.
Proof.
  intros Hi Hj Hne.
  destruct foreground_scans as (Htb & Hlr & Hrows & Hcols & Ht & Hb & Hl & Hr).
  assert (Hrt : rows t = false).
  { destruct (rows t) eqn:E; [exfalso|reflexivity].
    assert (t = h - 1)
      by (destruct (Z.eq_dec t (h - 1)); [auto | specialize (Ht ltac:(lia)); congruence]).
    apply Hne. apply row_all_pixel; [|exact Hj].
    destruct (Z.eq_dec (Z.of_nat i0) t) as [Ei|Ni].
    - unfold rows in E. rewrite <- Ei, Nat2Z.id in E. exact E.
    - specialize (Hrows (Z.of_nat i0) ltac:(unfold h; lia) ltac:(unfold h in *; lia)).
      unfold rows in Hrows. now rewrite Nat2Z.id in Hrows. }
  assert (Hcl : cols l = false).
  { destruct (cols l) eqn:E; [exfalso|reflexivity].
    assert (l = w - 1)
      by (destruct (Z.eq_dec l (w - 1)); [auto | specialize (Hl ltac:(lia)); congruence]).
    apply Hne. apply col_all_pixel; [|exact Hi].
    destruct (Z.eq_dec (Z.of_nat j0) l) as [Ej|Nj].
    - unfold cols in E. rewrite <- Ej, Nat2Z.id in E. exact E.
    - specialize (Hcols (Z.of_nat j0) ltac:(unfold w; lia) ltac:(unfold w in *; lia)).
      unfold cols in Hcols. now rewrite Nat2Z.id in Hcols. }
  repeat split; auto.
  - destruct (Z.eq_dec b t) as [->|]; [exact Hrt | apply Hb; lia].
  - destruct (Z.eq_dec r l) as [->|]; [exact Hcl | apply Hr; lia].
Qed.

Lemma foreground_uniform :
  (forall i j, (i < i2_h im)%nat -> (j < i2_w im)%nat -> pixel im i j = c) ->
  t = h - 1 /\ b = h - 1 /\ l = w - 1 /\ r = w - 1.
Proof.
  intros Hall.
  destruct foreground_scans as (Htb & Hlr & _ & _ & Ht & _ & Hl & _).
  assert (Hrows : forall k, 0 <= k < h -> rows k = true).
  { intros k Hk. unfold rows, row_all. apply forallb_forall. intros j Hj.
    apply in_seq in Hj. apply Z.eqb_eq, Hall; unfold h in *; lia. }
  assert (Hcols : forall k, 0 <= k < w -> cols k = true).
  { intros k Hk. unfold cols, col_all. apply forallb_forall. intros i Hi.
    apply in_seq in Hi. apply Z.eqb_eq, Hall; unfold w in *; lia. }
  assert (t = h - 1).
  { destruct (Z.eq_dec t (h - 1)); [auto|].
    specialize (Ht ltac:(lia)). rewrite Hrows in Ht by lia. discriminate Ht. }
  assert (l = w - 1).
  { destruct (Z.eq_dec l (w - 1)); [auto|].
    specialize (Hl ltac:(lia)). rewrite Hcols in Hl by lia. discriminate Hl. }
  lia.
Qed.

End ForegroundArea.

Lemma find_background_inhabited im bg :
  (0 < i2_h im)%nat -> (0 < i2_w im)%nat ->
  exists c, find_background im bg = Ok c.
Proof.
  intros Hh Hw. unfold find_background. destruct bg as [c|]; [eauto|].
  rewrite (proj2 (Nat.eqb_neq (i2_h im) 0)), (proj2 (Nat.eqb_neq (i2_w im) 0)) by lia.
  simpl. destruct (_ || _); [eauto|]. destruct (_ || _); eauto.
Qed.

Lemma foreground_area_within_image_aux im :
  (0 < i2_h im)%nat -> (0 < i2_w im)%nat ->
  exists rect,
    get_foreground_area im None = Ok rect
    /\ 0 <= Rectangle.T rect <= Rectangle.B rect
    /\ Rectangle.B rect < Z.of_nat (i2_h im)
    /\ 0 <= Rectangle.L rect <= Rectangle.R rect
    /\ Rectangle.R rect < Z.of_nat (i2_w im).
Proof.
  intros Hh Hw. unfold get_foreground_area.
  destruct (find_background_inhabited im None Hh Hw) as ([c|] & ->); simpl bind.
  - eexists. split; [reflexivity|].
    destruct (foreground_scans im c Hh Hw) as (Htb & Hlr & _).
    unfold Rectangle.T, Rectangle.B, Rectangle.L, Rectangle.R. simpl. lia.
  - eexists. split; [reflexivity|].
    unfold Rectangle.T, Rectangle.B, Rectangle.L, Rectangle.R. simpl. lia.
Qed.

Lemma foreground_outside_aux im c rect :
  (0 < i2_h im)%nat -> (0 < i2_w im)%nat ->
  find_background im None = Ok (Some c) ->
  get_foreground_area im None = Ok rect ->
  forall i j, (i < i2_h im)%nat -> (j < i2_w im)%nat ->
    Z.of_nat i < Rectangle.T rect \/ Rectangle.B rect < Z.of_nat i
    \/ Z.of_nat j < Rectangle.L rect \/ Rectangle.R rect < Z.of_nat j ->
    pixel im i j = c.
Proof.
  intros Hh Hw Hbg. unfold get_foreground_area. rewrite Hbg. simpl bind.
  intros [= <-] i j Hi Hj Hout.
  now apply (foreground_outside im c Hh Hw i j).
Qed.

(** X11: on an image with at least one row and one column
    [get_foreground_area] always returns a rectangle, and it lies within the
    image and is not empty: [0 <= T <= B < h] and [0 <= L <= R < w]. *)
Theorem foreground_area_within_image (im : image2) (bg : option Z) :
  (0 < i2_h im)%nat -> (0 < i2_w im)%nat ->
  exists rect,
    get_foreground_area im bg = Ok rect
    /\ 0 <= Rectangle.T rect <= Rectangle.B rect
    /\ Rectangle.B rect < Z.of_nat (i2_h im)
    /\ 0 <= Rectangle.L rect <= Rectangle.R rect
    /\ Rectangle.R rect < Z.of_nat (i2_w im).
Proof.
  intros Hh Hw. unfold get_foreground_area.
  destruct (find_background_inhabited im bg Hh Hw) as ([c|] & ->); simpl bind.
  - eexists. split; [reflexivity|].
    destruct (foreground_scans im c Hh Hw) as (Htb & Hlr & _).
    unfold Rectangle.T, Rectangle.B, Rectangle.L, Rectangle.R. simpl. lia.
  - eexists. split; [reflexivity|].
    unfold Rectangle.T, Rectangle.B, Rectangle.L, Rectangle.R. simpl. lia.
Qed.

Lemma foreground_area_within_image_witness :
  exists rect,
    get_foreground_area im2_framed None = Ok rect
    /\ 0 <= Rectangle.T rect <= Rectangle.B rect
    /\ Rectangle.B rect < 4
    /\ 0 <= Rectangle.L rect <= Rectangle.R rect
    /\ Rectangle.R rect < 5.
Proof.
  apply (foreground_area_within_image im2_framed None); simpl; lia.
Defined.

(** X12: when a background colour [c] is given or found, every pixel
    outside the rectangle of [get_foreground_area] has colour [c]; and if
    some pixel has another colour, so has some pixel of each of its four
    edges: the rectangle is the bounding box of the pixels that are not
    background. *)
Theorem foreground_area_is_bounding_box
    (im : image2) (bg : option Z) (c : Z) (rect : Rectangle.t) :
  (0 < i2_h im)%nat -> (0 < i2_w im)%nat ->
  find_background im bg = Ok (Some c) ->
  get_foreground_area im bg = Ok rect ->
  (forall i j, (i < i2_h im)%nat -> (j < i2_w im)%nat ->
     Z.of_nat i < Rectangle.T rect \/ Rectangle.B rect < Z.of_nat i
     \/ Z.of_nat j < Rectangle.L rect \/ Rectangle.R rect < Z.of_nat j ->
     pixel im i j = c)
  /\ (forall i0 j0, (i0 < i2_h im)%nat -> (j0 < i2_w im)%nat -> pixel im i0 j0 <> c ->
        (exists j, (j < i2_w im)%nat /\ pixel im (Z.to_nat (Rectangle.T rect)) j <> c)
        /\ (exists j, (j < i2_w im)%nat /\ pixel im (Z.to_nat (Rectangle.B rect)) j <> c)
        /\ (exists i, (i < i2_h im)%nat /\ pixel im i (Z.to_nat (Rectangle.L rect)) <> c)
        /\ (exists i, (i < i2_h im)%nat /\ pixel im i (Z.to_nat (Rectangle.R rect)) <> c)).
Proof.
  intros Hh Hw Hbg. unfold get_foreground_area. rewrite Hbg. simpl bind.
  intros [= <-]. unfold Rectangle.T, Rectangle.B, Rectangle.L, Rectangle.R. simpl.
  split.
  - intros i j Hi Hj Hout. now apply (foreground_outside im c Hh Hw i j).
  - intros i0 j0 Hi Hj Hne.
    destruct (foreground_tight im c Hh Hw i0 j0 Hi Hj Hne) as (Ht & Hb & Hl & Hr).
    repeat split.
    + now apply row_all_false.
    + now apply row_all_false.
    + now apply col_all_false.
    + now apply col_all_false.
Qed.

Lemma foreground_area_is_bounding_box_witness :
  (forall i j, (i < 4)%nat -> (j < 5)%nat ->
     Z.of_nat i < 1 \/ 2 < Z.of_nat i \/ Z.of_nat j < 1 \/ 3 < Z.of_nat j ->
     pixel im2_framed i j = 0)
  /\ (forall i0 j0, (i0 < 4)%nat -> (j0 < 5)%nat -> pixel im2_framed i0 j0 <> 0 ->
        (exists j, (j < 5)%nat /\ pixel im2_framed (Z.to_nat 1) j <> 0)
        /\ (exists j, (j < 5)%nat /\ pixel im2_framed (Z.to_nat 2) j <> 0)
        /\ (exists i, (i < 4)%nat /\ pixel im2_framed i (Z.to_nat 1) <> 0)
        /\ (exists i, (i < 4)%nat /\ pixel im2_framed i (Z.to_nat 3) <> 0)).
Proof.
  apply (foreground_area_is_bounding_box im2_framed None 0 (Rectangle.make 1 1 2 3)).
  - simpl. lia.
  - simpl. lia.
  - reflexivity.
  - reflexivity.
Defined.

(** X13: an image whose pixels all have one colour, with that colour given
    as background or with none given, gets the one-pixel rectangle of its
    bottom right corner. *)
Theorem foreground_area_uniform (im : image2) (bg : option Z) (c : Z) :
  (0 < i2_h im)%nat -> (0 < i2_w im)%nat ->
  (forall i j, (i < i2_h im)%nat -> (j < i2_w im)%nat -> pixel im i j = c) ->
  bg = None \/ bg = Some c ->
  get_foreground_area im bg
  = Ok (Rectangle.make (Z.of_nat (i2_h im) - 1) (Z.of_nat (i2_w im) - 1)
                       (Z.of_nat (i2_h im) - 1) (Z.of_nat (i2_w im) - 1)).
Proof.
  intros Hh Hw Hall Hbg.
  assert (Hfind : find_background im bg = Ok (Some c)).
  { destruct Hbg as [-> | ->]; [|reflexivity]. unfold find_background.
    rewrite (proj2 (Nat.eqb_neq (i2_h im) 0)), (proj2 (Nat.eqb_neq (i2_w im) 0)) by lia.
    simpl. rewrite (Hall 0%nat 0%nat Hh Hw).
    replace (row_all im c 0) with true; [reflexivity|].
    symmetry. apply forallb_forall. intros j Hj. apply in_seq in Hj.
    apply Z.eqb_eq, Hall; lia. }
  unfold get_foreground_area. rewrite Hfind. simpl bind.
  destruct (foreground_uniform im c Hh Hw Hall) as (-> & -> & -> & ->). reflexivity.
Qed.

Lemma foreground_area_uniform_witness :
  get_foreground_area (mkImage2 IM_BYTE 2 3 [7; 7; 7; 7; 7; 7]) None
  = Ok (Rectangle.make 1 2 1 2).
Proof.
  apply (foreground_area_uniform (mkImage2 IM_BYTE 2 3 [7; 7; 7; 7; 7; 7]) None 7).
  - simpl. lia.
  - simpl. lia.
  - intros i j Hi Hj. simpl in Hi, Hj. unfold pixel. simpl.
    destruct i as [|[|i]]; destruct j as [|[|[|j]]]; try lia; reflexivity.
  - now left.
Defined.

(** ** Cropping and padding *)

Lemma flat_rows_length (f : nat -> nat -> Z) w (l : list nat) :
  length (flat_map (fun i => map (f i) (seq 0 w)) l) = (length l * w)%nat.
Proof.
  induction l as [|a l IH]; simpl; [reflexivity|].
  now rewrite length_app, length_map, length_seq, IH.
Qed.

Lemma build_length h w f : length (build h w f) = (h * w)%nat.
Proof. unfold build. now rewrite flat_rows_length, length_seq. Qed.

Lemma nth_flat_rows (f : nat -> nat -> Z) s h w i j :
  (i < h)%nat -> (j < w)%nat ->
  nth (i * w + j) (flat_map (fun i => map (f i) (seq 0 w)) (seq s h)) 0
  = f (s + i)%nat j.
Proof.
  revert s i. induction h as [|h IH]; intros s i Hi Hj; [lia|]. simpl.
  destruct i as [|i].
  - rewrite app_nth1 by (rewrite length_map, length_seq; lia).
    simpl. rewrite Nat.add_0_r. now apply nth_map_seq.
  - rewrite app_nth2 by (rewrite length_map, length_seq; simpl; lia).
    rewrite length_map, length_seq.
    replace (S i * w + j - w)%nat with (i * w + j)%nat by (simpl; lia).
    rewrite IH by lia. f_equal. lia.
Qed.

(** Element [(i, j)] of a built array. *)
Lemma pixel_build d h w f i j :
  (i < h)%nat -> (j < w)%nat ->
  pixel (mkImage2 d h w (build h w f)) i j = f i j.
Proof.
  intros Hi Hj. unfold pixel, build. simpl.
  now rewrite nth_flat_rows.
Qed.

Lemma build_ext h w f g :
  (forall i j, (i < h)%nat -> (j < w)%nat -> f i j = g i j) ->
  build h w f = build h w g.
Proof.
  intros H. apply (nth_ext _ _ 0 0); [now rewrite !build_length|].
  intros k Hk. rewrite build_length in Hk.
  assert (Hw : w <> 0%nat) by (intros ->; lia).
  pose proof (Nat.div_mod_eq k w) as Hdm.
  pose proof (Nat.mod_upper_bound k w Hw) as Hmod.
  assert (Hdiv : (k / w < h)%nat) by (apply Nat.Div0.div_lt_upper_bound; lia).
  remember (k / w)%nat as q. remember (k mod w)%nat as m.
  assert (E : k = (q * w + m)%nat) by lia. rewrite E.
  unfold build. rewrite !nth_flat_rows by assumption. simpl. now apply H.
Qed.

Lemma build_pixel im :
  well_formed im -> build (i2_h im) (i2_w im) (pixel im) = i2_data im.
Proof.
  unfold well_formed. intros Hwf.
  apply (nth_ext _ _ 0 0); [now rewrite build_length|].
  intros k Hk. rewrite build_length in Hk.
  assert (Hw : i2_w im <> 0%nat) by (intros E; rewrite E in Hk; lia).
  pose proof (Nat.div_mod_eq k (i2_w im)) as Hdm.
  pose proof (Nat.mod_upper_bound k (i2_w im) Hw) as Hmod.
  assert (Hdiv : (k / i2_w im < i2_h im)%nat) by (apply Nat.Div0.div_lt_upper_bound; lia).
  remember (k / i2_w im)%nat as q. remember (k mod i2_w im)%nat as m.
  assert (E : k = (q * i2_w im + m)%nat) by lia. rewrite E.
  unfold build. rewrite nth_flat_rows by assumption. reflexivity.
Qed.

Lemma slice_index_inside n x : 0 <= x <= n -> slice_index n x = x.
Proof.
  intros H. unfold slice_index.
  rewrite (proj2 (Z.ltb_ge x 0)) by lia. lia.
Qed.

Lemma slice2_inside im r0 r1 c0 c1 :
  0 <= r0 <= r1 -> r1 <= Z.of_nat (i2_h im) ->
  0 <= c0 <= c1 -> c1 <= Z.of_nat (i2_w im) ->
  let out := slice2 im r0 r1 c0 c1 in
  i2_dtype out = i2_dtype im
  /\ i2_h out = Z.to_nat (r1 - r0) /\ i2_w out = Z.to_nat (c1 - c0)
  /\ well_formed out
  /\ forall i j, (i < i2_h out)%nat -> (j < i2_w out)%nat ->
       pixel out i j = pixel im (Z.to_nat r0 + i) (Z.to_nat c0 + j).
Proof.
  intros Hr Hr1 Hc Hc1. unfold slice2.
  rewrite !slice_index_inside by lia. simpl.
  repeat split.
  - unfold well_formed. simpl. apply build_length.
  - intros i j Hi Hj. now rewrite pixel_build.
Qed.

(** X14: cropping to a rectangle that lies within the image gives an array
    of [B - T + 1] rows and [R - L + 1] columns (one more than the [H] and
    [W] of the rectangle), of the same element type, whose pixel [(i, j)] is
    pixel [(T + i, L + j)] of the image. *)
Theorem crop_keeps_rectangle (im : image2) (rect : Rectangle.t) :
  0 <= Rectangle.T rect <= Rectangle.B rect ->
  Rectangle.B rect < Z.of_nat (i2_h im) ->
  0 <= Rectangle.L rect <= Rectangle.R rect ->
  Rectangle.R rect < Z.of_nat (i2_w im) ->
  exists out,
    crop im (Some rect) = Ok out
    /\ i2_dtype out = i2_dtype im
    /\ Z.of_nat (i2_h out) = Rectangle.H rect + 1
    /\ Z.of_nat (i2_w out) = Rectangle.W rect + 1
    /\ well_formed out
    /\ forall i j, (i < i2_h out)%nat -> (j < i2_w out)%nat ->
         pixel out i j
         = pixel im (Z.to_nat (Rectangle.T rect) + i) (Z.to_nat (Rectangle.L rect) + j).
Proof.
  intros HT HB HL HR. eexists. split; [reflexivity|].
  destruct (slice2_inside im (Rectangle.T rect) (Rectangle.B rect + 1)
              (Rectangle.L rect) (Rectangle.R rect + 1))
    as (Hd & Hh & Hw & Hwf & Hpix); try lia.
  unfold Rectangle.H, Rectangle.W.
  split; [exact Hd|]. split; [rewrite Hh; lia|]. split; [rewrite Hw; lia|].
  split; [exact Hwf | exact Hpix].
Qed.

Lemma crop_keeps_rectangle_witness :
  exists out,
    crop im2_framed (Some (Rectangle.make 1 1 2 3)) = Ok out
    /\ i2_dtype out = IM_BYTE
    /\ Z.of_nat (i2_h out) = Rectangle.H (Rectangle.make 1 1 2 3) + 1
    /\ Z.of_nat (i2_w out) = Rectangle.W (Rectangle.make 1 1 2 3) + 1
    /\ well_formed out
    /\ forall i j, (i < i2_h out)%nat -> (j < i2_w out)%nat ->
         pixel out i j = pixel im2_framed (Z.to_nat 1 + i) (Z.to_nat 1 + j).
Proof.
  apply (crop_keeps_rectangle im2_framed (Rectangle.make 1 1 2 3));
    unfold Rectangle.T, Rectangle.B, Rectangle.L, Rectangle.R; simpl; lia.
Defined.

Example crop_framed :
  crop im2_framed None = Ok (mkImage2 IM_BYTE 2 3 [3; 0; 4; 0; 5; 0]).
Proof. reflexivity. Qed.

(** X15: [crop] without a rectangle, on an image with at least one row and
    one column, returns a non-empty array; when a background colour is found
    along an edge, every pixel of another colour is kept, at its position
    relative to the top left corner of the foreground area. *)
Theorem crop_default_keeps_foreground (im : image2) :
  (0 < i2_h im)%nat -> (0 < i2_w im)%nat ->
  exists rect out,
    get_foreground_area im None = Ok rect
    /\ crop im None = Ok out
    /\ (0 < i2_h out)%nat /\ (0 < i2_w out)%nat
    /\ forall c, find_background im None = Ok (Some c) ->
       forall i j, (i < i2_h im)%nat -> (j < i2_w im)%nat -> pixel im i j <> c ->
         Rectangle.T rect <= Z.of_nat i <= Rectangle.B rect
         /\ Rectangle.L rect <= Z.of_nat j <= Rectangle.R rect
         /\ pixel out (i - Z.to_nat (Rectangle.T rect)) (j - Z.to_nat (Rectangle.L rect))
            = pixel im i j.
Proof.
  intros Hh Hw.
  destruct (foreground_area_within_image_aux im Hh Hw) as (rect & Hg & HT & HB & HL & HR).
  exists rect. eexists. split; [exact Hg|]. unfold crop. rewrite Hg. simpl bind.
  split; [reflexivity|].
  destruct (slice2_inside im (Rectangle.T rect) (Rectangle.B rect + 1)
              (Rectangle.L rect) (Rectangle.R rect + 1))
    as (Hd & Hho & Hwo & Hwf & Hpix); try lia.
  split; [rewrite Hho; lia|]. split; [rewrite Hwo; lia|].
  intros c Hc i j Hi Hj Hne.
  assert (Hin : Rectangle.T rect <= Z.of_nat i <= Rectangle.B rect
                /\ Rectangle.L rect <= Z.of_nat j <= Rectangle.R rect).
  { destruct (Z.lt_ge_cases (Z.of_nat i) (Rectangle.T rect)) as [H1|H1];
      [elim Hne; apply (foreground_outside_aux im c rect Hh Hw Hc Hg i j); auto|].
    destruct (Z.lt_ge_cases (Rectangle.B rect) (Z.of_nat i)) as [H2|H2];
      [elim Hne; apply (foreground_outside_aux im c rect Hh Hw Hc Hg i j); auto|].
    destruct (Z.lt_ge_cases (Z.of_nat j) (Rectangle.L rect)) as [H3|H3];
      [elim Hne; apply (foreground_outside_aux im c rect Hh Hw Hc Hg i j); auto|].
    destruct (Z.lt_ge_cases (Rectangle.R rect) (Z.of_nat j)) as [H4|H4];
      [elim Hne; apply (foreground_outside_aux im c rect Hh Hw Hc Hg i j); auto|].
    lia. }
  split; [apply Hin|]. split; [apply Hin|].
  rewrite Hpix by lia. f_equal; lia.
Qed.

Lemma crop_default_keeps_foreground_witness :
  exists rect out,
    get_foreground_area im2_framed None = Ok rect
    /\ crop im2_framed None = Ok out
    /\ (0 < i2_h out)%nat /\ (0 < i2_w out)%nat
    /\ forall c, find_background im2_framed None = Ok (Some c) ->
       forall i j, (i < 4)%nat -> (j < 5)%nat -> pixel im2_framed i j <> c ->
         Rectangle.T rect <= Z.of_nat i <= Rectangle.B rect
         /\ Rectangle.L rect <= Z.of_nat j <= Rectangle.R rect
         /\ pixel out (i - Z.to_nat (Rectangle.T rect)) (j - Z.to_nat (Rectangle.L rect))
            = pixel im2_framed i j.
Proof.
  apply (crop_default_keeps_foreground im2_framed); simpl; lia.
Defined.

Example pad_small :
  pad im2_small 1 0 0 1
  = Ok (mkImage2 IM_BYTE 3 3 [0; 0; 0; 1; 2; 0; 3; 4; 0]).
Proof. reflexivity. Qed.

(** The window of [pad] for paddings that are not negative. *)
Lemma pad_window im t l b r :
  0 <= t -> 0 <= l -> 0 <= b -> 0 <= r ->
  let h := Z.of_nat (i2_h im) in
  let w := Z.of_nat (i2_w im) in
  slice_index (h + b + t) t = t
  /\ slice_index (h + b + t) (t + h) = t + h
  /\ slice_index (h + r + l) l = l
  /\ slice_index (h + r + l) (l + w) = Z.min (l + w) (h + r + l).
Proof.
  intros Ht Hl Hb Hr h w. unfold h, w.
  rewrite !slice_index_inside by lia.
  repeat split. unfold slice_index.
  now rewrite (proj2 (Z.ltb_ge _ 0)) by lia.
Qed.

Lemma pad_places_image_aux (im : image2) (t l b r : Z) :
  0 <= t -> 0 <= l -> 0 <= b -> 0 <= r ->
  Z.of_nat (i2_w im) <= Z.of_nat (i2_h im) + r ->
  exists out,
    pad im t l b r = Ok out
    /\ i2_dtype out = i2_dtype im
    /\ Z.of_nat (i2_h out) = Z.of_nat (i2_h im) + b + t
    /\ Z.of_nat (i2_w out) = Z.of_nat (i2_h im) + r + l
    /\ well_formed out
    /\ forall i j, (i < i2_h out)%nat -> (j < i2_w out)%nat ->
         pixel out i j
         = if (t <=? Z.of_nat i) && (Z.of_nat i <? t + Z.of_nat (i2_h im))
              && (l <=? Z.of_nat j) && (Z.of_nat j <? l + Z.of_nat (i2_w im))
           then pixel im (i - Z.to_nat t) (j - Z.to_nat l)
           else 0.
Proof.
  intros Ht Hl Hb Hr Hw. unfold pad.
  destruct (pad_window im t l b r Ht Hl Hb Hr) as (E1 & E2 & E3 & E4).
  cbv zeta in E1, E2, E3, E4. rewrite E1, E2, E3, E4.
  rewrite (proj2 (Z.ltb_ge _ 0)), (proj2 (Z.ltb_ge _ 0)) by lia. simpl orb. cbv iota.
  replace (Z.to_nat (t + Z.of_nat (i2_h im) - t)) with (i2_h im) by lia.
  replace (Z.to_nat (Z.min (l + Z.of_nat (i2_w im)) (Z.of_nat (i2_h im) + r + l) - l))
    with (i2_w im) by lia.
  rewrite !Nat.eqb_refl. simpl andb. cbv iota.
  eexists. split; [reflexivity|]. simpl.
  split; [reflexivity|]. split; [lia|]. split; [lia|].
  split; [unfold well_formed; simpl; apply build_length|].
  intros i j Hi Hj. rewrite pixel_build by assumption.
  destruct (Nat.leb_spec (Z.to_nat t) i), (Z.leb_spec t (Z.of_nat i)); try lia; simpl;
    try reflexivity.
  destruct (Nat.ltb_spec i (Z.to_nat t + i2_h im)),
           (Z.ltb_spec (Z.of_nat i) (t + Z.of_nat (i2_h im))); try lia; simpl;
    try reflexivity.
  destruct (Nat.leb_spec (Z.to_nat l) j), (Z.leb_spec l (Z.of_nat j)); try lia; simpl;
    try reflexivity.
  destruct (Nat.ltb_spec j (Z.to_nat l + i2_w im)),
           (Z.ltb_spec (Z.of_nat j) (l + Z.of_nat (i2_w im))); try lia; simpl;
    try reflexivity.
  f_equal.
  - destruct (Nat.eqb_spec (i2_h im) 1); lia.
  - destruct (Nat.eqb_spec (i2_w im) 1); lia.
Qed.

(** X16: for paddings that are not negative and an image of at most [h + r]
    columns ([h] its number of rows), [pad] returns an array of [h + b + t]
    rows and [h + r + l] columns (the width of the result comes from the
    height of the image), of the same element type, that holds the image
    with its top left corner at [(t, l)] and 0 everywhere else. *)
Theorem pad_places_image (im : image2) (t l b r : Z) :
  0 <= t -> 0 <= l -> 0 <= b -> 0 <= r ->
  Z.of_nat (i2_w im) <= Z.of_nat (i2_h im) + r ->
  exists out,
    pad im t l b r = Ok out
    /\ i2_dtype out = i2_dtype im
    /\ Z.of_nat (i2_h out) = Z.of_nat (i2_h im) + b + t
    /\ Z.of_nat (i2_w out) = Z.of_nat (i2_h im) + r + l
    /\ well_formed out
    /\ forall i j, (i < i2_h out)%nat -> (j < i2_w out)%nat ->
         pixel out i j
         = if (t <=? Z.of_nat i) && (Z.of_nat i <? t + Z.of_nat (i2_h im))
              && (l <=? Z.of_nat j) && (Z.of_nat j <? l + Z.of_nat (i2_w im))
           then pixel im (i - Z.to_nat t) (j - Z.to_nat l)
           else 0.
Proof.
  apply pad_places_image_aux.
Qed.

Lemma pad_places_image_witness :
  exists out,
    pad im2_small 1 0 0 1 = Ok out
    /\ i2_dtype out = IM_BYTE
    /\ Z.of_nat (i2_h out) = 2 + 0 + 1
    /\ Z.of_nat (i2_w out) = 2 + 1 + 0
    /\ well_formed out
    /\ forall i j, (i < i2_h out)%nat -> (j < i2_w out)%nat ->
         pixel out i j
         = if (1 <=? Z.of_nat i) && (Z.of_nat i <? 1 + 2)
              && (0 <=? Z.of_nat j) && (Z.of_nat j <? 0 + 2)
           then pixel im2_small (i - Z.to_nat 1) (j - Z.to_nat 0)
           else 0.
Proof.
  apply (pad_places_image im2_small 1 0 0 1); simpl; lia.
Defined.

(** X17: an image with more than [h + r] columns ([h] its number of rows)
    and more than one column makes [pad] raise a [ValueError]: the window
    cut out of the result is narrower than the image. *)
Theorem pad_fails_on_wide_image (im : image2) (t l b r : Z) :
  0 <= t -> 0 <= l -> 0 <= b -> 0 <= r ->
  Z.of_nat (i2_h im) + r < Z.of_nat (i2_w im) -> (1 < i2_w im)%nat ->
  exists msg, pad im t l b r = Raise (ValueError msg).
Proof.
  intros Ht Hl Hb Hr Hw H1. unfold pad.
  destruct (pad_window im t l b r Ht Hl Hb Hr) as (E1 & E2 & E3 & E4).
  cbv zeta in E1, E2, E3, E4. rewrite E1, E2, E3, E4.
  rewrite (proj2 (Z.ltb_ge _ 0)), (proj2 (Z.ltb_ge _ 0)) by lia. simpl orb. cbv iota.
  replace (Nat.eqb (Z.to_nat (Z.min (l + Z.of_nat (i2_w im))
                                (Z.of_nat (i2_h im) + r + l) - l)) (i2_w im))
    with false by (symmetry; apply Nat.eqb_neq; lia).
  replace (Nat.eqb (i2_w im) 1) with false by (symmetry; apply Nat.eqb_neq; lia).
  rewrite andb_false_r. eexists. reflexivity.
Qed.

Lemma pad_fails_on_wide_image_witness :
  exists msg,
    pad (mkImage2 IM_BYTE 1 3 [1; 2; 3]) 0 0 0 1 = Raise (ValueError msg).
Proof.
  apply (pad_fails_on_wide_image (mkImage2 IM_BYTE 1 3 [1; 2; 3]) 0 0 0 1); simpl; lia.
Defined.

(** X18: cropping a padded image to the window where [pad] put the image
    gives the image back: same element type, shape and pixels. *)
Theorem crop_of_pad_is_identity (im : image2) (t l b r : Z) :
  well_formed im ->
  0 <= t -> 0 <= l -> 0 <= b -> 0 <= r ->
  Z.of_nat (i2_w im) <= Z.of_nat (i2_h im) + r ->
  exists out,
    pad im t l b r = Ok out
    /\ crop out (Some (Rectangle.make t l (t + Z.of_nat (i2_h im) - 1)
                                      (l + Z.of_nat (i2_w im) - 1)))
       = Ok im.
Proof.
  intros Hwf Ht Hl Hb Hr Hw.
  destruct (pad_places_image_aux im t l b r Ht Hl Hb Hr Hw)
    as (out & Hpad & Hd & Hh & Hwo & _ & Hpix).
  exists out. split; [exact Hpad|].
  unfold crop. simpl bind. f_equal.
  unfold Rectangle.T, Rectangle.B, Rectangle.L, Rectangle.R. simpl.
  unfold slice2. rewrite !slice_index_inside by lia. rewrite Hd.
  replace (Z.to_nat (t + Z.of_nat (i2_h im) - 1 + 1 - t)) with (i2_h im) by lia.
  replace (Z.to_nat (l + Z.of_nat (i2_w im) - 1 + 1 - l)) with (i2_w im) by lia.
  destruct im as [d h w data]. simpl in *. f_equal.
  transitivity (build h w (pixel (mkImage2 d h w data)));
    [|exact (build_pixel (mkImage2 d h w data) Hwf)].
  apply build_ext. intros i j Hi Hj.
  rewrite Hpix by lia.
  rewrite (proj2 (Z.leb_le t _)), (proj2 (Z.ltb_lt _ (t + Z.of_nat h))) by lia.
  rewrite (proj2 (Z.leb_le l _)), (proj2 (Z.ltb_lt _ (l + Z.of_nat w))) by lia.
  simpl. f_equal; lia.
Qed.

Lemma crop_of_pad_is_identity_witness :
  exists out,
    pad im2_small 1 0 0 1 = Ok out
    /\ crop out (Some (Rectangle.make 1 0 (1 + 2 - 1) (0 + 2 - 1))) = Ok im2_small.
Proof.
  apply (crop_of_pad_is_identity im2_small 1 0 0 1); try (simpl; lia).
  reflexivity.
Defined.

(** ** The element type of the results *)

Lemma narrowest_dtype_for d n : narrowest d n -> d = dtype_for n.
Proof.
  intros (Hd & Hfit & Hmin). unfold dtype_for.
  pose proof (Hmin IM_BIT ltac:(simpl; tauto)) as H1.
  pose proof (Hmin IM_BYTE ltac:(simpl; tauto)) as H2.
  pose proof (Hmin IM_USHORT ltac:(simpl; tauto)) as H3.
  pose proof (Hmin IM_UINT ltac:(simpl; tauto)) as H4.
  unfold dtype_max in *. simpl in Hd.
  decompose [or] Hd; try contradiction; subst d; dtype_max_values;
    repeat match goal with
           | |- context [n <=? ?m] => destruct (Z.leb_spec n m)
           end; try reflexivity; lia.
Qed.

Lemma narrowest_grow d n n' :
  narrowest d n -> n <= n' <= dtype_max d -> narrowest d n'.
Proof.
  intros (Hd & Hfit & Hmin) Hn. repeat split; auto; try lia.
  intros d' Hd' Hfit'. apply Hmin; auto. lia.
Qed.

Lemma relabel_split_dtype js l im N im' N' :
  relabel_split js l im N = Ok (im', N') -> ia_dtype im' = ia_dtype im.
Proof.
  revert im N. induction js as [|j js IH]; intros im N; simpl.
  - now intros [= <- _].
  - unfold set_where. destruct (Nat.eqb _ _); simpl; [|discriminate].
    intros H. now apply IH in H.
Qed.

Section RelabelType.

Variable label : list nat -> list bool -> list Z * Z.
Hypothesis Hlabel : label_contract label.
Variables (im0 : intarray) (N0 : Z).
Hypothesis Hvalues : forall v, In v (ia_data im0) -> 0 <= v <= N0.
Hypothesis HN0 : 0 <= N0.

Lemma relabel_body_narrowest i st st' :
  relabel_inv label im0 N0 st ->
  narrowest (ia_dtype (st_im st)) (st_N st) ->
  relabel_body label i st = Ok st' ->
  narrowest (ia_dtype (st_im st')) (st_N st').
Proof.
  intros Hinv Hnar.
  pose proof (fun v => relabel_inv_values label im0 N0 Hvalues HN0 st v Hinv) as Hv.
  destruct Hinv as (_ & _ & Hd & Hmx & HNmx & _ & _).
  unfold relabel_body.
  destruct (label (ia_shape (st_im st)) (eq_mask (st_im st) i)) as [l n].
  rewrite Z.gtb_ltb.
  destruct (st_mx st <? st_N st + n - 1) eqn:E.
  - apply Z.ltb_lt in E.
    destruct (_conv_type (st_im st) (st_N st + n - 1)) as [[im1 x]|e] eqn:Hc;
      simpl; [|discriminate].
    apply _conv_type_narrowest in Hc as (_ & _ & Hnar1).
    destruct (relabel_split (range 2 (n + 1)) l im1 (st_N st)) as [[im2 N2]|e] eqn:Hs;
      simpl; [|discriminate].
    intros [= <-]. simpl.
    rewrite (relabel_split_dtype _ _ _ _ _ _ Hs).
    apply relabel_split_N in Hs. rewrite len_range in Hs.
    replace N2 with (st_N st + n - 1) by lia. exact Hnar1.
  - apply Z.ltb_ge in E. simpl.
    destruct (relabel_split (range 2 (n + 1)) l (st_im st) (st_N st))
      as [[im2 N2]|e] eqn:Hs; simpl; [|discriminate].
    intros [= <-]. simpl.
    rewrite (relabel_split_dtype _ _ _ _ _ _ Hs).
    apply relabel_split_N in Hs. rewrite len_range in Hs.
    apply (narrowest_grow _ (st_N st)); [exact Hnar|]. lia.
Qed.

Lemma relabel_loop_narrowest labels st st' :
  relabel_inv label im0 N0 st ->
  narrowest (ia_dtype (st_im st)) (st_N st) ->
  (forall i, In i labels -> 1 <= i <= N0) ->
  NoDup (st_visited st ++ labels) ->
  relabel_loop label labels st = Ok st' ->
  narrowest (ia_dtype (st_im st')) (st_N st').
Proof.
  revert st. induction labels as [|i rest IH]; intros st Hinv Hnar Hin Hnd; simpl.
  - now intros [= <-].
  - destruct (relabel_body label i st) as [st1|e] eqn:Hb; simpl; [|discriminate].
    assert (Hnew : ~ In i (st_visited st)).
    { apply NoDup_remove_2 in Hnd. intros Hc. apply Hnd, in_or_app. now left. }
    pose proof (relabel_body_inv label Hlabel im0 N0 Hvalues HN0 i st st1 Hinv
                  (Hin i (or_introl eq_refl)) Hnew Hb) as Hinv1.
    pose proof (relabel_body_narrowest i st st1 Hinv Hnar Hb) as Hnar1.
    apply relabel_body_visits in Hb as [Hvis _].
    apply IH; auto.
    + intros j Hj. apply Hin. now right.
    + rewrite Hvis, <- app_assoc. exact Hnd.
Qed.

End RelabelType.

(** X19: the element type of the array [consecutively_number] returns is
    fixed by the max label [N]: boolean up to 1, then 8, 16, 32 and 64 bit
    unsigned (little-endian); and so is, with a components routine that
    keeps to its contract, the element type of the array [relabel] returns,
    for its own, possibly larger, max label. *)
Theorem result_type_follows_max_label
    (label : list nat -> list bool -> list Z * Z) (im : ndarray) :
  (forall out N, consecutively_number im = Ok (out, N) -> ia_dtype out = dtype_for N)
  /\ (label_contract label ->
      forall out N, relabel label im = Ok (out, N) -> ia_dtype out = dtype_for N).
Proof.
  split.
  - intros out N H. apply narrowest_dtype_for.
    apply (rn_narrowest _ _ _ (consecutively_number_renumbered im out N H)).
  - intros Hlabel out N H. apply relabel_Ok in H as (st & Hrun & <- & <-).
    apply narrowest_dtype_for. unfold relabel_run in Hrun.
    destruct (consecutively_number im) as [[im0 N0]|e] eqn:Hcn; simpl in Hrun;
      [|discriminate].
    pose proof (consecutively_number_renumbered im im0 N0 Hcn) as [Hn Hnar Hb _ _].
    apply (relabel_loop_narrowest label Hlabel im0 N0 Hb Hn) in Hrun; auto.
    + unfold relabel_inv. simpl. destruct Hnar as (Hd & Hfit & _).
      repeat split; auto; lia.
    + intros i Hi. apply In_range in Hi. lia.
    + simpl. apply NoDup_range.
Qed.

Lemma result_type_follows_max_label_witness :
  ia_dtype (mkInt IM_BYTE [5; 5]%nat
              [1; 0; 0; 0; 0;
               0; 0; 0; 0; 0;
               0; 0; 0; 0; 0;
               0; 0; 0; 0; 0;
               0; 0; 0; 0; 2]) = dtype_for 2.
Proof.
  apply (proj2 (result_type_follows_max_label label4 im_corners) label4_contract).
  reflexivity.
Defined.

(** ** The classifier *)

(** X20: no array is both an RGB image and a plain image; images have two
    or three dimensions; and an array of integer element type with two
    dimensions is always a plain image. *)
Theorem classifier_is_exclusive (im : ndarray) :
  is_rgb24 im && is_image_besides_rgb24 im = false
  /\ (is_image im = true -> ndim im = 2%nat \/ ndim im = 3%nat)
  /\ (forall a, im = IntArray a -> ndim im = 2%nat ->
        is_image_besides_rgb24 im = true).
Proof.
  split; [|split].
  - destruct (is_image_besides_rgb24 im) eqn:E.
    + now rewrite (plain_not_rgb im E).
    + apply andb_false_r.
  - unfold is_image, is_rgb24, is_image_besides_rgb24.
    destruct (Nat.eqb_spec (ndim im) 2); [auto|].
    destruct (Nat.eqb_spec (ndim im) 3); [auto|]. simpl. discriminate.
  - intros a -> Hd. unfold ndim in Hd. simpl in Hd.
    apply (plain_2d_int a Hd).
Qed.

(** ** Images without pixels *)

(** X21: on an image without rows or without columns
    [get_foreground_area] and [crop], when they have to find the background
    themselves, raise [IndexError]. *)
Theorem foreground_area_of_empty_image (im : image2) :
  i2_h im = 0%nat \/ i2_w im = 0%nat ->
  get_foreground_area im None = Raise IndexError
  /\ crop im None = Raise IndexError.
Proof.
  intros H. unfold crop.
  assert (E : get_foreground_area im None = Raise IndexError).
  { unfold get_foreground_area, find_background.
    destruct H as [-> | ->]; simpl; [reflexivity|]. now rewrite orb_true_r. }
  now rewrite E.
Qed.

Lemma foreground_area_of_empty_image_witness :
  get_foreground_area (mkImage2 IM_BYTE 3 0 []) None = Raise IndexError
  /\ crop (mkImage2 IM_BYTE 3 0 []) None = Raise IndexError.
Proof.
  apply (foreground_area_of_empty_image (mkImage2 IM_BYTE 3 0 [])). now right.
Defined.
